(** * globstar: argument expansion and command execution

    A shallow embedding of [globstar.js].  The program parses its command
    line with yargs, expands the glob patterns among the arguments of a
    command, and runs the command once with all the expansions (bulk mode)
    or once per match of a single pattern (each mode).

    The npm packages the program calls ([yargs], [glob], [is-glob],
    [npmlog], [child_process]) are not part of the program: they appear
    here as the variables of a section, or as input data.

    The program is embedded twice.  The first embedding takes [glob] as
    the specification does, as a function from a pattern and options to
    a list of paths.  The second takes a call of [glob] with its
    effects: it may throw, and it may write to the option object.  The
    first is the second for a [glob] that does neither. *)

From stdpp Require Import base strings list gmap pretty.
From Stdlib Require Import ZArith Lia.

Local Open Scope string_scope.
Local Open Scope list_scope.
Local Open Scope Z_scope.

(** ** JavaScript values and objects *)

(** The values that can sit in the option object yargs produces. *)
Inductive JsVal :=
  | VUndef
  | VBool (b : bool)
  | VNum (n : Z)
  | VStr (s : string)
  | VArr (a : list string).

#[global] Instance JsVal_eq_dec : EqDecision JsVal.
Proof. solve_decision. Defined.

(** JavaScript truthiness, as used by [if (x)] and [x || y]. *)
Definition truthy (v : JsVal) : bool :=
  match v with
  | VUndef => false
  | VBool b => b
  | VNum n => negb (n =? 0)
  | VStr s => negb (String.eqb s EmptyString)
  | VArr _ => true
  end.

(** A property read [o.k]: a missing key reads as [undefined]. *)
Definition prop (o : gmap string JsVal) (k : string) : JsVal :=
  default VUndef (o !! k).

(** The option object handed to [glob]. *)
Abbreviation GlobOpts := (gmap string JsVal).

(** An [Error] object: the three properties the program reads or writes. *)
Record JsError := mkError {
  name : string;
  message : string;
  status : option Z
}.

#[global] Instance JsError_eq_dec : EqDecision JsError.
Proof. solve_decision. Defined.

(** ** Logging, events and the world *)

(** The npmlog levels the program uses, with npmlog's numeric ranks
    ([silly] is minus infinity there). *)
Inductive LogLevel := Silly | Verbose | Info | Error.

#[global] Instance LogLevel_eq_dec : EqDecision LogLevel.
Proof. solve_decision. Defined.

Definition level_rank (l : LogLevel) : Z :=
  match l with
  | Silly => -1
  | Verbose => 1000
  | Info => 2000
  | Error => 5000
  end.

(** npmlog shows a record when its level is not below [npmlog.level]. *)
Definition shown (l threshold : LogLevel) : bool :=
  level_rank threshold <=? level_rank l.

Inductive LogMsg :=
  | MsgOpts (opts : GlobOpts)                       (* { opts: globOpts } *)
  | MsgRunning (cmd : string) (args : list string)  (* 'Running: `cmd` args' *)
  | MsgError (err : JsError)                        (* the error object *)
  | MsgText (text : string)                         (* err.message *)
  | MsgHelp (dollar0 : JsVal)                       (* Try '$0 --help' ... *)
  | MsgNone.                                        (* no message argument *)

(** What a child process reports: an ['error'] event with node's error
    object, or a ['close'] event with the exit status ([None] is [null],
    a child ended by a signal). *)
Inductive ChildEvent :=
  | EvError (err : JsError)
  | EvClose (code : option Z).

(** The observable events of a run, in the order they happen.  [EDone k r]
    marks the invocation of the completion callback for the [k]-th child
    with argument [r]. *)
Inductive Event :=
  | ELog (level : LogLevel) (prefix : string) (msg : LogMsg)
  | EGlob (pattern : option string) (opts : GlobOpts)
  | ESpawn (k : nat) (cmd : string) (args : list string) (verbatim : bool)
  | EDone (k : nat) (result : option JsError)
  | EExit (code : Z).

#[global] Instance LogMsg_eq_dec : EqDecision LogMsg.
Proof. solve_decision. Defined.
#[global] Instance Event_eq_dec : EqDecision Event.
Proof. solve_decision. Defined.

(** The mutable state outside the program's own variables: the global
    [npmlog.level], the events so far, and the number of children
    spawned so far. *)
Record World := mkWorld {
  npmlog_level : LogLevel;
  trace : list Event;
  spawned : nat
}.

(** ** A state monad over the world *)

Definition M (A : Type) : Type := World -> A * World.

Definition ret {A} (a : A) : M A := fun w => (a, w).

Definition bind {A B} (m : M A) (f : A -> M B) : M B :=
  fun w => let '(a, w') := m w in f a w'.

Declare Scope m_scope.
Delimit Scope m_scope with M.
Notation "x <- c1 ;; c2" := (bind c1 (fun x => c2))
  (at level 100, c1 at next level, right associativity) : m_scope.
Notation "c1 ;; c2" := (bind c1 (fun _ => c2))
  (at level 100, right associativity) : m_scope.
Local Open Scope m_scope.

Definition tell (e : Event) : M unit :=
  fun w => (tt, mkWorld (npmlog_level w) (trace w ++ [e]) (spawned w)).

Definition set_level (l : LogLevel) : M unit :=
  fun w => (tt, mkWorld l (trace w) (spawned w)).

Definition get_level : M LogLevel := fun w => (npmlog_level w, w).

(** [npmlog.log(level, prefix, msg)] *)
Definition npmlog_log (l : LogLevel) (prefix : string) (msg : LogMsg) : M unit :=
  fun w => if shown l (npmlog_level w) then tell (ELog l prefix msg) w else (tt, w).

(** [exit(code)], the second argument of [main]. *)
Definition exit (code : Z) : M unit := tell (EExit code).

(** The world a computation leaves, and the value it returns. *)
Definition exec {A} (m : M A) (w : World) : World := snd (m w).
Definition eval {A} (m : M A) (w : World) : A := fst (m w).

(** ** Array helpers *)

(** [Array.prototype.findIndex]: [None] stands for [-1]. *)
Fixpoint findIndex {A} (p : A -> bool) (l : list A) : option nat :=
  match l with
  | [] => None
  | x :: l' => if p x then Some 0%nat else S <$> findIndex p l'
  end.

(** [l[i]] for the result of [findIndex]: [l[-1]] is [undefined]. *)
Definition index (l : list string) (i : option nat) : option string :=
  i ≫= (l !!.).

(** [l[i] = v] for the result of [findIndex].  [l[-1] = v] adds a property
    named ["-1"] and leaves the elements of the array alone. *)
Definition assign (l : list string) (i : option nat) (v : string) : list string :=
  match i with
  | Some i => <[i := v]> l
  | None => l
  end.

(** [prev + b] for a boolean [b]: [true] counts as 1, [false] as 0. *)
Definition bool_num (b : bool) : Z := if b then 1 else 0.

(** ** The command line, as yargs hands it over *)

(** The options declared to yargs, with the types yargs gives them, the
    script name yargs stores under [$0], and every other option found on
    the command line ([y_other], keyed by option name).  A boolean or
    array option that is not on the command line is absent from the
    object yargs returns ([None]); [--no-nodir] and the like give
    [false]. *)
Record YargsFlags := mkFlags {
  y_nodir : option bool;            (* nodir: boolean *)
  y_ignore : option (list string);  (* i, ignore: array *)
  y_node_flag : option bool;        (* n, node: boolean *)
  y_verbose : nat;                  (* v, verbose: count *)
  y_each_flag : option bool;        (* e, each: boolean *)
  y_dollar0 : string;               (* $0 *)
  y_other : gmap string JsVal
}.

(** [args.node] and [args.each] read as conditions: an absent option
    reads as [undefined], which is falsy. *)
Definition y_node (f : YargsFlags) : bool := default false (y_node_flag f).

Definition y_each (f : YargsFlags) : bool := default false (y_each_flag f).

(** A boolean option in the object of yargs: under its key when it is
    on the command line, and no such key otherwise. *)
Definition boolean (key : string) (v : option bool) (o : gmap string JsVal)
  : gmap string JsVal :=
  match v with
  | Some b => <[key := VBool b]> o
  | None => delete key o
  end.

(** The outcome of [yargs.parse]: the positional arguments [_] and the
    flags, and whether the [fail] handler ran.  As [demand(1)] makes the
    parse fail without a COMMAND, a parse that did not fail has one. *)
Inductive YargsResult :=
  | YargsFail (msg : string) (positional : list string) (flags : YargsFlags)
  | YargsOk (command : string) (rest : list string) (flags : YargsFlags).

Definition yargs_flags (r : YargsResult) : YargsFlags :=
  match r with YargsFail _ _ f => f | YargsOk _ _ f => f end.

Definition yargs_positional (r : YargsResult) : list string :=
  match r with YargsFail _ p _ => p | YargsOk c rest _ => c :: rest end.

(** The object [yargs.parse] returns: the positional arguments, the
    script name, the count of [-v], and every declared option that is on
    the command line under its name and its alias. *)
Definition yargs_object (r : YargsResult) : gmap string JsVal :=
  let f := yargs_flags r in
  let ignore : gmap string JsVal -> gmap string JsVal :=
    match y_ignore f with
    | Some l => fun o => <["i" := VArr l]> (<["ignore" := VArr l]> o)
    | None => fun o => o
    end in
  <["_" := VArr (yargs_positional r)]> (
  <["$0" := VStr (y_dollar0 f)]> (
  boolean "nodir" (y_nodir f) (
  boolean "n" (y_node_flag f) (boolean "node" (y_node_flag f) (
  <["v" := VNum (Z.of_nat (y_verbose f))]> (
  <["verbose" := VNum (Z.of_nat (y_verbose f))]> (
  boolean "e" (y_each_flag f) (boolean "each" (y_each_flag f) (
  ignore (y_other f)))))))))).

(** The same parse with the count of [-v] flags set to [v]. *)
Definition set_verbose (v : nat) (f : YargsFlags) : YargsFlags :=
  mkFlags (y_nodir f) (y_ignore f) (y_node_flag f) v (y_each_flag f)
          (y_dollar0 f) (y_other f).

Definition with_verbose (v : nat) (r : YargsResult) : YargsResult :=
  match r with
  | YargsFail msg p f => YargsFail msg p (set_verbose v f)
  | YargsOk c rest f => YargsOk c rest (set_verbose v f)
  end.

(** The value of a count option as a number. *)
Definition number (v : JsVal) : Z :=
  match v with VNum n => n | _ => 0 end.

(** [x || []] for an array option. *)
Definition array_or_empty (v : JsVal) : list string :=
  match v with VArr l => l | _ => [] end.

(** [['info', 'verbose', 'silly'][v]] for the clamped count [v]. *)
Definition level_of (v : Z) : LogLevel :=
  match v with
  | 0 => Info
  | 1 => Verbose
  | _ => Silly
  end.

(** The filter [nonGlobFlag] of [parseArgv]: the keys it deletes. *)
Definition nonGlobFlag (opt : string) : bool :=
  if decide (opt = "$0") then true
  else if decide (opt = "verbose") then true
  else if decide (opt = "each") then true
  else if decide (opt = "node") then true
  else Nat.eqb (String.length opt) 1.

(** What [parseArgv] returns when the parse did not fail. *)
Record Argv := mkArgv {
  logLevel : LogLevel;
  each : JsVal;
  cmd : string;
  args : list string;
  dollar0 : JsVal;
  globOpts : GlobOpts
}.

(** The result of [parseArgv]: the error object (which carries [$0] too)
    or the record above. *)
Inductive ParseResult :=
  | ParseError (err : JsError) (dollar0 : JsVal)
  | ParseOk (argv : Argv).

(** A double quote, as a string. *)
Definition dquote : string := String (Ascii.ascii_of_nat 34) EmptyString.

(** ** The pattern expander of the specification *)

(** Modelled from the spec: the glob-matching engine is the npm package
    [glob], which is not among the sources.  Section 4.1 describes what
    an expansion returns, from a test [hasMagic] for glob metacharacters
    and the list [matches pattern opts] of the filesystem entries that
    match: a token without metacharacters expands to itself, a pattern
    without matches to itself too, any other pattern to its matches. *)
Definition expand (hasMagic : string -> bool)
  (matches : string -> GlobOpts -> list string)
  (pattern : string) (opts : GlobOpts) : list string :=
  if hasMagic pattern then
    match matches pattern opts with
    | [] => [pattern]
    | found => found
    end
  else [pattern].

(** ** A sample environment *)

Fixpoint has_char (p : Ascii.ascii -> bool) (s : string) : bool :=
  match s with
  | EmptyString => false
  | String c s' => p c || has_char p s'
  end.

Definition one_of (chars : string) (c : Ascii.ascii) : bool :=
  has_char (Ascii.eqb c) chars.

Definition starts_with_bang (s : string) : bool :=
  match s with
  | String c _ => Ascii.eqb c (Ascii.ascii_of_nat 33)
  | EmptyString => false
  end.

(** A stand-in for is-glob on tokens without a backslash or an extglob.
    Relaxed, is-glob accepts a leading [!] and any of the characters
    [* ? { } ( ) [ ]].  Strict, it accepts a leading [!] and a [*], and
    further a [?] after one of [] . + )], closed brackets, braces and
    groups, which the stand-in leaves out: none of the tokens used below
    has them.  The README of is-glob lists [isGlob('abc/?.js')] as
    [false]. *)
Definition sample_isGlob (s : string) (strict : bool) : bool :=
  starts_with_bang s ||
  (if strict then has_char (one_of "*") s
   else has_char (one_of "*?{}()[]") s).

Definition sample_hasMagic (s : string) : bool := sample_isGlob s false.

(** A directory with the two files [src/a.js] and [src/b.js]. *)
Definition sample_matches (pattern : string) (opts : GlobOpts) : list string :=
  if decide (pattern = "src/**/*.js") then ["src/a.js"; "src/b.js"] else [].

Definition sample_glob (pattern : string) (opts : GlobOpts) : list string :=
  if truthy (prop opts "nonull")
  then expand sample_hasMagic sample_matches pattern opts
  else sample_matches pattern opts.

(** [glob.sync] without a pattern throws. *)
Definition sample_glob_undefined (opts : GlobOpts) : JsError + list string :=
  inl (mkError "Error" "must provide pattern" None).

(** The first child exits with 0, the second with 3, the others with 0. *)
Definition sample_child (k : nat) : list ChildEvent :=
  match k with
  | 1%nat => [EvClose (Some 3)]
  | _ => [EvClose (Some 0)]
  end.

(** Children that cannot be started: node emits ['error'], then
    ['close']. *)
Definition missing_child (k : nat) : list ChildEvent :=
  [EvError (mkError "Error" "spawn ENOENT" None); EvClose (Some (-2))].

(** A command line with [-e] or without it, and with [verbose] times
    [-v]. *)
Definition sample_flags (each : bool) (verbose : nat) : YargsFlags :=
  mkFlags None None None verbose (if each then Some true else None)
          "globstar" ∅.

(** Modelled from the spec: section 4.1 ends with "Paths excluded by any
    ignorePatterns entry are removed from the result".  The stand-in
    removes the paths an [ignore] entry names from what [sample_glob]
    returns, the literal of an unmatched pattern included (an entry
    without metacharacters excludes the path equal to it). *)
Definition ignoring_glob (pattern : string) (opts : GlobOpts) : list string :=
  List.filter
    (fun path =>
       negb (existsb (String.eqb path) (array_or_empty (prop opts "ignore"))))
    (sample_glob pattern opts).

(** A stand-in for the call of [glob.sync] with its effects: it throws
    when the pattern is missing or empty, before it touches the option
    object, and otherwise writes three options of its own to the object
    and returns what [sample_glob] returns. *)
Definition sample_glob_fx (pattern : option string) (opts : GlobOpts)
  : (JsError + list string) * GlobOpts :=
  match pattern with
  | None | Some EmptyString =>
      (inl (mkError "Error" "must provide pattern" None), opts)
  | Some p =>
      (inr (sample_glob p opts),
       <["allowWindowsEscape" := VBool true]>
         (<["nocomment" := VBool true]> (<["nonegate" := VBool true]> opts)))
  end.


Section Globstar.

(** [isGlob(str, {strict: s})] of the is-glob package; [isGlob(str)] is
    [isGlob str true]. *)
Variable isGlob : string -> bool -> bool.

(** [glob.sync(pattern, opts)] of the glob package on a string pattern. *)
Variable glob : string -> GlobOpts -> list string.

(** [glob.sync(undefined, opts)]: what the package does when the pattern
    is not a string (it may throw). *)
Variable glob_undefined : GlobOpts -> JsError + list string.

(** [process.platform === 'win32'] *)
Variable win32 : bool.

(** The events the [k]-th spawned child emits, in order. *)
Variable child : nat -> list ChildEvent.

(** [packageJson.version] *)
Variable version : string.

(** [path.relative(process.cwd(), __filename)] *)
Variable script_path : string.

(** ** Configuration *)

(** [parseArgv(argv)], after the call of yargs.  For a parse that did not
    fail [args._] is [command :: rest], so [args._[0]] is [command] and
    [args._.slice(1)] is [rest]. *)
Definition parseArgv (r : YargsResult) : M ParseResult :=
  let args := yargs_object r in
  (* set defaults: objectAssign copies [args] over the defaults *)
  let args :=
    args ∪ {[ "_" := VArr []; "$0" := VStr script_path; "verbose" := VNum 0 ]} in
  (* translate args *)
  let verbose := 2 - Z.max (2 - number (prop args "verbose")) 0 in
  let args := <["verbose" := VNum verbose]> args in
  set_level (level_of verbose) ;;
  let args :=
    if truthy (prop args "node")
    then <["ignore" :=
             VArr (array_or_empty (prop args "ignore") ++ ["**/node_modules/**"])]>
           args
    else args in
  (* setup result *)
  let globOpts := filter (fun kv => nonGlobFlag kv.1 = false) args in
  ret match r with
      | YargsFail msg _ _ =>
          ParseError (mkError "YargsError" msg None) (prop args "$0")
      | YargsOk command rest _ =>
          ParseOk (mkArgv (level_of verbose) (prop args "each") command rest
                  (prop args "$0") globOpts)
      end.

(** ** Argument builders *)

Definition glob_sync (pattern : string) (opts : GlobOpts) : M (list string) :=
  tell (EGlob (Some pattern) opts) ;; ret (glob pattern opts).

Definition glob_sync_any (pattern : option string) (opts : GlobOpts)
  : M (JsError + list string) :=
  match pattern with
  | Some p => values <- glob_sync p opts ;; ret (inr values)
  | None => tell (EGlob None opts) ;; ret (glob_undefined opts)
  end.

(** [args.map(f)] with an effectful [f], left to right. *)
Fixpoint mapM {A B} (f : A -> M B) (l : list A) : M (list B) :=
  match l with
  | [] => ret []
  | x :: l' => y <- f x ;; ys <- mapM f l' ;; ret (y :: ys)
  end.

(** [globArgs(args, globOpts)].  The function writes to [globOpts]: the
    second component of the result is the object after the call. *)
Definition globArgs (args : list string) (globOpts : GlobOpts)
  : M (list string * GlobOpts) :=
  let globOpts := <["nonull" := VBool true]> globOpts in
  npmlog_log Silly "globstar" (MsgOpts globOpts) ;;
  expanded <- mapM (fun arg => glob_sync arg globOpts) args ;;
  ret (fold_left (fun previous current => previous ++ current) expanded [],
       globOpts).

Definition multiple_globs : JsError :=
  mkError "Error" "each cannot accept multiple globs" None.

(** [globArgsEach(args, globOpts)]: [inl err] is [throw err]. *)
Definition globArgsEach (args : list string) (globOpts : GlobOpts)
  : M ((JsError + list (list string)) * GlobOpts) :=
  let globOpts := <["nonull" := VBool true]> globOpts in
  npmlog_log Silly "globstar" (MsgOpts globOpts) ;;
  let globCount :=
    fold_left (fun prev curr => prev + bool_num (isGlob curr false)) args 0 in
  if 1 <? globCount then ret (inl multiple_globs, globOpts)
  else if globCount <=? 0 then ret (inr [args], globOpts)
  else
    let globIndex := findIndex (fun arg => isGlob arg true) args in
    globValues <- glob_sync_any (index args globIndex) globOpts ;;
    match globValues with
    | inl err => ret (inl err, globOpts)
    | inr globValues =>
        ret (inr (map (fun value => assign args globIndex value) globValues),
             globOpts)
    end.

(** ** Process runner *)

(** [onetime(cb)]: [called] tells whether the wrapper ran before.  The
    call that goes through to [cb] is recorded as [EDone k], [k] being
    the child the callback belongs to. *)
Definition onetime (k : nat) (cb : option JsError -> M unit) (called : bool)
  : option JsError -> M unit :=
  fun result => if called then ret tt else (tell (EDone k result) ;; cb result).

(** The ['close'] handler [onClose(status)]. *)
Definition onClose (cb : option JsError -> M unit) (status : option Z) : M unit :=
  if truthy (from_option VNum VUndef status)
  then cb (Some (mkError "SpawnError"
                         ("Exit status " +:+ from_option pretty "null" status)
                         status))
  else cb None.

(** The events of the child reach the two handlers one after the other;
    every handler calls the wrapped callback once, so the wrapper has
    run when the next event arrives. *)
Fixpoint dispatch (k : nat) (events : list ChildEvent) (called : bool)
  (cb : option JsError -> M unit) : M unit :=
  match events with
  | [] => ret tt
  | ev :: rest =>
      match ev with
      | EvError err => onetime k cb called (Some err)
      | EvClose status => onClose (onetime k cb called) status
      end ;;
      dispatch k rest true cb
  end.

(** [spawn(cmd, args, opts)]: the child gets the next number. *)
Definition spawn (cmd : string) (args : list string) (verbatim : bool) : M nat :=
  fun w =>
    (spawned w,
     mkWorld (npmlog_level w)
             (trace w ++ [ESpawn (spawned w) cmd args verbatim])
             (S (spawned w))).

(** The command line that reaches [spawn]: wrapped for [cmd] on win32. *)
Definition command_line (cmd : string) (args : list string)
  : string * list string * bool :=
  if win32
  then ("cmd", ["/c"; dquote +:+ cmd +:+ dquote] ++ args, true)
  else (cmd, args, false).

(** [spawnCommand(cmd, args, cb)] *)
Definition spawnCommand (cmd : string) (args : list string)
  (cb : option JsError -> M unit) : M unit :=
  let '(cmd, args, verbatim) := command_line cmd args in
  npmlog_log Verbose "globstar" (MsgRunning cmd args) ;;
  k <- spawn cmd args verbatim ;;
  dispatch k (child k) false cb.

(** ** Orchestrator *)

(** [err.status || 1] *)
Definition status_or_1 (err : JsError) : Z :=
  match status err with
  | Some s => if s =? 0 then 1 else s
  | None => 1
  end.

(** The function [errorHandler(err)] inside [main]; [dollar0] is the
    [argv.$0] it reads. *)
Definition errorHandler (dollar0 : JsVal) (err : option JsError) : M unit :=
  match err with
  | Some err =>
      (if negb (String.eqb (name err) "SpawnError") then
         level <- get_level ;;
         (if decide (level = Silly)
          then npmlog_log Error "globstar" (MsgError err)
          else npmlog_log Error "globstar" (MsgText (message err))) ;;
         npmlog_log Info "globstar" (MsgHelp dollar0) ;;
         npmlog_log Verbose ("globstar@" +:+ version) MsgNone
       else ret tt) ;;
      exit (status_or_1 err)
  | None => exit 0
  end.

(** The loop of [mainEach]: [await] hands the rest of the loop to the
    promise, which runs it when the callback resolves and throws to the
    [catch] when it rejects. *)
Fixpoint forAwait (cmd : string) (values : list (list string))
  (errorHandler : option JsError -> M unit) : M unit :=
  match values with
  | [] => ret tt
  | value :: rest =>
      spawnCommand cmd value (fun err =>
        match err with
        | Some err => errorHandler (Some err)
        | None => forAwait cmd rest errorHandler
        end)
  end.

(** [mainEach(argv, errorHandler)] *)
Definition mainEach (argv : Argv) (errorHandler : option JsError -> M unit)
  : M unit :=
  r <- globArgsEach (args argv) (globOpts argv) ;;
  match r.1 with
  | inl err => errorHandler (Some err)
  | inr values => forAwait (cmd argv) values errorHandler
  end.

(** [main(argv, exit)] *)
Definition main (r : YargsResult) : M unit :=
  argv <- parseArgv r ;;
  match argv with
  | ParseError err dollar0 => errorHandler dollar0 (Some err)
  | ParseOk argv =>
      if truthy (each argv) then mainEach argv (errorHandler (dollar0 argv))
      else
        r <- globArgs (args argv) (globOpts argv) ;;
        spawnCommand (cmd argv) r.1 (errorHandler (dollar0 argv))
  end.

(** ** Reading a run *)

(** The state before [main] runs: npmlog starts at level [info]. *)
Definition initial : World := mkWorld Info [] 0.

(** [run r] is the world after [main] ran on the parse [r]. *)
Definition run (r : YargsResult) : World := exec (main r) initial.

(** Everything but the log records. *)
Definition is_log (e : Event) : bool :=
  match e with ELog _ _ _ => true | _ => false end.

Definition actions (t : list Event) : list Event :=
  List.filter (fun e => negb (is_log e)) t.

(** The arguments of the calls of [exit], in order. *)
Definition exit_calls (t : list Event) : list Z :=
  omap (fun e => match e with EExit c => Some c | _ => None end) t.

(** The exit code of the node process once it has ended: the argument
    of the first call of [exit] (the program is started with
    [process.exit] for it), and 0 when the program ends without calling
    it. *)
Definition process_exit_code (t : list Event) : Z :=
  default 0 (head (exit_calls t)).

(** The tokens that [globArgsEach] counts as globs. *)
Definition glob_tokens (args : list string) : list string :=
  List.filter (fun a => isGlob a false) args.

(** What the two handlers of [spawnCommand] hand to the callback for an
    event of the child. *)
Definition result_of (ev : ChildEvent) : option JsError :=
  match ev with
  | EvError err => Some err
  | EvClose None => None
  | EvClose (Some s) =>
      if s =? 0 then None
      else Some (mkError "SpawnError" ("Exit status " +:+ pretty s) (Some s))
  end.

(** The exit code [errorHandler] passes to [exit]. *)
Definition exit_code_for (result : option JsError) : Z :=
  match result with
  | Some err => status_or_1 err
  | None => 0
  end.

(** The spawn of the [k]-th child, for [cmd] and the argument list
    [value]. *)
Definition spawn_event (k : nat) (cmd : string) (value : list string) : Event :=
  ESpawn k (command_line cmd value).1.1 (command_line cmd value).1.2
         (command_line cmd value).2.

(** The process events of running [cmd] on the argument lists [values]
    one after the other, the first child being the [k]-th: a child is
    spawned, its first event completes it, a failure ends the run with
    an exit, a success moves on to the next list, and [finish] happens
    after the last one. *)
Fixpoint schedule (k : nat) (cmd : string) (values : list (list string))
  (finish : list Event) : list Event :=
  match values with
  | [] => finish
  | value :: rest =>
      spawn_event k cmd value ::
      match child k with
      | [] => []
      | ev :: _ =>
          EDone k (result_of ev) ::
          match result_of ev with
          | Some err => [EExit (status_or_1 err)]
          | None => schedule (S k) cmd rest finish
          end
      end
  end.

(** The number of invocations of a completion callback in a trace. *)
Definition is_done (e : Event) : bool :=
  match e with EDone _ _ => true | _ => false end.

Definition done_count (t : list Event) : nat :=
  length (List.filter is_done t).

(** The object [args] of [parseArgv] once the defaults are set and the
    arguments translated (the state before the result is set up). *)
Definition translated (r : YargsResult) : gmap string JsVal :=
  let args := yargs_object r in
  let args :=
    args ∪ {[ "_" := VArr []; "$0" := VStr script_path; "verbose" := VNum 0 ]} in
  let verbose := 2 - Z.max (2 - number (prop args "verbose")) 0 in
  let args := <["verbose" := VNum verbose]> args in
  if truthy (prop args "node")
  then <["ignore" :=
           VArr (array_or_empty (prop args "ignore") ++ ["**/node_modules/**"])]>
         args
  else args.

(** What [globArgsEach] returns and which call of [glob] it makes,
    by the number of tokens it counts as globs. *)
Definition each_result (args : list string) (opts : GlobOpts)
  : JsError + list (list string) :=
  let opts' := <["nonull" := VBool true]> opts in
  let i := findIndex (fun arg => isGlob arg true) args in
  match length (glob_tokens args) with
  | 0%nat => inr [args]
  | 1%nat =>
      match index args i with
      | Some p => inr (map (fun value => assign args i value) (glob p opts'))
      | None =>
          match glob_undefined opts' with
          | inl err => inl err
          | inr values => inr (map (fun value => assign args i value) values)
          end
      end
  | _ => inl multiple_globs
  end.

Definition each_globs (args : list string) (opts : GlobOpts) : list Event :=
  match length (glob_tokens args) with
  | 1%nat => [EGlob (index args (findIndex (fun arg => isGlob arg true) args))
                    (<["nonull" := VBool true]> opts)]
  | _ => []
  end.

(** The calls of [glob] are the only actions of the argument builders. *)
Definition is_glob_call (e : Event) : bool :=
  match e with EGlob _ _ => true | _ => false end.

(** What [parseArgv] returns for a parse. *)
Definition parsed (r : YargsResult) : ParseResult := eval (parseArgv r) initial.

(** The argument lists the run is to spawn the command with, or the
    error that ends it before: the error of the parse, what
    [globArgsEach] returns or throws in each mode, and the one list
    [globArgs] returns in bulk mode. *)
Definition invocations (r : YargsResult) : JsError + list (list string) :=
  match parsed r with
  | ParseError err _ => inl err
  | ParseOk a =>
      if truthy (each a)
      then (eval (globArgsEach (args a) (globOpts a)) initial).1
      else inr [(eval (globArgs (args a) (globOpts a)) initial).1]
  end.

(** The calls of [glob] the argument builder makes. *)
Definition expansions (r : YargsResult) : list Event :=
  match parsed r with
  | ParseError _ _ => []
  | ParseOk a =>
      if truthy (each a)
      then actions (trace (exec (globArgsEach (args a) (globOpts a)) initial))
      else actions (trace (exec (globArgs (args a) (globOpts a)) initial))
  end.

(** What follows the last successful child: [mainEach] ends without a
    word, the callback of bulk mode calls [exit(0)]. *)
Definition finish (r : YargsResult) : list Event :=
  match parsed r with
  | ParseError _ _ => []
  | ParseOk a => if truthy (each a) then [] else [EExit 0]
  end.

Definition command (r : YargsResult) : string :=
  match r with
  | YargsFail _ _ _ => EmptyString
  | YargsOk c _ _ => c
  end.

(** The process events of children that all end well, one after the
    other from the [k]-th on. *)
Fixpoint completed (k : nat) (cmd : string) (values : list (list string))
  : list Event :=
  match values with
  | [] => []
  | value :: rest =>
      spawn_event k cmd value :: EDone k None :: completed (S k) cmd rest
  end.

(** The events about child processes and the exit. *)
Definition is_process (e : Event) : bool :=
  match e with
  | ESpawn _ _ _ _ | EDone _ _ | EExit _ => true
  | _ => false
  end.

Definition processes (t : list Event) : list Event := List.filter is_process t.

(** [emits m w a acts]: from the world [w], [m] returns [a] and adds the
    actions [acts], and maybe log records, to the trace. *)
Definition emits {A} (m : M A) (w : World) (a : A) (acts : list Event) : Prop :=
  eval m w = a /\ actions (trace (exec m w)) = actions (trace w) ++ acts.

(** The spawns and the calls of [glob] in a trace. *)
Definition is_spawn (e : Event) : bool :=
  match e with ESpawn _ _ _ _ => true | _ => false end.

Definition spawns (t : list Event) : list Event := List.filter is_spawn t.

Definition glob_calls (t : list Event) : list Event :=
  List.filter is_glob_call t.


(** ** Reading the log *)

(** The level [parseArgv] sets for a parse. *)
Definition verbosity (r : YargsResult) : LogLevel :=
  match y_verbose (yargs_flags r) with
  | 0%nat => Info
  | 1%nat => Verbose
  | _ => Silly
  end.

(** What [npmlog.log(l, prefix, msg)] writes when [npmlog.level] is
    [level]. *)
Definition record (level l : LogLevel) (prefix : string) (msg : LogMsg)
  : list Event :=
  if shown l level then [ELog l prefix msg] else [].

(** What [errorHandler(err)] writes and does at a level. *)
Definition error_report (level : LogLevel) (dollar0 : JsVal) (err : JsError)
  : list Event :=
  (if negb (String.eqb (name err) "SpawnError") then
     record level Error "globstar"
       (if decide (level = Silly) then MsgError err else MsgText (message err))
     ++ record level Info "globstar" (MsgHelp dollar0)
     ++ record level Verbose ("globstar@" +:+ version) MsgNone
   else [])
  ++ [EExit (status_or_1 err)].

(** The record of the command line that goes before a spawn. *)
Definition running_record (level : LogLevel) (cmd : string)
  (value : list string) : list Event :=
  record level Verbose "globstar"
    (MsgRunning (command_line cmd value).1.1 (command_line cmd value).1.2).

(** The schedule with its log records, at a level. *)
Fixpoint logged_schedule (level : LogLevel) (dollar0 : JsVal) (k : nat)
  (cmd : string) (values : list (list string)) (finish : list Event)
  : list Event :=
  match values with
  | [] => finish
  | value :: rest =>
      running_record level cmd value ++
      spawn_event k cmd value ::
      match child k with
      | [] => []
      | ev :: _ =>
          EDone k (result_of ev) ::
          match result_of ev with
          | Some err => error_report level dollar0 err
          | None => logged_schedule level dollar0 (S k) cmd rest finish
          end
      end
  end.

(** [traces m w t]: from the world [w], [m] adds exactly the events [t]
    to the trace and leaves [npmlog.level] as it is. *)
Definition traces {A} (m : M A) (w : World) (t : list Event) : Prop :=
  npmlog_level (exec m w) = npmlog_level w
  /\ trace (exec m w) = trace w ++ t.

(** The log records about command lines, and the spawn after each. *)
Definition is_running (e : Event) : bool :=
  match e with ELog Verbose _ (MsgRunning _ _) => true | _ => false end.

Definition running_of (e : Event) : Event :=
  match e with
  | ESpawn _ c a _ => ELog Verbose "globstar" (MsgRunning c a)
  | _ => e
  end.


(** A record of a command line, or a spawn. *)
Definition run_or_spawn (e : Event) : bool := is_running e || is_spawn e.

(** The record of the option object. *)
Definition is_options_record (e : Event) : bool :=
  match e with ELog _ _ (MsgOpts _) => true | _ => false end.


(** ** The glob package as it is called *)

(** The argument builders above take [glob.sync] as the specification
    does: a function from a pattern and options to a list of paths.
    The call does more than that.  It throws for some patterns (the
    empty string, a pattern that is not a string), and it gets the
    option object by reference and may write to it.  [glob_fx pattern
    opts] is what the call returns or throws, and the option object
    after the call. *)
Variable glob_fx :
  option string -> GlobOpts -> (JsError + list string) * GlobOpts.

Definition glob_sync_fx (pattern : option string) (opts : GlobOpts)
  : M ((JsError + list string) * GlobOpts) :=
  tell (EGlob pattern opts) ;; ret (glob_fx pattern opts).

(** [args.map(globArg)]: the calls are made left to right on the one
    option object, and a call that throws ends the map. *)
Fixpoint map_globArg (args : list string) (globOpts : GlobOpts)
  : M ((JsError + list (list string)) * GlobOpts) :=
  match args with
  | [] => ret (inr [], globOpts)
  | arg :: rest =>
      current <- glob_sync_fx (Some arg) globOpts ;;
      match current.1 with
      | inl err => ret (inl err, current.2)
      | inr paths =>
          others <- map_globArg rest current.2 ;;
          ret (match others.1 with
               | inl err => inl err
               | inr lists => inr (paths :: lists)
               end, others.2)
      end
  end.

(** [globArgs(args, globOpts)]: [inl err] is [throw err], and the second
    component is the option object after the call. *)
Definition globArgs_fx (args : list string) (globOpts : GlobOpts)
  : M ((JsError + list string) * GlobOpts) :=
  let globOpts := <["nonull" := VBool true]> globOpts in
  npmlog_log Silly "globstar" (MsgOpts globOpts) ;;
  expanded <- map_globArg args globOpts ;;
  ret (match expanded.1 with
       | inl err => inl err
       | inr lists =>
           inr (fold_left (fun previous current => previous ++ current)
                          lists [])
       end, expanded.2).

(** [globArgsEach(args, globOpts)] *)
Definition globArgsEach_fx (args : list string) (globOpts : GlobOpts)
  : M ((JsError + list (list string)) * GlobOpts) :=
  let globOpts := <["nonull" := VBool true]> globOpts in
  npmlog_log Silly "globstar" (MsgOpts globOpts) ;;
  let globCount :=
    fold_left (fun prev curr => prev + bool_num (isGlob curr false)) args 0 in
  if 1 <? globCount then ret (inl multiple_globs, globOpts)
  else if globCount <=? 0 then ret (inr [args], globOpts)
  else
    let globIndex := findIndex (fun arg => isGlob arg true) args in
    globValues <- glob_sync_fx (index args globIndex) globOpts ;;
    ret (match globValues.1 with
         | inl err => inl err
         | inr globValues =>
             inr (map (fun value => assign args globIndex value) globValues)
         end, globValues.2).

(** [mainEach(argv, errorHandler)]: what [globArgsEach] throws is
    caught. *)
Definition mainEach_fx (argv : Argv) (errorHandler : option JsError -> M unit)
  : M unit :=
  r <- globArgsEach_fx (args argv) (globOpts argv) ;;
  match r.1 with
  | inl err => errorHandler (Some err)
  | inr values => forAwait (cmd argv) values errorHandler
  end.

(** [main(argv, exit)].  The call of [globArgs] is not inside a [try]:
    what it throws leaves [main], and [Some err] is returned for it. *)
Definition main_fx (r : YargsResult) : M (option JsError) :=
  argv <- parseArgv r ;;
  match argv with
  | ParseError err dollar0 => errorHandler dollar0 (Some err) ;; ret None
  | ParseOk argv =>
      if truthy (each argv)
      then mainEach_fx argv (errorHandler (dollar0 argv)) ;; ret None
      else
        r <- globArgs_fx (args argv) (globOpts argv) ;;
        match r.1 with
        | inl err => ret (Some err)
        | inr values =>
            spawnCommand (cmd argv) values (errorHandler (dollar0 argv)) ;;
            ret None
        end
  end.

(** The world after [main] ran, and the error that left it. *)
Definition run_fx (r : YargsResult) : World := exec (main_fx r) initial.

Definition thrown (r : YargsResult) : option JsError := eval (main_fx r) initial.

(** What the calls of [glob] for the tokens in turn return, the first
    on the object [opts] and every other on the object as the call
    before it left it: the lists of paths, or the error of the first
    call that throws; and the option object after the last call. *)
Fixpoint answers (args : list string) (opts : GlobOpts)
  : (JsError + list (list string)) * GlobOpts :=
  match args with
  | [] => (inr [], opts)
  | arg :: rest =>
      match (glob_fx (Some arg) opts).1 with
      | inl err => (inl err, (glob_fx (Some arg) opts).2)
      | inr paths =>
          (match (answers rest (glob_fx (Some arg) opts).2).1 with
           | inl err => inl err
           | inr lists => inr (paths :: lists)
           end, (answers rest (glob_fx (Some arg) opts).2).2)
      end
  end.

(** The calls themselves: a call that throws is the last. *)
Fixpoint handed_on (patterns : list (option string)) (opts : GlobOpts)
  : list Event :=
  match patterns with
  | [] => []
  | pattern :: rest =>
      EGlob pattern opts ::
      match (glob_fx pattern opts).1 with
      | inl _ => []
      | inr _ => handed_on rest (glob_fx pattern opts).2
      end
  end.

(** The patterns a run asks [glob] for, as long as no call throws:
    every token in bulk mode, and in each mode the token at the index
    of the glob when one token counts as a glob. *)
Definition patterns (r : YargsResult) : list (option string) :=
  match parsed r with
  | ParseError _ _ => []
  | ParseOk a =>
      if truthy (each a)
      then match length (glob_tokens (args a)) with
           | 1%nat =>
               [index (args a) (findIndex (fun arg => isGlob arg true) (args a))]
           | _ => []
           end
      else map Some (args a)
  end.

(** How the argument builder of a run ends: with the argument lists to
    run the command on, with an error that [errorHandler] gets (a
    failed parse, an error thrown in each mode), or with an error that
    leaves [main] (thrown in bulk mode). *)
Inductive Built :=
  | Lists (values : list (list string))
  | Handled (err : JsError)
  | Uncaught (err : JsError).

Definition built (r : YargsResult) : Built :=
  match parsed r with
  | ParseError err _ => Handled err
  | ParseOk a =>
      let opts := <["nonull" := VBool true]> (globOpts a) in
      if truthy (each a)
      then match length (glob_tokens (args a)) with
           | 0%nat => Lists [args a]
           | 1%nat =>
               let i := findIndex (fun arg => isGlob arg true) (args a) in
               match (glob_fx (index (args a) i) opts).1 with
               | inl err => Handled err
               | inr values =>
                   Lists (map (fun value => assign (args a) i value) values)
               end
           | _ => Handled multiple_globs
           end
      else match (answers (args a) opts).1 with
           | inl err => Uncaught err
           | inr lists => Lists [concat lists]
           end
  end.


(** The calls of [glob] of a run. *)
Definition expansions_fx (r : YargsResult) : list Event :=
  match parsed r with
  | ParseError _ _ => []
  | ParseOk a => handed_on (patterns r) (<["nonull" := VBool true]> (globOpts a))
  end.

(** The events about child processes and the exit of a run. *)
Definition outcome (r : YargsResult) : list Event :=
  match built r with
  | Lists values => schedule 0 (command r) values (finish r)
  | Handled err => [EExit (status_or_1 err)]
  | Uncaught _ => []
  end.


(** * Properties *)

(** ** The monad *)

Lemma bind_unfold {A B} (m : M A) (f : A -> M B) (w : World) :
  bind m f w = f (eval m w) (exec m w).
Proof. unfold bind, eval, exec. by destruct (m w). Qed.

Lemma eval_bind {A B} (m : M A) (f : A -> M B) (w : World) :
  eval (bind m f) w = eval (f (eval m w)) (exec m w).
Proof. unfold eval at 1. by rewrite bind_unfold. Qed.

Lemma exec_bind {A B} (m : M A) (f : A -> M B) (w : World) :
  exec (bind m f) w = exec (f (eval m w)) (exec m w).
Proof. unfold exec at 1. by rewrite bind_unfold. Qed.

Lemma actions_app (t1 t2 : list Event) :
  actions (t1 ++ t2) = actions t1 ++ actions t2.
Proof. apply List.filter_app. Qed.

Lemma emits_ret {A} (a : A) (w : World) : emits (ret a) w a [].
Proof. split; [done|]. cbn. by rewrite app_nil_r. Qed.

Lemma emits_bind {A B} (m : M A) (f : A -> M B) w a b acts1 acts2 :
  emits m w a acts1 ->
  emits (f a) (exec m w) b acts2 ->
  emits (bind m f) w b (acts1 ++ acts2).
Proof.
  intros [Ha H1] [Hb H2]. split.
  - by rewrite eval_bind, Ha.
  - by rewrite exec_bind, Ha, H2, H1, app_assoc.
Qed.

Lemma emits_tell (e : Event) (w : World) :
  is_log e = false -> emits (tell e) w tt [e].
Proof.
  intros He. split; [done|]. cbn. rewrite actions_app. f_equal.
  cbn. by rewrite He.
Qed.

Lemma emits_log l prefix msg (w : World) :
  emits (npmlog_log l prefix msg) w tt [].
Proof.
  unfold emits, eval, exec, npmlog_log. destruct (shown _ _); cbn.
  - split; [done|]. rewrite actions_app. f_equal.
  - by rewrite app_nil_r.
Qed.

Lemma exec_log_level l prefix msg (w : World) :
  npmlog_level (exec (npmlog_log l prefix msg) w) = npmlog_level w.
Proof. unfold exec, npmlog_log. by destruct (shown _ _). Qed.

Lemma exec_log_spawned l prefix msg (w : World) :
  spawned (exec (npmlog_log l prefix msg) w) = spawned w.
Proof. unfold exec, npmlog_log. by destruct (shown _ _). Qed.

(** A log record adds no action: drop the outermost [npmlog_log] steps
    from a goal about the actions of a trace. *)
Ltac skip_logs :=
  repeat match goal with
  | |- context [actions (trace (exec (npmlog_log ?l ?p ?m) ?w))] =>
      let H := fresh in
      destruct (emits_log l p m w) as [_ H];
      rewrite app_nil_r in H; rewrite H; clear H
  end.

(** ** Bulk mode *)

Lemma fold_left_app_concat {A} (ls : list (list A)) (acc : list A) :
  fold_left (fun previous current => previous ++ current) ls acc
  = acc ++ concat ls.
Proof.
  revert acc. induction ls as [|l ls IH]; intros acc; simpl.
  - by rewrite app_nil_r.
  - by rewrite IH, app_assoc.
Qed.

Lemma mapM_glob_sync_eval (args : list string) (opts : GlobOpts) (w : World) :
  eval (mapM (fun arg => glob_sync arg opts) args) w
  = map (fun arg => glob arg opts) args.
Proof.
  revert w. induction args as [|a args IH]; intros w; [done|].
  unfold eval in *. cbn [mapM]. unfold bind at 1. cbn.
  unfold bind at 1.
  specialize (IH (mkWorld (npmlog_level w)
                          (trace w ++ [EGlob (Some a) opts]) (spawned w))).
  destruct (mapM _ args _) as [ys w'] eqn:E. cbn in *. by rewrite IH.
Qed.

Lemma globArgs_eval (args : list string) (opts : GlobOpts) (w : World) :
  eval (globArgs args opts) w
  = (concat (map (fun arg => glob arg (<["nonull" := VBool true]> opts)) args),
     <["nonull" := VBool true]> opts).
Proof.
  unfold eval, globArgs, bind, npmlog_log.
  destruct (shown _ _); cbn.
  - match goal with |- context [mapM ?f args ?w'] =>
      pose proof (mapM_glob_sync_eval args (<["nonull" := VBool true]> opts) w') as H;
      unfold eval in H; destruct (mapM f args w') as [ys w''] end.
    cbn in *. by rewrite H, fold_left_app_concat.
  - match goal with |- context [mapM ?f args ?w'] =>
      pose proof (mapM_glob_sync_eval args (<["nonull" := VBool true]> opts) w') as H;
      unfold eval in H; destruct (mapM f args w') as [ys w''] end.
    cbn in *. by rewrite H, fold_left_app_concat.
Qed.

(** C6.  In bulk mode the argument list built from the tokens is the
    concatenation, token by token and in the order of the tokens, of what
    [glob] returns for each token (under the options the builder passes
    on), so the matches of one token stay together and in their order;
    its length is the sum of the lengths of the expansions. *)
Theorem globArgs_concatenates (args : list string) (opts : GlobOpts) (w : World) :
  let expansion arg := glob arg (<["nonull" := VBool true]> opts) in
  (eval (globArgs args opts) w).1 = concat (map expansion args)
  /\ length (eval (globArgs args opts) w).1
     = sum_list (map (fun arg => length (expansion arg)) args).
Proof.
  intros expansion. rewrite globArgs_eval. cbn [fst]. split; [done|].
  induction args as [|a args IH]; [done|].
  cbn. by rewrite length_app, IH.
Qed.

Lemma globArgs_emits (args : list string) (opts : GlobOpts) (w : World) :
  emits (globArgs args opts) w
    (concat (map (fun arg => glob arg (<["nonull" := VBool true]> opts)) args),
     <["nonull" := VBool true]> opts)
    (map (fun arg => EGlob (Some arg) (<["nonull" := VBool true]> opts)) args).
Proof.
  split; [apply globArgs_eval|].
  unfold globArgs. rewrite exec_bind, exec_bind.
  destruct (emits_log Silly "globstar"
              (MsgOpts (<["nonull" := VBool true]> opts)) w) as [_ Hlog].
  rewrite app_nil_r in Hlog. rewrite <- Hlog.
  generalize (exec (npmlog_log Silly "globstar"
                      (MsgOpts (<["nonull" := VBool true]> opts))) w).
  clear Hlog. intros w'. cbn [exec ret snd].
  revert w'. induction args as [|a args IH]; intros w'.
  - cbn. by rewrite app_nil_r.
  - cbn [mapM map]. rewrite exec_bind, exec_bind. cbn [exec ret snd].
    rewrite IH. unfold glob_sync. rewrite exec_bind. cbn.
    rewrite actions_app. cbn. by rewrite <- app_assoc.
Qed.

Lemma globArgs_spawned (args : list string) (opts : GlobOpts) (w : World) :
  spawned (exec (globArgs args opts) w) = spawned w.
Proof.
  unfold globArgs. rewrite exec_bind, exec_bind. cbn [exec ret snd].
  rewrite <- (exec_log_spawned Silly "globstar"
                (MsgOpts (<["nonull" := VBool true]> opts)) w).
  generalize (exec (npmlog_log Silly "globstar"
                      (MsgOpts (<["nonull" := VBool true]> opts))) w).
  intros w'. revert w'. induction args as [|a args IH]; intros w'; [done|].
  cbn [mapM]. rewrite exec_bind, exec_bind. cbn [exec ret snd].
  by rewrite IH.
Qed.

(** ** Each mode: the argument builder *)

(** The count [globArgsEach] computes is the number of tokens that pass
    the relaxed test. *)
Lemma globCount_length (args : list string) (acc : Z) :
  fold_left (fun prev curr => prev + bool_num (isGlob curr false)) args acc
  = acc + Z.of_nat (length (glob_tokens args)).
Proof.
  unfold glob_tokens.
  revert acc. induction args as [|a args IH]; intros acc;
    cbn [fold_left List.filter length].
  - lia.
  - rewrite IH. destruct (isGlob a false); cbn [bool_num length]; lia.
Qed.

Lemma globArgsEach_emits (args : list string) (opts : GlobOpts) (w : World) :
  emits (globArgsEach args opts) w
    (each_result args opts, <["nonull" := VBool true]> opts)
    (each_globs args opts)
  /\ spawned (exec (globArgsEach args opts) w) = spawned w.
Proof.
  unfold emits, globArgsEach, each_result, each_globs.
  rewrite eval_bind, exec_bind.
  destruct (emits_log Silly "globstar"
              (MsgOpts (<["nonull" := VBool true]> opts)) w) as [_ Hlog].
  rewrite app_nil_r in Hlog. rewrite <- Hlog.
  rewrite <- (exec_log_spawned Silly "globstar"
                (MsgOpts (<["nonull" := VBool true]> opts)) w).
  generalize (exec (npmlog_log Silly "globstar"
                      (MsgOpts (<["nonull" := VBool true]> opts))) w).
  clear Hlog. intros w'. rewrite globCount_length.
  destruct (length (glob_tokens args)) as [|[|n]] eqn:Hn.
  - cbn. by rewrite app_nil_r.
  - change (1 <? 0 + Z.of_nat 1) with false.
    change (0 + Z.of_nat 1 <=? 0) with false. cbv iota.
    unfold glob_sync_any, glob_sync, eval, exec, bind, tell, ret.
    destruct (index args _) as [p|] eqn:Hp; cbn [fst snd trace spawned].
    + by rewrite actions_app.
    + destruct (glob_undefined _); cbn [fst snd trace spawned];
        by rewrite actions_app.
  - replace (1 <? 0 + Z.of_nat (S (S n))) with true by (symmetry; apply Z.ltb_lt; lia).
    cbn. by rewrite app_nil_r.
Qed.

(** ** Process runner *)

Lemma onClose_result k cb called status :
  onClose (onetime k cb called) status
  = onetime k cb called (result_of (EvClose status)).
Proof.
  unfold onClose. destruct status as [s|]; cbn; [|done].
  by destruct (s =? 0).
Qed.

(** Once the wrapper has run, no event of the child does anything. *)
Lemma dispatch_called k events cb w : dispatch k events true cb w = (tt, w).
Proof.
  revert w. induction events as [|ev rest IH]; intros w; [done|].
  cbn [dispatch]. rewrite bind_unfold.
  destruct ev as [err|status]; [|rewrite onClose_result]; cbn; apply IH.
Qed.

(** The first event calls the callback, with the result of that event. *)
Lemma dispatch_first k ev rest cb w :
  dispatch k (ev :: rest) false cb w
  = (tell (EDone k (result_of ev)) ;; cb (result_of ev)) w.
Proof.
  cbn [dispatch]. rewrite bind_unfold, dispatch_called.
  assert (forall (m : M unit), (eval m w, exec m w) = m w) as Hm.
  { intros m. unfold eval, exec. by destruct (m w). }
  destruct ev as [err|status]; [|rewrite onClose_result];
    unfold onetime; rewrite <- Hm; f_equal;
    by destruct (eval _ w).
Qed.

Lemma spawnCommand_unfold cmd args cb w :
  spawnCommand cmd args cb w
  = (npmlog_log Verbose "globstar"
       (MsgRunning (command_line cmd args).1.1 (command_line cmd args).1.2) ;;
     k <- spawn (command_line cmd args).1.1 (command_line cmd args).1.2
                (command_line cmd args).2 ;;
     dispatch k (child k) false cb) w.
Proof. unfold spawnCommand. by destruct (command_line cmd args) as [[c a] v]. Qed.

(** C7.  When the child emits at least one event, [spawnCommand] runs
    its callback exactly once, on the first event, whatever follows
    (also a ['close'] after an ['error']): for every callback the call
    is the log record, the spawn, and one call of the callback.  The
    callback gets node's error when the child fails to start, a
    SpawnError with the status when the child exits with a nonzero
    status, and nothing when it exits with status zero. *)
Theorem spawnCommand_calls_back_once cmd args w ev rest :
  child (spawned w) = ev :: rest ->
  exists result : option JsError,
    (forall cb : option JsError -> M unit,
       spawnCommand cmd args cb w
       = (npmlog_log Verbose "globstar"
            (MsgRunning (command_line cmd args).1.1 (command_line cmd args).1.2) ;;
          k <- spawn (command_line cmd args).1.1 (command_line cmd args).1.2
                     (command_line cmd args).2 ;;
          tell (EDone k result) ;;
          cb result) w)
    /\ done_count (trace (exec (spawnCommand cmd args (fun _ => ret tt)) w))
       = S (done_count (trace w))
    /\ match ev with
       | EvError err => result = Some err
       | EvClose (Some s) =>
           if s =? 0 then result = None
           else exists text, result = Some (mkError "SpawnError" text (Some s))
       | EvClose None => result = None
       end.
Proof.
  intros Hchild. exists (result_of ev).
  assert (forall cb : option JsError -> M unit,
    spawnCommand cmd args cb w
    = (npmlog_log Verbose "globstar"
         (MsgRunning (command_line cmd args).1.1 (command_line cmd args).1.2) ;;
       k <- spawn (command_line cmd args).1.1 (command_line cmd args).1.2
                  (command_line cmd args).2 ;;
       tell (EDone k (result_of ev)) ;;
       cb (result_of ev)) w) as Heq.
  { intros cb. rewrite spawnCommand_unfold.
    rewrite !(bind_unfold (npmlog_log _ _ _)).
    rewrite !(bind_unfold (spawn _ _ _)). cbn [eval spawn fst].
    rewrite exec_log_spawned, Hchild. apply dispatch_first. }
  split; [exact Heq|]. split.
  - unfold exec. rewrite Heq. unfold bind, npmlog_log, spawn, tell, ret.
    destruct (shown _ _); cbn; unfold done_count;
      rewrite !List.filter_app, !length_app; cbn; lia.
  - destruct ev as [err|[s|]]; cbn; [done| |done].
    destruct (s =? 0); eauto.
Qed.

(** A child that emits no event gets no callback: with the theorem
    above, the callback never runs twice. *)
Lemma spawnCommand_silent_child cmd args w :
  child (spawned w) = [] ->
  done_count (trace (exec (spawnCommand cmd args (fun _ => ret tt)) w))
  = done_count (trace w).
Proof.
  intros Hchild. unfold exec. rewrite spawnCommand_unfold.
  rewrite bind_unfold, bind_unfold. cbn [eval spawn fst exec snd].
  rewrite exec_log_spawned, Hchild. cbn [dispatch ret snd trace].
  unfold exec, npmlog_log, tell.
  destruct (shown Verbose (npmlog_level w)); cbn; unfold done_count;
    rewrite !List.filter_app, !length_app; cbn; lia.
Qed.

Lemma unit_eq (u : unit) : u = tt.
Proof. by destruct u. Qed.

Lemma spawnCommand_emits_none cmd args cb w :
  child (spawned w) = [] ->
  emits (spawnCommand cmd args cb) w tt
    [ESpawn (spawned w) (command_line cmd args).1.1 (command_line cmd args).1.2
            (command_line cmd args).2].
Proof.
  intros Hchild. split; [apply unit_eq|].
  unfold exec. rewrite spawnCommand_unfold.
  rewrite bind_unfold, bind_unfold. cbn [eval spawn fst exec snd].
  rewrite exec_log_spawned, Hchild. cbn [dispatch ret snd trace].
  destruct (emits_log Verbose "globstar"
    (MsgRunning (command_line cmd args).1.1 (command_line cmd args).1.2) w)
    as [_ Hlog].
  rewrite app_nil_r in Hlog. by rewrite actions_app, Hlog.
Qed.

Lemma spawnCommand_first cmd args cb w ev rest :
  child (spawned w) = ev :: rest ->
  let line := command_line cmd args in
  let w1 := exec (npmlog_log Verbose "globstar" (MsgRunning line.1.1 line.1.2)) w in
  spawnCommand cmd args cb w
  = cb (result_of ev)
       (mkWorld (npmlog_level w1)
          ((trace w1 ++ [ESpawn (spawned w) line.1.1 line.1.2 line.2])
           ++ [EDone (spawned w) (result_of ev)])
          (S (spawned w))).
Proof.
  intros Hchild line w1. rewrite spawnCommand_unfold.
  rewrite bind_unfold, bind_unfold. cbn [eval spawn fst exec snd].
  rewrite exec_log_spawned, Hchild, dispatch_first, bind_unfold.
  done.
Qed.

Lemma spawnCommand_emits_first cmd args cb w ev rest acts :
  child (spawned w) = ev :: rest ->
  (forall w', spawned w' = S (spawned w) -> emits (cb (result_of ev)) w' tt acts) ->
  emits (spawnCommand cmd args cb) w tt
    (ESpawn (spawned w) (command_line cmd args).1.1 (command_line cmd args).1.2
            (command_line cmd args).2
     :: EDone (spawned w) (result_of ev) :: acts).
Proof.
  intros Hchild Hcb. split; [apply unit_eq|].
  pose proof (spawnCommand_first cmd args cb w ev rest Hchild) as Heq.
  cbv zeta in Heq.
  match type of Heq with _ = cb _ ?w1 =>
    assert (exec (spawnCommand cmd args cb) w = exec (cb (result_of ev)) w1) as ->
      by (unfold exec at 1 2; by rewrite Heq);
    destruct (Hcb w1) as [_ H]; [done|]
  end.
  rewrite H. cbn [trace].
  destruct (emits_log Verbose "globstar"
    (MsgRunning (command_line cmd args).1.1 (command_line cmd args).1.2) w)
    as [_ Hlog].
  rewrite app_nil_r in Hlog.
  rewrite !actions_app, Hlog. cbn. by rewrite <- !app_assoc.
Qed.

(** ** Orchestrator: the schedule *)

Lemma errorHandler_emits dollar0 result w :
  emits (errorHandler dollar0 result) w tt [EExit (exit_code_for result)].
Proof.
  split; [apply unit_eq|].
  destruct result as [err|]; cbn [errorHandler exit_code_for].
  - rewrite exec_bind.
    assert (actions (trace (exec
      (if negb (String.eqb (name err) "SpawnError") then
         level <- get_level ;;
         (if decide (level = Silly)
          then npmlog_log Error "globstar" (MsgError err)
          else npmlog_log Error "globstar" (MsgText (message err))) ;;
         npmlog_log Info "globstar" (MsgHelp dollar0) ;;
         npmlog_log Verbose ("globstar@" +:+ version) MsgNone
       else ret tt) w)) = actions (trace w)) as Hlogs.
    { destruct (negb _); [|done].
      rewrite exec_bind. cbn [eval exec get_level fst snd].
      rewrite exec_bind, exec_bind. skip_logs.
      destruct (decide _); by skip_logs. }
    cbn [exec exit tell snd trace]. by rewrite actions_app, Hlogs.
  - cbn. by rewrite actions_app.
Qed.

(** The loop of [mainEach] follows the schedule. *)
Lemma forAwait_emits cmd dollar0 values w :
  emits (forAwait cmd values (errorHandler dollar0)) w tt
    (schedule (spawned w) cmd values []).
Proof.
  revert w. induction values as [|value rest IH]; intros w.
  - apply emits_ret.
  - cbn [forAwait schedule]. unfold spawn_event.
    destruct (child (spawned w)) as [|ev evs] eqn:Hchild.
    + exact (spawnCommand_emits_none cmd value
        (fun err => match err with
                    | Some err => errorHandler dollar0 (Some err)
                    | None => forAwait cmd rest (errorHandler dollar0)
                    end) w Hchild).
    + pose proof (spawnCommand_emits_first cmd value
        (fun err => match err with
                    | Some err => errorHandler dollar0 (Some err)
                    | None => forAwait cmd rest (errorHandler dollar0)
                    end) w ev evs
        (match result_of ev with
         | Some err => [EExit (status_or_1 err)]
         | None => schedule (S (spawned w)) cmd rest []
         end) Hchild) as H.
      apply H. intros w' Hw'.
      destruct (result_of ev) as [err|].
      * apply (errorHandler_emits dollar0 (Some err)).
      * rewrite <- Hw'. apply IH.
Qed.

(** The one call of bulk mode follows the schedule too. *)
Lemma bulk_emits cmd dollar0 value w :
  emits (spawnCommand cmd value (errorHandler dollar0)) w tt
    (schedule (spawned w) cmd [value] [EExit 0]).
Proof.
  cbn [schedule]. unfold spawn_event.
  destruct (child (spawned w)) as [|ev evs] eqn:Hchild.
  - exact (spawnCommand_emits_none cmd value (errorHandler dollar0) w Hchild).
  - pose proof (spawnCommand_emits_first cmd value (errorHandler dollar0) w ev evs
      (match result_of ev with
       | Some err => [EExit (status_or_1 err)]
       | None => [EExit 0]
       end) Hchild) as H.
    apply H. intros w' _.
    pose proof (errorHandler_emits dollar0 (result_of ev) w') as H'.
    by destruct (result_of ev).
Qed.

(** ** Configuration *)

(** [parseArgv] writes [npmlog.level] and nothing else, and what it
    returns does not depend on the world. *)
Lemma parseArgv_exec (r : YargsResult) (w : World) :
  eval (parseArgv r) w = parsed r
  /\ trace (exec (parseArgv r) w) = trace w
  /\ spawned (exec (parseArgv r) w) = spawned w.
Proof. by unfold parsed, parseArgv, eval, exec, bind, set_level, ret. Qed.

Lemma boolean_lookup (key : string) (v : option bool) (o : gmap string JsVal) :
  boolean key v o !! key = VBool <$> v.
Proof.
  destruct v; cbn [boolean fmap option_fmap option_map].
  - apply lookup_insert_eq.
  - apply lookup_delete_eq.
Qed.

Lemma boolean_lookup_ne (key k : string) (v : option bool)
  (o : gmap string JsVal) :
  key <> k -> boolean key v o !! k = o !! k.
Proof.
  intros Hk. destruct v; cbn [boolean].
  - by apply lookup_insert_ne.
  - by apply lookup_delete_ne.
Qed.

Lemma boolean_lookup_any (key k : string) (v : option bool)
  (o : gmap string JsVal) :
  boolean key v o !! k = if decide (key = k) then VBool <$> v else o !! k.
Proof.
  case_decide as Hk.
  - subst k. apply boolean_lookup.
  - by apply boolean_lookup_ne.
Qed.

(** A look into the object of yargs, past the options with another
    key. *)
Ltac skip_keys :=
  repeat first [ rewrite lookup_insert_ne by discriminate
               | rewrite boolean_lookup_ne by discriminate ].

Lemma yargs_object_each (r : YargsResult) :
  yargs_object r !! "each" = VBool <$> y_each_flag (yargs_flags r).
Proof. unfold yargs_object. skip_keys. apply boolean_lookup. Qed.

Lemma parsed_ok (c : string) (rest : list string) (f : YargsFlags) :
  exists a, parsed (YargsOk c rest f) = ParseOk a
    /\ cmd a = c /\ args a = rest /\ truthy (each a) = y_each f.
Proof.
  eexists. split; [reflexivity|]. cbn [cmd args each].
  split; [done|]. split; [done|].
  unfold prop.
  assert (forall (o : gmap string JsVal),
    (if truthy (default VUndef (o !! "node"))
     then <["ignore" := VArr (array_or_empty (default VUndef (o !! "ignore"))
                              ++ ["**/node_modules/**"])]> o
     else o) !! "each" = o !! "each") as Hnode.
  { intros o. destruct (truthy _); [|done].
    by rewrite lookup_insert_ne. }
  rewrite Hnode.
  rewrite lookup_insert_ne by done.
  rewrite lookup_union, (yargs_object_each (YargsOk c rest f)).
  do 2 (rewrite (lookup_insert_ne _ _ "each") by done).
  rewrite lookup_singleton_ne by done. cbn [yargs_flags].
  unfold y_each. by destruct (y_each_flag f) as [[]|].
Qed.

(** The positional arguments are still in the translated object. *)
Lemma translated_positional (r : YargsResult) :
  prop (translated r) "_" = VArr (yargs_positional r).
Proof.
  unfold translated, prop.
  assert (forall n,
    (<["verbose" := VNum n]>
       (yargs_object r ∪
        {[ "_" := VArr []; "$0" := VStr script_path; "verbose" := VNum 0 ]}))
      !! "_" = Some (VArr (yargs_positional r))) as Hbase.
  { intros n. rewrite lookup_insert_ne by done.
    apply lookup_union_Some_l. unfold yargs_object. apply lookup_insert_eq. }
  destruct (truthy _).
  - rewrite lookup_insert_ne by done. by rewrite Hbase.
  - by rewrite Hbase.
Qed.

Lemma parsed_fail (msg : string) (p : list string) (f : YargsFlags) :
  exists dollar0,
    parsed (YargsFail msg p f) = ParseError (mkError "YargsError" msg None) dollar0.
Proof. eexists. reflexivity. Qed.

(** ** The run as a whole *)

(** The actions of a run: the calls of [glob] of the argument builder,
    then the exit for an error, or the schedule of the argument lists. *)
Lemma actions_run (r : YargsResult) :
  actions (trace (run r))
  = expansions r ++
    match invocations r with
    | inl err => [EExit (status_or_1 err)]
    | inr values =>
        schedule 0 match parsed r with ParseOk a => cmd a | _ => command r end
                 values (finish r)
    end.
Proof.
  unfold run, main. rewrite exec_bind.
  destruct (parseArgv_exec r initial) as (Hev & Htr & Hsp).
  rewrite Hev. unfold invocations, expansions, finish.
  destruct (parsed r) as [err dollar0|a].
  - destruct (errorHandler_emits dollar0 (Some err) (exec (parseArgv r) initial))
      as [_ H].
    by rewrite H, Htr.
  - destruct (truthy (each a)).
    + unfold mainEach. rewrite exec_bind.
      destruct (globArgsEach_emits (args a) (globOpts a)
                  (exec (parseArgv r) initial)) as [[Hv Ha] Hs].
      destruct (globArgsEach_emits (args a) (globOpts a) initial) as [[Hv0 Ha0] _].
      rewrite Hv, Hv0, Ha0. cbn [fst trace initial actions List.filter app].
      rewrite Htr in Ha. cbn [trace initial actions List.filter app] in Ha.
      destruct (each_result (args a) (globOpts a)) as [err|values].
      * destruct (errorHandler_emits (dollar0 a) (Some err)
          (exec (globArgsEach (args a) (globOpts a)) (exec (parseArgv r) initial)))
          as [_ H].
        by rewrite H, Ha.
      * destruct (forAwait_emits (cmd a) (dollar0 a) values
          (exec (globArgsEach (args a) (globOpts a)) (exec (parseArgv r) initial)))
          as [_ H].
        by rewrite H, Ha, Hs, Hsp.
    + rewrite exec_bind.
      destruct (globArgs_emits (args a) (globOpts a)
                  (exec (parseArgv r) initial)) as [Hv Ha].
      destruct (globArgs_emits (args a) (globOpts a) initial) as [Hv0 Ha0].
      rewrite Hv, Hv0, Ha0. cbn [fst trace initial actions List.filter app].
      rewrite Htr in Ha. cbn [trace initial actions List.filter app] in Ha.
      destruct (bulk_emits (cmd a) (dollar0 a)
        (concat (map (fun arg => glob arg (<["nonull" := VBool true]> (globOpts a)))
                     (args a)))
        (exec (globArgs (args a) (globOpts a)) (exec (parseArgv r) initial)))
        as [_ H].
      by rewrite H, Ha, globArgs_spawned, Hsp.
Qed.

Lemma parsed_cmd (r : YargsResult) (a : Argv) :
  parsed r = ParseOk a -> cmd a = command r.
Proof.
  destruct r as [msg p f|c rest f]; intros H.
  - destruct (parsed_fail msg p f) as [d0 H']. congruence.
  - destruct (parsed_ok c rest f) as (a' & H' & Hc & _).
    cbn [command]. congruence.
Qed.

Lemma actions_run_command (r : YargsResult) :
  actions (trace (run r))
  = expansions r ++
    match invocations r with
    | inl err => [EExit (status_or_1 err)]
    | inr values => schedule 0 (command r) values (finish r)
    end.
Proof.
  rewrite actions_run. destruct (parsed r) as [err d0|a] eqn:Hp; [done|].
  by rewrite (parsed_cmd r a Hp).
Qed.

Lemma expansions_globs (r : YargsResult) :
  forallb is_glob_call (expansions r) = true.
Proof.
  unfold expansions. destruct (parsed r) as [err d0|a]; [done|].
  destruct (truthy (each a)).
  - destruct (globArgsEach_emits (args a) (globOpts a) initial) as [[_ H] _].
    rewrite H. cbn. unfold each_globs.
    by destruct (length (glob_tokens (args a))) as [|[|n]].
  - destruct (globArgs_emits (args a) (globOpts a) initial) as [_ H].
    rewrite H. cbn [trace initial actions List.filter app].
    generalize (args a). intros l. by induction l.
Qed.

Lemma exit_calls_app (t1 t2 : list Event) :
  exit_calls (t1 ++ t2) = exit_calls t1 ++ exit_calls t2.
Proof. apply omap_app. Qed.

Lemma exit_calls_actions (t : list Event) : exit_calls (actions t) = exit_calls t.
Proof.
  induction t as [|e t IH]; [done|].
  change (actions (e :: t))
    with (if negb (is_log e) then e :: actions t else actions t).
  destruct e; cbn [is_log negb]; try done;
    change (exit_calls (?x :: ?l))
      with (match x with EExit c => [c] | _ => [] end ++ exit_calls l);
    by rewrite IH.
Qed.

Lemma exit_calls_globs (t : list Event) :
  forallb is_glob_call t = true -> exit_calls t = [].
Proof.
  induction t as [|e t IH]; [done|].
  destruct e; cbn; by auto.
Qed.

(** The exit code of a run, read from its schedule. *)
Lemma process_exit_code_run (r : YargsResult) :
  process_exit_code (trace (run r))
  = default 0 (head (exit_calls
      match invocations r with
      | inl err => [EExit (status_or_1 err)]
      | inr values => schedule 0 (command r) values (finish r)
      end)).
Proof.
  unfold process_exit_code.
  rewrite <- exit_calls_actions, actions_run_command, exit_calls_app.
  by rewrite (exit_calls_globs _ (expansions_globs r)).
Qed.

Lemma invocations_each (c : string) (rest : list string) (f : YargsFlags) :
  y_each f = true ->
  exists a, parsed (YargsOk c rest f) = ParseOk a
    /\ invocations (YargsOk c rest f) = each_result rest (globOpts a)
    /\ expansions (YargsOk c rest f) = each_globs rest (globOpts a)
    /\ finish (YargsOk c rest f) = [].
Proof.
  intros He. destruct (parsed_ok c rest f) as (a & Hp & Hc & Ha & Hea).
  exists a. split; [done|].
  unfold invocations, expansions, finish. rewrite Hp, Hea, He. cbn [truthy].
  destruct (globArgsEach_emits (args a) (globOpts a) initial) as [[Hv Hg] _].
  rewrite Hv, Hg, Ha. done.
Qed.

(** ** Each mode: more than one glob *)

(** C1.  In each mode, when two or more of the tokens count as globs,
    [globArgsEach] throws the error with the message "each cannot accept
    multiple globs"; the run then makes no call of [glob], spawns no
    child, and its only action is the call [exit(1)], so the exit code
    of the process is 1. *)
Theorem each_rejects_multiple_globs (c : string) (rest : list string)
  (f : YargsFlags) :
  y_each f = true ->
  (2 <= length (glob_tokens rest))%nat ->
  invocations (YargsOk c rest f)
    = inl (mkError "Error" "each cannot accept multiple globs" None)
  /\ actions (trace (run (YargsOk c rest f))) = [EExit 1]
  /\ process_exit_code (trace (run (YargsOk c rest f))) = 1.
Proof.
  intros He Hn.
  destruct (invocations_each c rest f He) as (a & Hp & Hi & Hx & Hf).
  assert (invocations (YargsOk c rest f) = inl multiple_globs) as Hinv.
  { rewrite Hi. unfold each_result.
    destruct (length (glob_tokens rest)) as [|[|n]]; [lia|lia|done]. }
  assert (expansions (YargsOk c rest f) = []) as Hexp.
  { rewrite Hx. unfold each_globs.
    destruct (length (glob_tokens rest)) as [|[|n]]; [lia|lia|done]. }
  split; [exact Hinv|]. split.
  - by rewrite actions_run_command, Hinv, Hexp.
  - by rewrite process_exit_code_run, Hinv.
Qed.

(** ** Sequential runs *)

Lemma schedule_completed cmd pre rest fin k :
  (forall i, (i < length pre)%nat ->
     head (child (k + i)) = Some (EvClose (Some 0))) ->
  schedule k cmd (pre ++ rest) fin
  = completed k cmd pre ++ schedule (k + length pre) cmd rest fin.
Proof.
  revert k. induction pre as [|value pre IH]; intros k Hok.
  - cbn. by rewrite Nat.add_0_r.
  - cbn [app schedule completed length].
    pose proof (Hok 0%nat ltac:(cbn; lia)) as H0. rewrite Nat.add_0_r in H0.
    destruct (child k) as [|ev evs]; [done|]. cbn in H0.
    injection H0 as ->. cbn [result_of Z.eqb].
    rewrite IH.
    + by replace (S k + length pre)%nat with (k + S (length pre))%nat by lia.
    + intros i Hi. replace (S k + i)%nat with (k + S i)%nat by lia.
      apply Hok. cbn. lia.
Qed.

Lemma schedule_failure cmd value rest fin k ev err :
  head (child k) = Some ev ->
  result_of ev = Some err ->
  schedule k cmd (value :: rest) fin
  = [spawn_event k cmd value; EDone k (Some err); EExit (status_or_1 err)].
Proof.
  intros Hev Hres. cbn [schedule].
  destruct (child k) as [|ev' evs]; [done|]. cbn in Hev.
  injection Hev as ->. by rewrite Hres.
Qed.

Lemma exit_calls_completed k cmd values : exit_calls (completed k cmd values) = [].
Proof. revert k. induction values as [|v values IH]; intros k; [done|]. apply IH. Qed.

Lemma processes_actions (t : list Event) : processes (actions t) = processes t.
Proof.
  unfold processes, actions.
  induction t as [|e t IH]; [done|].
  destruct e; cbn; by rewrite ?IH.
Qed.

Lemma processes_globs (t : list Event) :
  forallb is_glob_call t = true -> processes t = [].
Proof.
  unfold processes.
  induction t as [|e t IH]; [done|].
  destruct e; cbn; by auto.
Qed.

Lemma processes_all (t : list Event) :
  forallb is_process t = true -> processes t = t.
Proof.
  unfold processes.
  induction t as [|e t IH]; [done|]. cbn.
  destruct (is_process e); [|done]. cbn. intros H. by rewrite IH.
Qed.

Lemma completed_processes k cmd values :
  forallb is_process (completed k cmd values) = true.
Proof. revert k. induction values as [|v values IH]; intros k; [done|]. apply IH. Qed.

(** The process events of a run are those of its schedule. *)
Lemma processes_run (r : YargsResult) :
  processes (trace (run r))
  = processes
      match invocations r with
      | inl err => [EExit (status_or_1 err)]
      | inr values => schedule 0 (command r) values (finish r)
      end.
Proof.
  rewrite <- processes_actions, actions_run_command.
  unfold processes at 1. rewrite List.filter_app.
  fold (processes (expansions r)).
  by rewrite (processes_globs _ (expansions_globs r)).
Qed.

(** C3.  In each mode the argument lists are run one after the other in
    their order: when the children of the lists [pre] all exit with
    status 0 and the child of the next list [value] exits with the
    status [s], not 0, the process events of the run are, for each list
    of [pre] in turn, its spawn followed by its completion, then the
    spawn of [value], its completion with a SpawnError, and the exit
    with [s].  Every child is spawned after the one before it has
    completed, none is spawned for the lists [post], and the exit code
    of the process is [s]. *)
Theorem each_mode_sequential (c : string) (rest : list string) (f : YargsFlags)
  (pre : list (list string)) (value : list string) (post : list (list string))
  (s : Z) :
  y_each f = true ->
  invocations (YargsOk c rest f) = inr (pre ++ value :: post) ->
  (forall k, (k < length pre)%nat -> head (child k) = Some (EvClose (Some 0))) ->
  head (child (length pre)) = Some (EvClose (Some s)) ->
  s <> 0 ->
  processes (trace (run (YargsOk c rest f)))
  = completed 0 c pre ++
    [spawn_event (length pre) c value;
     EDone (length pre)
       (Some (mkError "SpawnError" ("Exit status " +:+ pretty s) (Some s)));
     EExit s]
  /\ process_exit_code (trace (run (YargsOk c rest f))) = s.
Proof.
  intros He Hinv Hpre Hfail Hs.
  assert (result_of (EvClose (Some s))
          = Some (mkError "SpawnError" ("Exit status " +:+ pretty s) (Some s)))
    as Hres.
  { cbn. destruct (s =? 0) eqn:E; [lia|done]. }
  assert (status_or_1 (mkError "SpawnError" ("Exit status " +:+ pretty s) (Some s))
          = s) as Hcode.
  { unfold status_or_1. cbn. destruct (s =? 0) eqn:E; [lia|done]. }
  assert (schedule 0 c (pre ++ value :: post) (finish (YargsOk c rest f))
          = completed 0 c pre ++
            [spawn_event (length pre) c value;
             EDone (length pre)
               (Some (mkError "SpawnError" ("Exit status " +:+ pretty s) (Some s)));
             EExit s]) as Hsched.
  { rewrite schedule_completed by exact Hpre. cbn [Nat.add].
    by rewrite (schedule_failure _ _ _ _ _ _ _ Hfail Hres), Hcode. }
  split.
  - rewrite processes_run, Hinv. cbn [command]. rewrite Hsched.
    apply processes_all. rewrite forallb_app, completed_processes. done.
  - rewrite process_exit_code_run, Hinv. cbn [command]. rewrite Hsched.
    by rewrite exit_calls_app, exit_calls_completed.
Qed.

(** ** Exit codes *)

Lemma schedule_all_completed cmd values fin :
  (forall k, (k < length values)%nat ->
     head (child k) = Some (EvClose (Some 0))) ->
  schedule 0 cmd values fin = completed 0 cmd values ++ fin.
Proof.
  intros Hok.
  rewrite <- (app_nil_r values) at 1.
  by rewrite schedule_completed.
Qed.

Lemma schedule_first_failure cmd pre value post fin ev err :
  (forall k, (k < length pre)%nat ->
     head (child k) = Some (EvClose (Some 0))) ->
  head (child (length pre)) = Some ev ->
  result_of ev = Some err ->
  schedule 0 cmd (pre ++ value :: post) fin
  = completed 0 cmd pre ++
    [spawn_event (length pre) cmd value; EDone (length pre) (Some err);
     EExit (status_or_1 err)].
Proof.
  intros Hok Hev Hres. rewrite schedule_completed by exact Hok.
  cbn [Nat.add]. by rewrite (schedule_failure _ _ _ _ _ _ _ Hev Hres).
Qed.

Lemma finish_exit (r : YargsResult) :
  default 0 (head (exit_calls (finish r))) = 0.
Proof.
  unfold finish. destruct (parsed r) as [err d0|a]; [done|].
  by destruct (truthy (each a)).
Qed.

Lemma invocations_fail (msg : string) (p : list string) (f : YargsFlags) :
  invocations (YargsFail msg p f) = inl (mkError "YargsError" msg None).
Proof.
  unfold invocations. by destruct (parsed_fail msg p f) as [d0 ->].
Qed.

(** C4.  The exit code of the process is 0 when no error occurs and
    every child spawned exits with status 0; it is the status of the
    child when a child exits with a status other than 0 (the children
    before it having exited with 0); and it is 1 when the run ends on an
    error without a status: a failed parse of the command line, an error
    thrown by the argument builder, or a child that could not be
    started. *)
Theorem exit_code_mapping (r : YargsResult) :
  (forall values,
     invocations r = inr values ->
     (forall k, (k < length values)%nat ->
        head (child k) = Some (EvClose (Some 0))) ->
     process_exit_code (trace (run r)) = 0)
  /\ (forall pre value post s,
        invocations r = inr (pre ++ value :: post) ->
        (forall k, (k < length pre)%nat ->
           head (child k) = Some (EvClose (Some 0))) ->
        head (child (length pre)) = Some (EvClose (Some s)) ->
        s <> 0 ->
        process_exit_code (trace (run r)) = s)
  /\ (forall msg p f,
        r = YargsFail msg p f ->
        process_exit_code (trace (run r)) = 1)
  /\ (forall err,
        invocations r = inl err ->
        status err = None ->
        process_exit_code (trace (run r)) = 1)
  /\ (forall pre value post err,
        invocations r = inr (pre ++ value :: post) ->
        (forall k, (k < length pre)%nat ->
           head (child k) = Some (EvClose (Some 0))) ->
        head (child (length pre)) = Some (EvError err) ->
        status err = None ->
        process_exit_code (trace (run r)) = 1).
Proof.
  repeat split.
  - intros values Hinv Hok.
    rewrite process_exit_code_run, Hinv, schedule_all_completed by exact Hok.
    rewrite exit_calls_app, exit_calls_completed. apply finish_exit.
  - intros pre value post s Hinv Hok Hfail Hs.
    rewrite process_exit_code_run, Hinv.
    rewrite (schedule_first_failure _ _ _ _ _ (EvClose (Some s))
               (mkError "SpawnError" ("Exit status " +:+ pretty s) (Some s))
               Hok Hfail).
    + rewrite exit_calls_app, exit_calls_completed. cbn.
      unfold status_or_1. cbn. destruct (s =? 0) eqn:E; [lia|done].
    + cbn. destruct (s =? 0) eqn:E; [lia|done].
  - intros msg p f ->.
    by rewrite process_exit_code_run, invocations_fail.
  - intros err Hinv Hst.
    rewrite process_exit_code_run, Hinv. cbn. unfold status_or_1. by rewrite Hst.
  - intros pre value post err Hinv Hok Hfail Hst.
    rewrite process_exit_code_run, Hinv.
    rewrite (schedule_first_failure _ _ _ _ _ (EvError err) err Hok Hfail eq_refl).
    rewrite exit_calls_app, exit_calls_completed. cbn.
    unfold status_or_1. by rewrite Hst.
Qed.

(** In each mode a run whose children all end well never calls [exit]:
    its exit code 0 is the one node gives a program that just ends. *)
Lemma each_success_without_exit (c : string) (rest : list string)
  (f : YargsFlags) (values : list (list string)) :
  y_each f = true ->
  invocations (YargsOk c rest f) = inr values ->
  (forall k, (k < length values)%nat ->
     head (child k) = Some (EvClose (Some 0))) ->
  exit_calls (trace (run (YargsOk c rest f))) = [].
Proof.
  intros He Hinv Hok.
  destruct (invocations_each c rest f He) as (a & _ & _ & _ & Hf).
  rewrite <- exit_calls_actions, actions_run_command, exit_calls_app.
  rewrite (exit_calls_globs _ (expansions_globs _)), Hinv.
  rewrite schedule_all_completed by exact Hok.
  by rewrite exit_calls_app, exit_calls_completed, Hf.
Qed.

(** In bulk mode the same run ends with the call [exit(0)]. *)
Lemma bulk_success_calls_exit (c : string) (rest : list string)
  (f : YargsFlags) (values : list (list string)) :
  y_each f = false ->
  invocations (YargsOk c rest f) = inr values ->
  (forall k, (k < length values)%nat ->
     head (child k) = Some (EvClose (Some 0))) ->
  exit_calls (trace (run (YargsOk c rest f))) = [0].
Proof.
  intros He Hinv Hok.
  assert (finish (YargsOk c rest f) = [EExit 0]) as Hf.
  { unfold finish. destruct (parsed_ok c rest f) as (a & -> & _ & _ & ->).
    by rewrite He. }
  rewrite <- exit_calls_actions, actions_run_command, exit_calls_app.
  rewrite (exit_calls_globs _ (expansions_globs _)), Hinv.
  rewrite schedule_all_completed by exact Hok.
  by rewrite exit_calls_app, exit_calls_completed, Hf.
Qed.

(** ** SpawnError records *)

(** Every completion in a schedule comes from the first event of its
    child, and a failed one is followed by the exit. *)
Lemma schedule_done cmd values fin k0 k err :
  forallb (fun e => negb (is_done e)) fin = true ->
  In (EDone k (Some err)) (schedule k0 cmd values fin) ->
  exists ev, head (child k) = Some ev /\ result_of ev = Some err
    /\ exit_calls (schedule k0 cmd values fin) = [status_or_1 err].
Proof.
  intros Hfin. revert k0. induction values as [|value rest IH]; intros k0 Hin.
  - cbn in Hin. exfalso.
    rewrite forallb_forall in Hfin. by specialize (Hfin _ Hin).
  - cbn [schedule] in *. destruct Hin as [Hin|Hin]; [done|].
    destruct (child k0) as [|ev evs] eqn:Hchild; [done|].
    destruct Hin as [Hin|Hin].
    + injection Hin as -> Hres. exists ev. rewrite Hchild, Hres. done.
    + destruct (result_of ev) as [err'|] eqn:Hres.
      * destruct Hin as [Hin|[]]. done.
      * apply IH in Hin as (ev' & H1 & H2 & H3). exists ev'. done.
Qed.

Lemma in_trace_actions (e : Event) (t : list Event) :
  is_log e = false -> In e t -> In e (actions t).
Proof.
  intros He Hin. apply List.filter_In. split; [done|]. by rewrite He.
Qed.

Lemma not_in_globs (e : Event) (t : list Event) :
  forallb is_glob_call t = true -> is_glob_call e = false -> ~ In e t.
Proof.
  intros Ht He Hin. rewrite forallb_forall in Ht.
  specialize (Ht _ Hin). congruence.
Qed.

(** C10.  Node's own error objects are not named SpawnError.  Then a
    SpawnError that reaches the completion callback in a run carries a
    status, that status is not 0, and it is the exit code of the
    process: the fallback to 1 is not taken.  (A SpawnError is built
    for a ['close'] event with a truthy status only, so a child that
    exits with status 0 produces none.) *)
Theorem spawn_error_status_is_exit_code (r : YargsResult) (k : nat)
  (err : JsError) :
  (forall j e, In (EvError e) (child j) -> name e <> "SpawnError") ->
  In (EDone k (Some err)) (trace (run r)) ->
  name err = "SpawnError" ->
  exists s, status err = Some s /\ s <> 0
    /\ head (child k) = Some (EvClose (Some s))
    /\ process_exit_code (trace (run r)) = s.
Proof.
  intros Hnode Hin Hname.
  apply in_trace_actions in Hin; [|done].
  rewrite actions_run_command in Hin. apply in_app_or in Hin as [Hin|Hin].
  { by destruct (not_in_globs (EDone k (Some err)) _ (expansions_globs r)
                    eq_refl Hin). }
  rewrite process_exit_code_run.
  destruct (invocations r) as [err'|values].
  { destruct Hin as [Hin|[]]. done. }
  apply schedule_done in Hin as (ev & Hev & Hres & Hexit).
  - rewrite Hexit. destruct ev as [e|[s|]]; cbn in Hres.
    + injection Hres as ->. exfalso. apply (Hnode k err); [|done].
      destruct (child k) as [|ev evs]; [done|]. cbn in Hev.
      injection Hev as ->. by left.
    + destruct (s =? 0) eqn:E; [done|]. injection Hres as <-.
      exists s. cbn. unfold status_or_1. cbn. rewrite E.
      repeat split; try done. lia.
    + done.
  - unfold finish. destruct (parsed r) as [e d0|a]; [done|].
    by destruct (truthy (each a)).
Qed.

(** ** Verbosity *)

Lemma parsed_translated (r : YargsResult) :
  match parsed r with
  | ParseError err dollar0 =>
      exists msg, err = mkError "YargsError" msg None
        /\ (exists p f, r = YargsFail msg p f)
  | ParseOk a =>
      each a = prop (translated r) "each"
      /\ cmd a = command r
      /\ args a = match r with YargsOk _ rest _ => rest | _ => [] end
      /\ globOpts a = filter (fun kv => nonGlobFlag kv.1 = false) (translated r)
  end.
Proof. destruct r as [msg p f|c rest f]; cbn; eauto. Qed.

(** The keys [v] and [verbose] apart, the object yargs returns does not
    depend on the count of [-v] flags. *)
Lemma yargs_object_with_verbose (v : nat) (r : YargsResult) (k : string) :
  k <> "v" -> k <> "verbose" ->
  yargs_object (with_verbose v r) !! k = yargs_object r !! k.
Proof.
  intros Hv Hverbose.
  destruct r as [msg p f|c rest f]; unfold yargs_object;
    cbn [with_verbose yargs_flags yargs_positional set_verbose
         y_nodir y_ignore y_node_flag y_verbose y_each_flag y_dollar0 y_other];
    repeat first [rewrite lookup_insert | rewrite boolean_lookup_any];
    repeat case_decide; congruence.
Qed.

Lemma translated_with_verbose (v : nat) (r : YargsResult) (k : string) :
  k <> "v" -> k <> "verbose" ->
  translated (with_verbose v r) !! k = translated r !! k.
Proof.
  intros Hv Hverbose. unfold translated, prop.
  assert (forall r' n key, key <> "verbose" ->
    (<["verbose" := VNum n]>
       (yargs_object r' ∪
        {[ "_" := VArr []; "$0" := VStr script_path; "verbose" := VNum 0 ]}))
      !! key
    = union_with (fun x _ => Some x) (yargs_object r' !! key)
        (({[ "_" := VArr []; "$0" := VStr script_path; "verbose" := VNum 0 ]}
            : gmap string JsVal) !! key)) as Hlook.
  { intros r' n key Hkey. rewrite lookup_insert_ne by done. apply lookup_union. }
  rewrite !(Hlook _ _ "node") by done.
  rewrite !(Hlook _ _ "ignore") by done.
  rewrite !(yargs_object_with_verbose v r "node") by done.
  rewrite !(yargs_object_with_verbose v r "ignore") by done.
  destruct (truthy _).
  - destruct (decide (k = "ignore")) as [->|Hk].
    + by rewrite !lookup_insert_eq.
    + rewrite !(lookup_insert_ne _ "ignore") by done.
      rewrite !Hlook by done. by rewrite yargs_object_with_verbose.
  - rewrite !Hlook by done. by rewrite yargs_object_with_verbose.
Qed.

Lemma globOpts_with_verbose (v : nat) (r : YargsResult) :
  filter (fun kv => nonGlobFlag kv.1 = false) (translated (with_verbose v r))
  = filter (fun kv : string * JsVal => nonGlobFlag kv.1 = false) (translated r).
Proof.
  apply map_eq. intros k. rewrite !map_lookup_filter.
  destruct (decide (k = "v")) as [->|Hv].
  { destruct (translated _ !! "v"), (translated r !! "v"); done. }
  destruct (decide (k = "verbose")) as [->|Hverbose].
  { destruct (translated _ !! "verbose"), (translated r !! "verbose"); done. }
  by rewrite translated_with_verbose.
Qed.

Lemma plan_with_verbose (v : nat) (r : YargsResult) :
  invocations (with_verbose v r) = invocations r
  /\ expansions (with_verbose v r) = expansions r
  /\ finish (with_verbose v r) = finish r
  /\ command (with_verbose v r) = command r.
Proof.
  unfold invocations, expansions, finish.
  pose proof (parsed_translated (with_verbose v r)) as H1.
  pose proof (parsed_translated r) as H2.
  destruct r as [msg p f|c rest f].
  - destruct (parsed_fail msg p f) as [d0 Hp].
    destruct (parsed_fail msg p (set_verbose v f)) as [d0' Hp'].
    cbn [with_verbose]. by rewrite Hp, Hp'.
  - destruct (parsed_ok c rest f) as (a & Hp & _).
    destruct (parsed_ok c rest (set_verbose v f)) as (a' & Hp' & _).
    cbn [with_verbose] in *. rewrite Hp in *. rewrite Hp' in *.
    destruct H1 as (He1 & _ & Ha1 & Hg1), H2 as (He2 & _ & Ha2 & Hg2).
    assert (each a' = each a) as ->.
    { rewrite He1, He2. unfold prop.
      by rewrite (translated_with_verbose v (YargsOk c rest f)). }
    assert (globOpts a' = globOpts a) as ->.
    { rewrite Hg1, Hg2. apply (globOpts_with_verbose v (YargsOk c rest f)). }
    by rewrite Ha1, Ha2.
Qed.

(** C9.  Two runs on the same command line, the count of [-v] flags
    apart, make the same calls of [glob], spawn the same commands with
    the same argument lists in the same order, observe the same
    completions, and end with the same exit code: they differ in the
    log records only. *)
Theorem verbosity_changes_logs_only (r : YargsResult) (v1 v2 : nat) :
  actions (trace (run (with_verbose v1 r)))
  = actions (trace (run (with_verbose v2 r)))
  /\ process_exit_code (trace (run (with_verbose v1 r)))
     = process_exit_code (trace (run (with_verbose v2 r))).
Proof.
  destruct (plan_with_verbose v1 r) as (Hi1 & Hx1 & Hf1 & Hc1).
  destruct (plan_with_verbose v2 r) as (Hi2 & Hx2 & Hf2 & Hc2).
  split.
  - rewrite !actions_run_command.
    by rewrite Hi1, Hx1, Hf1, Hc1, Hi2, Hx2, Hf2, Hc2.
  - rewrite !process_exit_code_run.
    by rewrite Hi1, Hf1, Hc1, Hi2, Hf2, Hc2.
Qed.

(** ** The option object *)

Lemma yargs_object_node (r : YargsResult) :
  truthy (default VUndef (yargs_object r !! "node")) = y_node (yargs_flags r).
Proof.
  unfold yargs_object. skip_keys. rewrite boolean_lookup.
  unfold y_node. by destruct (y_node_flag _) as [[]|].
Qed.

Lemma yargs_object_ignore (r : YargsResult) :
  yargs_object r !! "ignore"
  = match y_ignore (yargs_flags r) with
    | Some l => Some (VArr l)
    | None => y_other (yargs_flags r) !! "ignore"
    end.
Proof.
  unfold yargs_object. skip_keys.
  destruct (y_ignore _); [|done].
  rewrite lookup_insert_ne by done. by rewrite lookup_insert_eq.
Qed.

Lemma base_lookup (r : YargsResult) (n : Z) (k : string) :
  k <> "_" -> k <> "$0" -> k <> "verbose" ->
  (<["verbose" := VNum n]>
     (yargs_object r ∪
      {[ "_" := VArr []; "$0" := VStr script_path; "verbose" := VNum 0 ]}))
    !! k
  = yargs_object r !! k.
Proof.
  intros H1 H2 H3. rewrite lookup_insert_ne by done. rewrite lookup_union.
  do 2 (rewrite (lookup_insert_ne _ _ k) by done).
  rewrite lookup_singleton_ne by done.
  by destruct (yargs_object r !! k).
Qed.

Lemma translated_ignore (r : YargsResult) :
  y_other (yargs_flags r) !! "ignore" = None ->
  translated r !! "ignore"
  = if y_node (yargs_flags r)
    then Some (VArr (default [] (y_ignore (yargs_flags r))
                     ++ ["**/node_modules/**"]))
    else VArr <$> y_ignore (yargs_flags r).
Proof.
  intros Hother. unfold translated, prop.
  rewrite !(base_lookup r _ "node") by done.
  rewrite !(base_lookup r _ "ignore") by done.
  rewrite yargs_object_node, yargs_object_ignore, Hother.
  destruct (y_node _); cbn [default id].
  - rewrite lookup_insert_eq. by destruct (y_ignore _).
  - rewrite (base_lookup r _ "ignore") by done.
    rewrite yargs_object_ignore, Hother.
    by destruct (y_ignore _).
Qed.

(** Every call of [glob] in a run gets the options [parseArgv] built,
    with [nonull] set. *)
Lemma glob_calls_options (r : YargsResult) (a : Argv) (p : option string)
  (o : GlobOpts) :
  parsed r = ParseOk a ->
  In (EGlob p o) (trace (run r)) ->
  o = <["nonull" := VBool true]> (globOpts a).
Proof.
  intros Hp Hin. apply in_trace_actions in Hin; [|done].
  rewrite actions_run_command in Hin. apply in_app_or in Hin as [Hin|Hin].
  - unfold expansions in Hin. rewrite Hp in Hin.
    destruct (truthy (each a)).
    + destruct (globArgsEach_emits (args a) (globOpts a) initial) as [[_ H] _].
      rewrite H in Hin. cbn [trace initial actions List.filter app] in Hin.
      unfold each_globs in Hin.
      destruct (length (glob_tokens (args a))) as [|[|n]]; try done.
      destruct Hin as [Hin|[]]. congruence.
    + destruct (globArgs_emits (args a) (globOpts a) initial) as [_ H].
      rewrite H in Hin. cbn [trace initial actions List.filter app] in Hin.
      apply in_map_iff in Hin as (x & Hx & _). congruence.
  - exfalso. destruct (invocations r) as [err|values].
    + destruct Hin as [Hin|[]]. done.
    + assert (forallb is_process (finish r) = true) as Hfin.
      { unfold finish. rewrite Hp. by destruct (truthy (each a)). }
      revert Hin. generalize 0%nat. generalize (command r).
      induction values as [|v values IH]; intros c k Hin.
      * cbn in Hin. rewrite forallb_forall in Hfin.
        by specialize (Hfin _ Hin).
      * cbn [schedule] in Hin. destruct Hin as [Hin|Hin]; [done|].
        destruct (child k) as [|ev evs]; [done|].
        destruct Hin as [Hin|Hin]; [done|].
        destruct (result_of ev).
        -- destruct Hin as [Hin|[]]. done.
        -- by apply IH in Hin.
Qed.

(** ** What an expansion is *)

Lemma glob_calls_nonull (r : YargsResult) (p : option string) (o : GlobOpts) :
  In (EGlob p o) (trace (run r)) -> o !! "nonull" = Some (VBool true).
Proof.
  intros Hin. destruct (parsed r) as [err d0|a] eqn:Hp.
  - exfalso. apply in_trace_actions in Hin; [|done].
    rewrite actions_run_command in Hin.
    unfold expansions, invocations in Hin. rewrite Hp in Hin.
    destruct Hin as [Hin|[]]. done.
  - rewrite (glob_calls_options r a p o Hp Hin). apply lookup_insert_eq.
Qed.

Lemma expand_not_empty hasMagic matches pattern opts :
  expand hasMagic matches pattern opts <> [].
Proof.
  unfold expand. destruct (hasMagic pattern); [|done].
  by destruct (matches pattern opts).
Qed.

(** C5, as amended.  Both argument builders call [glob] with [nonull]
    set, whatever the options of the command line say, and they hand
    on what [glob] returns: the expansion of a token by the bulk
    builder is the list [glob] returns for it.  So for a token on
    which [glob] answers as the expander of section 4.1 does, the
    expansion is not empty: a token without glob metacharacters
    expands to the token alone, and a pattern that matches nothing
    expands to the pattern alone.  The builders have no fallback of
    their own: for a token on which [glob] returns the empty list, the
    expansion is empty. *)
Theorem expansion_is_what_glob_returns (hasMagic : string -> bool)
  (matches : string -> GlobOpts -> list string) :
  (forall r pattern opts,
     In (EGlob pattern opts) (trace (run r)) ->
     opts !! "nonull" = Some (VBool true))
  /\ (forall token opts w,
        let opts' := <["nonull" := VBool true]> opts in
        let expansion := (eval (globArgs [token] opts) w).1 in
        expansion = glob token opts'
        /\ (glob token opts' = expand hasMagic matches token opts' ->
            expansion <> []
            /\ (hasMagic token = false -> expansion = [token])
            /\ (matches token opts' = [] -> expansion = [token]))).
Proof.
  split.
  - intros r pattern opts Hin. by apply (glob_calls_nonull r pattern opts).
  - intros token opts w. cbv zeta. rewrite globArgs_eval. cbn [fst map concat].
    rewrite app_nil_r. split; [done|]. intros ->.
    split; [apply expand_not_empty|]. unfold expand. split.
    + by intros ->.
    + intros ->. by destruct (hasMagic token).
Qed.

(** ** Each mode: one glob *)

Lemma findIndex_Some {A} (p : A -> bool) (l : list A) (i : nat) :
  findIndex p l = Some i -> exists x, l !! i = Some x /\ p x = true.
Proof.
  revert i. induction l as [|y l IH]; intros i; [done|]. cbn [findIndex].
  destruct (p y) eqn:Hy.
  - intros [= <-]. by exists y.
  - destruct (findIndex p l) as [j|]; [|done]. intros [= <-].
    destruct (IH j eq_refl) as (x & Hx & Hp). by exists x.
Qed.

Lemma findIndex_None {A} (p : A -> bool) (l : list A) :
  findIndex p l = None -> forall x, In x l -> p x = false.
Proof.
  induction l as [|y l IH]; [done|]. cbn [findIndex].
  destruct (p y) eqn:Hy; [done|].
  destruct (findIndex p l) as [j|]; [done|].
  intros _ x [<-|Hx]; [done|]. by apply IH.
Qed.

Lemma glob_tokens_none (args : list string) :
  (forall a, In a args -> isGlob a false = false) -> glob_tokens args = [].
Proof.
  unfold glob_tokens. induction args as [|a args IH]; [done|].
  intros H. cbn. rewrite (H a) by (by left). apply IH.
  intros b Hb. apply H. by right.
Qed.

(** C2, the defect.  [globArgsEach] counts the globs with the relaxed
    test of is-glob and looks for the glob with the strict one.  When
    the one token it counts does not pass the strict test, [findIndex]
    returns -1: the builder calls [glob] on [undefined] and not on the
    token, and it returns what that call throws, or one unchanged copy
    of the tokens for every value that call returns. *)
Theorem globArgsEach_glob_not_found (tokens : list string) (opts : GlobOpts)
  (w : World) :
  length (glob_tokens tokens) = 1%nat ->
  (forall a, In a tokens -> isGlob a true = false) ->
  (eval (globArgsEach tokens opts) w).1
  = match glob_undefined (<["nonull" := VBool true]> opts) with
    | inl err => inl err
    | inr values => inr (map (fun _ => tokens) values)
    end
  /\ actions (trace (exec (globArgsEach tokens opts) w))
     = actions (trace w) ++ [EGlob None (<["nonull" := VBool true]> opts)].
Proof.
  intros Hone Hstrict.
  destruct (globArgsEach_emits tokens opts w) as [[-> ->] _].
  unfold each_result, each_globs. rewrite Hone. cbn [fst].
  assert (findIndex (fun arg => isGlob arg true) tokens = None) as ->.
  { destruct (findIndex _ tokens) as [i|] eqn:Hi; [|done].
    apply findIndex_Some in Hi as (x & Hx & Hp).
    rewrite Hstrict in Hp; [done|].
    apply list_elem_of_In. by eapply list_elem_of_lookup_2. }
  cbn [index mbind option_bind assign]. split; [|done].
  by destruct (glob_undefined _).
Qed.

(** What [globArgsEach] returns when the two tests agree on every token:
    the tokens alone when none is a glob, and for one glob a copy of the
    tokens per match, the match in the place of the glob, in the order
    of the matches. *)
Lemma globArgsEach_when_tests_agree (tokens : list string) (opts : GlobOpts)
  (w : World) :
  (forall a, In a tokens -> isGlob a true = isGlob a false) ->
  (length (glob_tokens tokens) = 0%nat ->
   (eval (globArgsEach tokens opts) w).1 = inr [tokens])
  /\ (length (glob_tokens tokens) = 1%nat ->
      exists i p, tokens !! i = Some p /\ isGlob p false = true
        /\ (eval (globArgsEach tokens opts) w).1
           = inr (map (fun value => <[i := value]> tokens)
                      (glob p (<["nonull" := VBool true]> opts)))).
Proof.
  intros Hagree.
  destruct (globArgsEach_emits tokens opts w) as [[-> _] _].
  unfold each_result. cbn [fst]. split; intros Hlen; rewrite Hlen; [done|].
  destruct (findIndex (fun arg => isGlob arg true) tokens) as [i|] eqn:Hi.
  - destruct (findIndex_Some _ _ _ Hi) as (p & Hp & Hstrict).
    exists i, p. split; [done|]. split.
    + rewrite <- Hagree; [done|].
      apply list_elem_of_In. by eapply list_elem_of_lookup_2.
    + cbn [index mbind option_bind assign]. by rewrite Hp.
  - exfalso.
    assert (glob_tokens tokens = []) as Hnone.
    { apply glob_tokens_none. intros a Ha. rewrite <- Hagree by done.
      by apply (findIndex_None _ _ Hi). }
    by rewrite Hnone in Hlen.
Qed.

(** * Further properties *)

(** ** Configuration: the log level *)

Lemma yargs_object_verbose (r : YargsResult) :
  yargs_object r !! "verbose"
  = Some (VNum (Z.of_nat (y_verbose (yargs_flags r)))).
Proof.
  unfold yargs_object. skip_keys. by rewrite lookup_insert_eq.
Qed.

(** The count of [-v] flags, clamped as [parseArgv] does. *)
Lemma clamped_verbose (r : YargsResult) :
  2 - Z.max (2 - number (prop (yargs_object r ∪
        ({[ "_" := VArr []; "$0" := VStr script_path; "verbose" := VNum 0 ]}
           : gmap string JsVal)) "verbose")) 0
  = Z.min (Z.of_nat (y_verbose (yargs_flags r))) 2.
Proof.
  unfold prop.
  rewrite (lookup_union_Some_l _ _ _ _ (yargs_object_verbose r)).
  cbn [default number id]. lia.
Qed.

(** [parseArgv] sets [npmlog.level] from the count of [-v] flags, also
    when the parse failed: [info] without the flag, [verbose] for one,
    [silly] for two or more; the level it returns is the same. *)
Theorem parseArgv_log_level (r : YargsResult) (w : World) :
  let level :=
    match y_verbose (yargs_flags r) with
    | 0%nat => Info
    | 1%nat => Verbose
    | _ => Silly
    end in
  npmlog_level (exec (parseArgv r) w) = level
  /\ match parsed r with
     | ParseOk a => logLevel a = level
     | ParseError _ _ => True
     end.
Proof.
  cbv zeta.
  assert (level_of (Z.min (Z.of_nat (y_verbose (yargs_flags r))) 2)
          = match y_verbose (yargs_flags r) with
            | 0%nat => Info
            | 1%nat => Verbose
            | _ => Silly
            end) as Hlevel.
  { destruct (y_verbose (yargs_flags r)) as [|[|v]]; [done|done|].
    rewrite Z.min_r by lia. done. }
  rewrite <- Hlevel, <- clamped_verbose. split.
  - done.
  - by destruct r.
Qed.

(** ** Configuration: the keys of the option object *)

Lemma globOpts_lookup (r : YargsResult) (a : Argv) (k : string) :
  parsed r = ParseOk a ->
  globOpts a !! k = if nonGlobFlag k then None else translated r !! k.
Proof.
  intros Hp. pose proof (parsed_translated r) as H. rewrite Hp in H.
  destruct H as (_ & _ & _ & ->).
  apply option_eq. intros x. rewrite map_lookup_filter_Some. cbn [fst].
  destruct (nonGlobFlag k); split; try done.
  - by intros [_ ?].
  - by intros [? _].
Qed.

(** No option of globstar itself reaches [glob]: the object [parseArgv]
    hands on has none of the keys [$0], [verbose], [each] and [node], and
    no key of one character (the aliases [i], [n], [v], [e] and the
    positional arguments [_]). *)
Theorem globOpts_drops_own_flags (r : YargsResult) (a : Argv) (k : string) :
  parsed r = ParseOk a ->
  k = "$0" \/ k = "verbose" \/ k = "each" \/ k = "node" \/ String.length k = 1%nat ->
  globOpts a !! k = None.
Proof.
  intros Hp Hk. rewrite (globOpts_lookup r a k Hp).
  assert (nonGlobFlag k = true) as ->; [|done].
  unfold nonGlobFlag.
  destruct Hk as [->|[->|[->|[->|Hk]]]]; try done.
  repeat case_decide; try done. by rewrite Hk.
Qed.

Lemma yargs_object_other (r : YargsResult) (k : string) :
  nonGlobFlag k = false -> k <> "nodir" -> k <> "ignore" ->
  yargs_object r !! k = y_other (yargs_flags r) !! k.
Proof.
  intros Hk Hnodir Hignore. unfold yargs_object.
  assert (forall key, nonGlobFlag key = true -> key <> k) as Hne.
  { intros key Hkey ->. congruence. }
  do 2 (rewrite lookup_insert_ne by (by apply Hne)).
  rewrite boolean_lookup_ne by done.
  do 2 (rewrite boolean_lookup_ne by (by apply Hne)).
  do 2 (rewrite lookup_insert_ne by (by apply Hne)).
  do 2 (rewrite boolean_lookup_ne by (by apply Hne)).
  destruct (y_ignore _); [|done].
  rewrite lookup_insert_ne by (by apply Hne).
  by rewrite lookup_insert_ne.
Qed.

(** Every other option of the command line reaches [glob] as yargs
    parsed it: [nodir] with its value when it is on the command line
    and no [nodir] key when it is not, and an option that is not
    declared to yargs (say [--dot]) under its own name, provided the
    name has more than one character. *)
Theorem globOpts_passes_options_on (c : string) (rest : list string)
  (f : YargsFlags) (a : Argv) :
  parsed (YargsOk c rest f) = ParseOk a ->
  globOpts a !! "nodir" = VBool <$> y_nodir f
  /\ (forall k, nonGlobFlag k = false -> k <> "nodir" -> k <> "ignore" ->
        globOpts a !! k = y_other f !! k).
Proof.
  intros Hp. split.
  - rewrite (globOpts_lookup _ a "nodir" Hp). cbn [nonGlobFlag].
    change (nonGlobFlag "nodir") with false. cbv iota.
    unfold translated, prop.
    assert (forall (o : gmap string JsVal) v,
      (if truthy (default VUndef (o !! "node"))
       then <["ignore" := v o]> o else o) !! "nodir" = o !! "nodir") as Hnode.
    { intros o v. destruct (truthy _); [|done]. by rewrite lookup_insert_ne. }
    rewrite (Hnode _ (fun o => VArr (array_or_empty (default VUndef (o !! "ignore"))
                                       ++ ["**/node_modules/**"]))).
    rewrite base_lookup by done.
    unfold yargs_object.
    do 2 (rewrite lookup_insert_ne by done). apply boolean_lookup.
  - intros k Hk Hnodir Hignore.
    rewrite (globOpts_lookup _ a k Hp), Hk.
    unfold translated, prop.
    assert (forall (o : gmap string JsVal) v,
      (if truthy (default VUndef (o !! "node"))
       then <["ignore" := v o]> o else o) !! k = o !! k) as Hnode.
    { intros o v. destruct (truthy _); [|done]. by rewrite lookup_insert_ne. }
    rewrite (Hnode _ (fun o => VArr (array_or_empty (default VUndef (o !! "ignore"))
                                       ++ ["**/node_modules/**"]))).
    rewrite base_lookup.
    + by apply (yargs_object_other (YargsOk c rest f)).
    + intros ->. discriminate.
    + intros ->. discriminate.
    + intros ->. discriminate.
Qed.

(** ** What a run spawns *)

Lemma filter_actions (P : Event -> bool) (t : list Event) :
  (forall e, P e = true -> is_log e = false) ->
  List.filter P (actions t) = List.filter P t.
Proof.
  intros HP. unfold actions. induction t as [|e t IH]; [done|]. cbn.
  destruct (is_log e) eqn:He; cbn.
  - destruct (P e) eqn:HPe; [|done]. apply HP in HPe. congruence.
  - by rewrite IH.
Qed.

Lemma run_filter (P : Event -> bool) (r : YargsResult) :
  (forall e, P e = true -> is_log e = false) ->
  List.filter P (trace (run r))
  = List.filter P (expansions r) ++
    List.filter P
      match invocations r with
      | inl err => [EExit (status_or_1 err)]
      | inr values => schedule 0 (command r) values (finish r)
      end.
Proof.
  intros HP.
  by rewrite <- (filter_actions P) by done;
    rewrite actions_run_command, List.filter_app.
Qed.

Lemma filter_none (P : Event -> bool) (t : list Event) :
  forallb (fun e => negb (P e)) t = true -> List.filter P t = [].
Proof.
  induction t as [|e t IH]; [done|]. cbn.
  destruct (P e); [done|]. apply IH.
Qed.

Lemma finish_shape (r : YargsResult) : finish r = [] \/ finish r = [EExit 0].
Proof.
  unfold finish. destruct (parsed r) as [err d0|a]; [by left|].
  destruct (truthy (each a)); [by left|by right].
Qed.

Lemma schedule_spawn_in cmd values fin k0 k c a v :
  spawns fin = [] ->
  In (ESpawn k c a v) (schedule k0 cmd values fin) ->
  exists value, In value values /\ ESpawn k c a v = spawn_event k cmd value.
Proof.
  intros Hfin. revert k0. induction values as [|value rest IH]; intros k0 Hin.
  - exfalso. cbn in Hin.
    assert (In (ESpawn k c a v) (spawns fin)) as H.
    { apply List.filter_In. by split. }
    by rewrite Hfin in H.
  - cbn [schedule] in Hin. destruct Hin as [Hin|Hin].
    + exists value. split; [by left|].
      unfold spawn_event in *. by injection Hin as <- <- <- <-.
    + destruct (child k0) as [|ev evs]; [done|].
      destruct Hin as [Hin|Hin]; [done|].
      destruct (result_of ev).
      * destruct Hin as [Hin|[]]. done.
      * destruct (IH _ Hin) as (value' & Hv & Heq).
        exists value'. split; [by right|done].
Qed.

(** Every child of a run is spawned for one of the argument lists the
    builder returned: directly, with the command of the command line
    and that list, or on win32 through [cmd /c] with the command in
    double quotes, the list after it, and verbatim arguments. *)
Theorem spawns_use_built_lists (r : YargsResult) (k : nat) (c : string)
  (a : list string) (v : bool) :
  In (ESpawn k c a v) (trace (run r)) ->
  exists values value,
    invocations r = inr values /\ In value values /\ v = win32
    /\ if win32
       then c = "cmd" /\ a = "/c" :: (dquote +:+ command r +:+ dquote) :: value
       else c = command r /\ a = value.
Proof.
  intros Hin. apply in_trace_actions in Hin; [|done].
  rewrite actions_run_command in Hin. apply in_app_or in Hin as [Hin|Hin].
  { by destruct (not_in_globs (ESpawn k c a v) _ (expansions_globs r)
                  eq_refl Hin). }
  destruct (invocations r) as [err|values].
  { destruct Hin as [Hin|[]]. done. }
  apply schedule_spawn_in in Hin as (value & Hv & Heq).
  - exists values, value. split; [done|]. split; [done|].
    unfold spawn_event, command_line in Heq.
    destruct win32; cbn in Heq; by injection Heq as -> -> ->.
  - by destruct (finish_shape r) as [-> | ->].
Qed.

Lemma spawns_schedule_one cmd value fin :
  spawns fin = [] ->
  spawns (schedule 0 cmd [value] fin) = [spawn_event 0 cmd value].
Proof.
  intros Hfin. cbn [schedule]. unfold spawns, spawn_event in *. cbn.
  destruct (child 0) as [|ev evs]; [done|]. cbn.
  destruct (result_of ev); [done|]. by rewrite Hfin.
Qed.

(** In each mode, when no token counts as a glob, a run makes no call of
    [glob] and spawns the command once, with the tokens as they are. *)
Theorem each_without_glob_runs_once (c : string) (rest : list string)
  (f : YargsFlags) :
  y_each f = true ->
  glob_tokens rest = [] ->
  glob_calls (trace (run (YargsOk c rest f))) = []
  /\ spawns (trace (run (YargsOk c rest f))) = [spawn_event 0 c rest].
Proof.
  intros He Hnone.
  destruct (invocations_each c rest f He) as (a & Hp & Hi & Hx & Hf).
  assert (invocations (YargsOk c rest f) = inr [rest]) as Hinv.
  { rewrite Hi. unfold each_result. by rewrite Hnone. }
  assert (expansions (YargsOk c rest f) = []) as Hexp.
  { rewrite Hx. unfold each_globs. by rewrite Hnone. }
  split.
  - unfold glob_calls. rewrite run_filter by (by intros []).
    rewrite Hexp, Hinv, Hf. cbn [app command schedule]. unfold spawn_event. cbn.
    destruct (child 0) as [|ev evs]; [done|]. cbn. by destruct (result_of ev).
  - unfold spawns. rewrite run_filter by (by intros []).
    rewrite Hexp, Hinv, Hf. cbn [app command List.filter].
    by apply spawns_schedule_one.
Qed.

(** ** How a run ends *)

Lemma exit_calls_cons (e : Event) (t : list Event) :
  exit_calls (e :: t)
  = match e with EExit c => [c] | _ => [] end ++ exit_calls t.
Proof. by destruct e. Qed.

Lemma exit_calls_schedule_le cmd values fin k :
  (length (exit_calls fin) <= 1)%nat ->
  (length (exit_calls (schedule k cmd values fin)) <= 1)%nat.
Proof.
  intros Hfin. revert k. induction values as [|value rest IH]; intros k; [done|].
  cbn [schedule]. unfold spawn_event. rewrite exit_calls_cons. cbn [app].
  destruct (child k) as [|ev evs]; [cbn; lia|].
  rewrite exit_calls_cons. cbn [app].
  destruct (result_of ev); [cbn; lia|]. apply IH.
Qed.

(** A run calls [exit] at most once, whatever the children do (also
    when a child emits ['error'] and then ['close']). *)
Theorem exit_called_at_most_once (r : YargsResult) :
  (length (exit_calls (trace (run r))) <= 1)%nat.
Proof.
  rewrite <- exit_calls_actions, actions_run_command, exit_calls_app.
  rewrite (exit_calls_globs _ (expansions_globs r)). cbn [app].
  destruct (invocations r) as [err|values]; [cbn; lia|].
  apply exit_calls_schedule_le.
  destruct (finish_shape r) as [-> | ->]; cbn; lia.
Qed.

Lemma status_or_1_nonzero (err : JsError) : status_or_1 err <> 0.
Proof.
  unfold status_or_1. destruct (status err) as [s|]; [|done].
  destruct (s =? 0) eqn:E; [done|]. lia.
Qed.

(** A run that ends on an error never reports success: when the parse
    or the argument builder fails with [err], or a completion callback
    gets [err], the exit code of the process is [err.status || 1], which
    is not 0. *)
Theorem failure_never_exits_zero (r : YargsResult) (err : JsError) :
  invocations r = inl err \/ (exists k, In (EDone k (Some err)) (trace (run r))) ->
  process_exit_code (trace (run r)) = status_or_1 err
  /\ process_exit_code (trace (run r)) <> 0.
Proof.
  intros H.
  assert (process_exit_code (trace (run r)) = status_or_1 err) as Hcode.
  { rewrite process_exit_code_run. destruct H as [-> | [k Hin]]; [done|].
    apply in_trace_actions in Hin; [|done].
    rewrite actions_run_command in Hin. apply in_app_or in Hin as [Hin|Hin].
    { by destruct (not_in_globs (EDone k (Some err)) _ (expansions_globs r)
                    eq_refl Hin). }
    destruct (invocations r) as [err'|values].
    { destruct Hin as [Hin|[]]. done. }
    apply schedule_done in Hin as (ev & _ & _ & ->); [done|].
    by destruct (finish_shape r) as [-> | ->]. }
  split; [done|]. rewrite Hcode. apply status_or_1_nonzero.
Qed.

(** ** One child at a time *)

Lemma schedule_shape cmd values fin k :
  exists n tail,
    schedule k cmd values fin = completed k cmd (take n values) ++ tail
    /\ ((n = length values /\ tail = fin)
        \/ (exists value, values !! n = Some value
              /\ ((child (k + n) = []
                   /\ tail = [spawn_event (k + n) cmd value])
                  \/ (exists ev err,
                        head (child (k + n)) = Some ev
                        /\ result_of ev = Some err
                        /\ tail = [spawn_event (k + n) cmd value;
                                   EDone (k + n) (Some err);
                                   EExit (status_or_1 err)])))).
Proof.
  revert k. induction values as [|value rest IH]; intros k.
  - exists 0%nat, fin. split; [done|]. by left.
  - cbn [schedule]. destruct (child k) as [|ev evs] eqn:Hchild.
    + exists 0%nat, [spawn_event k cmd value]. split; [done|]. right.
      exists value. split; [done|]. left. by rewrite Nat.add_0_r.
    + destruct (result_of ev) as [err|] eqn:Hres.
      * exists 0%nat, [spawn_event k cmd value; EDone k (Some err);
                       EExit (status_or_1 err)].
        split; [done|]. right. exists value. split; [done|]. right.
        exists ev, err. rewrite Nat.add_0_r, Hchild. done.
      * destruct (IH (S k)) as (n & tail & Heq & Hcases).
        exists (S n), tail. split.
        { cbn [take completed app]. by rewrite Heq. }
        replace (k + S n)%nat with (S k + n)%nat by lia.
        destruct Hcases as [[-> ->]|(value' & Hv & Hcase)]; [by left|].
        right. exists value'. done.
Qed.

(** Whatever the children do, the process events of a run on the
    argument lists [values] are: for the first [n] lists in turn, the
    spawn of a child followed by its successful completion; and then
    the end of the run (all lists done: [exit(0)] in bulk mode, nothing
    in each mode), or the spawn of the child for list [n] that never
    reports, or that spawn, the failed completion, and the exit.  So a
    child is spawned only when the one before it has completed well,
    and nothing is spawned after a failure. *)
Theorem one_child_at_a_time (r : YargsResult) (values : list (list string)) :
  invocations r = inr values ->
  exists n tail,
    processes (trace (run r))
    = completed 0 (command r) (take n values) ++ tail
    /\ ((n = length values /\ tail = finish r)
        \/ (exists value, values !! n = Some value
              /\ ((child n = []
                   /\ tail = [spawn_event n (command r) value])
                  \/ (exists ev err,
                        head (child n) = Some ev
                        /\ result_of ev = Some err
                        /\ tail = [spawn_event n (command r) value;
                                   EDone n (Some err);
                                   EExit (status_or_1 err)])))).
Proof.
  intros Hinv. rewrite processes_run, Hinv.
  destruct (schedule_shape (command r) values (finish r) 0)
    as (n & tail & Heq & Hcases).
  exists n, tail. split; [|exact Hcases].
  rewrite Heq. apply processes_all.
  rewrite forallb_app, completed_processes. cbn [andb].
  destruct Hcases as [[_ ->]|(value & _ & [[_ ->]|(ev & err & _ & _ & ->)])];
    [|done|done].
  by destruct (finish_shape r) as [-> | ->].
Qed.

(** ** Children ended by a signal *)

Lemma schedule_succeed_from cmd values fin k :
  (forall i, (i < length values)%nat ->
     exists ev, head (child (k + i)) = Some ev /\ result_of ev = None) ->
  schedule k cmd values fin = completed k cmd values ++ fin.
Proof.
  revert k. induction values as [|value rest IH]; intros k Hok; [done|].
  cbn [schedule completed app length] in *.
  destruct (Hok 0%nat ltac:(lia)) as (ev & Hev & Hres).
  rewrite Nat.add_0_r in Hev.
  destruct (child k) as [|ev' evs]; [done|]. cbn in Hev. injection Hev as ->.
  rewrite Hres, IH; [done|].
  intros i Hi. replace (S k + i)%nat with (k + S i)%nat by lia.
  apply Hok. lia.
Qed.

(** A child that a signal ended reports ['close'] with the status
    [null], which the runner takes for success like the status 0: when
    every child ends in one of the two ways, every argument list is run,
    in bulk mode [exit(0)] is called, and the exit code of the process
    is 0. *)
Theorem signal_ended_child_counts_as_success (r : YargsResult)
  (values : list (list string)) :
  invocations r = inr values ->
  (forall k, (k < length values)%nat ->
     head (child k) = Some (EvClose None)
     \/ head (child k) = Some (EvClose (Some 0))) ->
  processes (trace (run r)) = completed 0 (command r) values ++ finish r
  /\ process_exit_code (trace (run r)) = 0.
Proof.
  intros Hinv Hok.
  assert (schedule 0 (command r) values (finish r)
          = completed 0 (command r) values ++ finish r) as Hsched.
  { apply schedule_succeed_from. intros i Hi. cbn [Nat.add].
    destruct (Hok i Hi) as [H|H]; eexists; (split; [exact H|done]). }
  split.
  - rewrite processes_run, Hinv, Hsched. apply processes_all.
    rewrite forallb_app, completed_processes.
    by destruct (finish_shape r) as [-> | ->].
  - rewrite process_exit_code_run, Hinv, Hsched.
    rewrite exit_calls_app, exit_calls_completed. apply finish_exit.
Qed.

(** ** The calls of [glob] *)

Lemma glob_calls_schedule cmd values fin k :
  glob_calls fin = [] -> glob_calls (schedule k cmd values fin) = [].
Proof.
  intros Hfin. revert k. induction values as [|value rest IH]; intros k; [done|].
  cbn [schedule]. unfold glob_calls, spawn_event. cbn.
  destruct (child k) as [|ev evs]; [done|]. cbn.
  destruct (result_of ev); [done|]. apply IH.
Qed.

Lemma glob_calls_all (t : list Event) :
  forallb is_glob_call t = true -> glob_calls t = t.
Proof.
  unfold glob_calls. induction t as [|e t IH]; [done|]. cbn.
  destruct (is_glob_call e); [|done]. cbn. intros H. by rewrite IH.
Qed.

Lemma glob_calls_run (r : YargsResult) :
  glob_calls (trace (run r)) = expansions r.
Proof.
  unfold glob_calls. rewrite run_filter by (by intros []).
  fold (glob_calls (expansions r)).
  rewrite (glob_calls_all _ (expansions_globs r)).
  destruct (invocations r) as [err|values]; [by rewrite app_nil_r|].
  fold (glob_calls (schedule 0 (command r) values (finish r))).
  rewrite glob_calls_schedule; [by rewrite app_nil_r|].
  by destruct (finish_shape r) as [-> | ->].
Qed.

Lemma index_findIndex_Some (p : string -> bool) (l : list string) (x : string) :
  index l (findIndex p l) = Some x -> In x l /\ p x = true.
Proof.
  unfold index. destruct (findIndex p l) as [i|] eqn:Hi; [|done].
  cbn. intros Hx. destruct (findIndex_Some p l i Hi) as (y & Hy & Hp).
  assert (y = x) as -> by congruence. split; [|done].
  apply list_elem_of_In. by eapply list_elem_of_lookup_2.
Qed.

(** In each mode a run calls [glob] at most once, and only when one
    token counts as a glob; the pattern of the call, when it is a
    string, is a token that passes the strict test. *)
Theorem each_expands_at_most_one_token (c : string) (rest : list string)
  (f : YargsFlags) :
  y_each f = true ->
  (length (glob_calls (trace (run (YargsOk c rest f)))) <= 1)%nat
  /\ (forall p o, In (EGlob p o) (trace (run (YargsOk c rest f))) ->
        length (glob_tokens rest) = 1%nat
        /\ forall token, p = Some token ->
             In token rest /\ isGlob token true = true).
Proof.
  intros He. destruct (invocations_each c rest f He) as (a & Hp & _ & Hx & _).
  assert (forall e, In e (trace (run (YargsOk c rest f))) ->
            is_glob_call e = true -> In e (each_globs rest (globOpts a))) as Hin.
  { intros e Hin He'. rewrite <- Hx, <- glob_calls_run.
    apply List.filter_In. by split. }
  split.
  - rewrite glob_calls_run, Hx. unfold each_globs.
    destruct (length (glob_tokens rest)) as [|[|n]]; cbn; lia.
  - intros p o Hpo. apply Hin in Hpo; [|done]. unfold each_globs in Hpo.
    destruct (length (glob_tokens rest)) as [|[|n]]; try done.
    split; [done|]. intros token ->.
    destruct Hpo as [Hpo|[]]. injection Hpo as Hidx _.
    by apply index_findIndex_Some in Hidx.
Qed.

(** ** Each mode: the argument lists *)

Lemma glob_tokens_nil (tokens : list string) (i : nat) (p : string) :
  glob_tokens tokens = [] -> tokens !! i = Some p -> isGlob p false = false.
Proof.
  unfold glob_tokens. revert i.
  induction tokens as [|a tokens IH]; intros i Hnil Hp; [done|].
  cbn [List.filter] in Hnil. destruct (isGlob a false) eqn:Ha; [done|].
  destruct i as [|i].
  - by injection Hp as <-.
  - by apply (IH i).
Qed.

(** When one token counts as a glob, it has one place in the list. *)
Lemma glob_token_unique (tokens : list string) (i j : nat) (p q : string) :
  length (glob_tokens tokens) = 1%nat ->
  tokens !! i = Some p -> isGlob p false = true ->
  tokens !! j = Some q -> isGlob q false = true ->
  j = i.
Proof.
  revert i j. induction tokens as [|a tokens IH]; intros i j Hone Hp HP Hq HQ;
    [done|].
  unfold glob_tokens in Hone. cbn [List.filter] in Hone.
  destruct (isGlob a false) eqn:Ha.
  - assert (glob_tokens tokens = []) as Hnil.
    { unfold glob_tokens. cbn [length] in Hone.
      destruct (List.filter _ tokens); [done|discriminate Hone]. }
    destruct i as [|i], j as [|j]; [done| | |].
    + pose proof (glob_tokens_nil tokens j q Hnil Hq). congruence.
    + pose proof (glob_tokens_nil tokens i p Hnil Hp). congruence.
    + pose proof (glob_tokens_nil tokens i p Hnil Hp). congruence.
  - destruct i as [|i]; [injection Hp as <-; congruence|].
    destruct j as [|j]; [injection Hq as <-; congruence|].
    f_equal. by apply (IH i j Hone Hp HP Hq HQ).
Qed.

(** When the relaxed and the strict test of is-glob agree on the tokens
    and one token is a glob, [globArgsEach] expands that token, which
    has one place in the token list, and returns as many lists as
    [glob] returns matches for it, in the order of the matches; the
    list for a match is as long as the token list, has the match in
    the place of the glob, and the tokens of the command line in every
    other place. *)
Theorem each_lists_differ_at_the_glob_only (tokens : list string)
  (opts : GlobOpts) (w : World) :
  (forall a, In a tokens -> isGlob a true = isGlob a false) ->
  length (glob_tokens tokens) = 1%nat ->
  exists (i : nat) (p : string) (lists : list (list string)),
    tokens !! i = Some p
    /\ isGlob p false = true
    /\ (forall j q, tokens !! j = Some q -> isGlob q false = true -> j = i)
    /\ (eval (globArgsEach tokens opts) w).1 = inr lists
    /\ length lists = length (glob p (<["nonull" := VBool true]> opts))
    /\ forall (n : nat) (l : list string),
         lists !! n = Some l ->
         length l = length tokens
         /\ l !! i = glob p (<["nonull" := VBool true]> opts) !! n
         /\ forall j, j <> i -> l !! j = tokens !! j.
Proof.
  intros Hagree Hone.
  destruct (globArgsEach_when_tests_agree tokens opts w Hagree) as [_ H].
  destruct (H Hone) as (i & p & Hp & Hglob & Hres).
  exists i, p, (map (fun value => <[i := value]> tokens)
                    (glob p (<["nonull" := VBool true]> opts))).
  split; [done|]. split; [done|].
  split; [intros j q Hq HQ; by apply (glob_token_unique tokens i j p q)|].
  split; [done|]. split; [by rewrite length_map|].
  intros n l Hl. rewrite list_lookup_fmap in Hl.
  destruct (glob p _ !! n) as [value|] eqn:Hvalue; [|done].
  cbn in Hl. injection Hl as <-. split; [by rewrite length_insert|]. split.
  - apply list_lookup_insert_eq. by eapply lookup_lt_Some.
  - intros j Hj. by apply list_lookup_insert_ne.
Qed.

(** ** The whole trace of a run *)

Lemma traces_ret {A} (a : A) (w : World) : traces (ret a) w [].
Proof. split; [done|]. cbn. by rewrite app_nil_r. Qed.

Lemma traces_tell (e : Event) (w : World) : traces (tell e) w [e].
Proof. done. Qed.

Lemma traces_log l prefix msg (w : World) :
  traces (npmlog_log l prefix msg) w (record (npmlog_level w) l prefix msg).
Proof.
  unfold traces, exec, npmlog_log, record. destruct (shown _ _); cbn.
  - done.
  - by rewrite app_nil_r.
Qed.

Lemma traces_bind {A B} (m : M A) (f : A -> M B) w t1 t2 :
  traces m w t1 ->
  traces (f (eval m w)) (exec m w) t2 ->
  traces (bind m f) w (t1 ++ t2).
Proof.
  intros [Hl1 H1] [Hl2 H2]. split.
  - by rewrite exec_bind, Hl2.
  - by rewrite exec_bind, H2, H1, app_assoc.
Qed.

Lemma traces_log_at l prefix msg (w : World) (level : LogLevel) :
  npmlog_level w = level ->
  traces (npmlog_log l prefix msg) w (record level l prefix msg).
Proof. intros <-. apply traces_log. Qed.

Lemma traces_level {A} (m : M A) (w : World) (t : list Event) :
  traces m w t -> npmlog_level (exec m w) = npmlog_level w.
Proof. by intros [? _]. Qed.

Lemma errorHandler_traces dollar0 result w :
  traces (errorHandler dollar0 result) w
    match result with
    | Some err => error_report (npmlog_level w) dollar0 err
    | None => [EExit 0]
    end.
Proof.
  destruct result as [err|]; [|apply traces_tell].
  unfold errorHandler, error_report.
  apply traces_bind; [|apply traces_tell].
  destruct (negb _); [|apply traces_ret].
  apply (traces_bind get_level _ w []); [apply (traces_ret (npmlog_level w))|].
  cbn [eval exec get_level fst snd].
  assert (traces (if decide (npmlog_level w = Silly)
                  then npmlog_log Error "globstar" (MsgError err)
                  else npmlog_log Error "globstar" (MsgText (message err))) w
            (record (npmlog_level w) Error "globstar"
               (if decide (npmlog_level w = Silly) then MsgError err
                else MsgText (message err)))) as Hfirst.
  { destruct (decide _); apply traces_log. }
  apply traces_bind; [exact Hfirst|].
  apply traces_bind.
  - apply traces_log_at. apply (traces_level _ _ _ Hfirst).
  - apply traces_log_at. rewrite exec_log_level.
    apply (traces_level _ _ _ Hfirst).
Qed.

Lemma spawnCommand_traces_none cmd args cb w :
  child (spawned w) = [] ->
  traces (spawnCommand cmd args cb) w
    (running_record (npmlog_level w) cmd args
     ++ [spawn_event (spawned w) cmd args]).
Proof.
  intros Hchild.
  destruct (traces_log Verbose "globstar"
    (MsgRunning (command_line cmd args).1.1 (command_line cmd args).1.2) w)
    as [Hl Ht].
  assert (exec (spawnCommand cmd args cb) w
          = mkWorld
              (npmlog_level (exec (npmlog_log Verbose "globstar"
                 (MsgRunning (command_line cmd args).1.1
                             (command_line cmd args).1.2)) w))
              (trace (exec (npmlog_log Verbose "globstar"
                 (MsgRunning (command_line cmd args).1.1
                             (command_line cmd args).1.2)) w)
               ++ [spawn_event (spawned w) cmd args])
              (S (spawned w))) as Hexec.
  { unfold exec at 1. rewrite spawnCommand_unfold.
    rewrite bind_unfold, bind_unfold. cbn [eval spawn fst exec snd].
    by rewrite exec_log_spawned, Hchild. }
  unfold traces. rewrite Hexec.
  split; cbn [npmlog_level trace]; [exact Hl|].
  rewrite Ht. unfold running_record. by rewrite <- app_assoc.
Qed.

Lemma spawnCommand_traces_first cmd args cb w ev rest t :
  child (spawned w) = ev :: rest ->
  (forall w', spawned w' = S (spawned w) ->
     npmlog_level w' = npmlog_level w ->
     traces (cb (result_of ev)) w' t) ->
  traces (spawnCommand cmd args cb) w
    (running_record (npmlog_level w) cmd args
     ++ spawn_event (spawned w) cmd args
        :: EDone (spawned w) (result_of ev) :: t).
Proof.
  intros Hchild Hcb.
  pose proof (spawnCommand_first cmd args cb w ev rest Hchild) as Heq.
  cbv zeta in Heq.
  destruct (traces_log Verbose "globstar"
    (MsgRunning (command_line cmd args).1.1 (command_line cmd args).1.2) w)
    as [Hl Ht].
  match type of Heq with _ = cb _ ?w1 =>
    assert (exec (spawnCommand cmd args cb) w = exec (cb (result_of ev)) w1)
      as Hexec by (unfold exec at 1 2; by rewrite Heq);
    destruct (Hcb w1) as [Hl1 Ht1]; [done|exact Hl|]
  end.
  unfold traces. rewrite Hexec, Hl1, Ht1. cbn [npmlog_level trace].
  split; [exact Hl|]. rewrite Ht. unfold running_record, spawn_event.
  by rewrite <- !app_assoc.
Qed.

Lemma forAwait_traces cmd dollar0 values w :
  traces (forAwait cmd values (errorHandler dollar0)) w
    (logged_schedule (npmlog_level w) dollar0 (spawned w) cmd values []).
Proof.
  revert w. induction values as [|value rest IH]; intros w.
  - apply traces_ret.
  - cbn [forAwait logged_schedule].
    destruct (child (spawned w)) as [|ev evs] eqn:Hchild.
    + by apply spawnCommand_traces_none.
    + apply (spawnCommand_traces_first _ _ _ _ ev evs); [done|].
      intros w' Hs Hl. destruct (result_of ev) as [err|].
      * rewrite <- Hl. apply (errorHandler_traces dollar0 (Some err)).
      * rewrite <- Hl, <- Hs. apply IH.
Qed.

Lemma bulk_traces cmd dollar0 value w :
  traces (spawnCommand cmd value (errorHandler dollar0)) w
    (logged_schedule (npmlog_level w) dollar0 (spawned w) cmd [value]
       [EExit 0]).
Proof.
  cbn [logged_schedule].
  destruct (child (spawned w)) as [|ev evs] eqn:Hchild.
  - by apply spawnCommand_traces_none.
  - apply (spawnCommand_traces_first _ _ _ _ ev evs); [done|].
    intros w' Hs Hl. rewrite <- Hl.
    pose proof (errorHandler_traces dollar0 (result_of ev) w') as H.
    by destruct (result_of ev).
Qed.

Lemma mapM_glob_sync_traces (args : list string) (opts : GlobOpts) (w : World) :
  traces (mapM (fun arg => glob_sync arg opts) args) w
    (map (fun arg => EGlob (Some arg) opts) args).
Proof.
  revert w. induction args as [|a args IH]; intros w; [apply traces_ret|].
  cbn [mapM map].
  apply (traces_bind _ _ _ [EGlob (Some a) opts]).
  { unfold glob_sync.
    apply (traces_bind _ _ _ [EGlob (Some a) opts] []);
      [apply traces_tell|apply traces_ret]. }
  rewrite <- (app_nil_r (map _ args)).
  apply traces_bind; [apply IH|apply traces_ret].
Qed.

Lemma globArgs_traces (args : list string) (opts : GlobOpts) (w : World) :
  traces (globArgs args opts) w
    (record (npmlog_level w) Silly "globstar"
       (MsgOpts (<["nonull" := VBool true]> opts))
     ++ map (fun arg => EGlob (Some arg) (<["nonull" := VBool true]> opts))
            args).
Proof.
  unfold globArgs. apply traces_bind; [apply traces_log|].
  rewrite <- (app_nil_r (map _ args)).
  apply traces_bind; [apply mapM_glob_sync_traces|apply traces_ret].
Qed.

Lemma globArgsEach_traces (args : list string) (opts : GlobOpts) (w : World) :
  traces (globArgsEach args opts) w
    (record (npmlog_level w) Silly "globstar"
       (MsgOpts (<["nonull" := VBool true]> opts))
     ++ each_globs args opts).
Proof.
  unfold globArgsEach. apply traces_bind; [apply traces_log|].
  unfold each_globs. rewrite globCount_length.
  destruct (length (glob_tokens args)) as [|[|n]] eqn:Hn.
  - apply traces_ret.
  - change (1 <? 0 + Z.of_nat 1) with false.
    change (0 + Z.of_nat 1 <=? 0) with false. cbv iota.
    match goal with |- traces _ _ [?e] =>
      apply (traces_bind _ _ _ [e] [])
    end.
    + unfold glob_sync_any, glob_sync.
      destruct (index args _) as [p|].
      * apply (traces_bind _ _ _ [EGlob (Some p) _] []); [|apply traces_ret].
        apply (traces_bind _ _ _ [EGlob (Some p) _] []);
          [apply traces_tell|apply traces_ret].
      * apply (traces_bind _ _ _ [EGlob None _] []);
          [apply traces_tell|apply traces_ret].
    + destruct (eval _ _); apply traces_ret.
  - replace (1 <? 0 + Z.of_nat (S (S n))) with true
      by (symmetry; apply Z.ltb_lt; lia).
    apply traces_ret.
Qed.

Lemma parseArgv_level (r : YargsResult) (w : World) :
  npmlog_level (exec (parseArgv r) w) = verbosity r.
Proof.
  unfold verbosity.
  assert (level_of (Z.min (Z.of_nat (y_verbose (yargs_flags r))) 2)
          = match y_verbose (yargs_flags r) with
            | 0%nat => Info
            | 1%nat => Verbose
            | _ => Silly
            end) as <-.
  { destruct (y_verbose (yargs_flags r)) as [|[|v]]; [done|done|].
    rewrite Z.min_r by lia. done. }
  by rewrite <- clamped_verbose.
Qed.

(** The trace of a run, log records and all. *)
Lemma trace_run (r : YargsResult) :
  trace (run r)
  = match parsed r with
    | ParseError err dollar0 => error_report (verbosity r) dollar0 err
    | ParseOk a =>
        record (verbosity r) Silly "globstar"
          (MsgOpts (<["nonull" := VBool true]> (globOpts a)))
        ++ expansions r
        ++ match invocations r with
           | inl err => error_report (verbosity r) (dollar0 a) err
           | inr values =>
               logged_schedule (verbosity r) (dollar0 a) 0 (cmd a) values
                 (finish r)
           end
    end.
Proof.
  unfold run, main. rewrite exec_bind.
  destruct (parseArgv_exec r initial) as (Hev & Htr & Hsp).
  pose proof (parseArgv_level r initial) as Hlv.
  rewrite Hev. unfold invocations, expansions, finish.
  destruct (parsed r) as [err dollar0|a].
  - destruct (errorHandler_traces dollar0 (Some err) (exec (parseArgv r) initial))
      as [_ H].
    by rewrite H, Htr, Hlv.
  - destruct (truthy (each a)).
    + unfold mainEach. rewrite exec_bind.
      destruct (globArgsEach_emits (args a) (globOpts a)
                  (exec (parseArgv r) initial)) as [[Hv _] Hs].
      destruct (globArgsEach_emits (args a) (globOpts a) initial)
        as [[Hv0 Ha0] _].
      destruct (globArgsEach_traces (args a) (globOpts a)
                  (exec (parseArgv r) initial)) as [Hl Ht].
      rewrite Hv, Hv0, Ha0. cbn [fst trace initial actions List.filter app].
      rewrite Htr, Hlv in Ht. cbn [trace initial app] in Ht.
      destruct (each_result (args a) (globOpts a)) as [err|values].
      * destruct (errorHandler_traces (dollar0 a) (Some err)
          (exec (globArgsEach (args a) (globOpts a)) (exec (parseArgv r) initial)))
          as [_ H].
        by rewrite H, Ht, Hl, Hlv, <- app_assoc.
      * destruct (forAwait_traces (cmd a) (dollar0 a) values
          (exec (globArgsEach (args a) (globOpts a)) (exec (parseArgv r) initial)))
          as [_ H].
        by rewrite H, Ht, Hl, Hlv, Hs, Hsp, <- app_assoc.
    + rewrite exec_bind.
      destruct (globArgs_emits (args a) (globOpts a)
                  (exec (parseArgv r) initial)) as [Hv _].
      destruct (globArgs_emits (args a) (globOpts a) initial) as [Hv0 Ha0].
      destruct (globArgs_traces (args a) (globOpts a)
                  (exec (parseArgv r) initial)) as [Hl Ht].
      rewrite Hv, Hv0, Ha0. cbn [fst trace initial actions List.filter app].
      rewrite Htr, Hlv in Ht. cbn [trace initial app] in Ht.
      destruct (bulk_traces (cmd a) (dollar0 a)
        (concat (map (fun arg => glob arg (<["nonull" := VBool true]> (globOpts a)))
                     (args a)))
        (exec (globArgs (args a) (globOpts a)) (exec (parseArgv r) initial)))
        as [_ H].
      by rewrite H, Ht, Hl, Hlv, globArgs_spawned, Hsp, <- app_assoc.
Qed.

(** ** What a run logs *)

Lemma translated_dollar0 (r : YargsResult) :
  prop (translated r) "$0" = VStr (y_dollar0 (yargs_flags r)).
Proof.
  unfold translated, prop.
  assert (forall n,
    (<["verbose" := VNum n]>
       (yargs_object r ∪
        {[ "_" := VArr []; "$0" := VStr script_path; "verbose" := VNum 0 ]}))
      !! "$0" = Some (VStr (y_dollar0 (yargs_flags r)))) as Hbase.
  { intros n. rewrite lookup_insert_ne by done.
    apply lookup_union_Some_l. unfold yargs_object.
    rewrite lookup_insert_ne by done. apply lookup_insert_eq. }
  destruct (truthy _).
  - rewrite lookup_insert_ne by done. by rewrite Hbase.
  - by rewrite Hbase.
Qed.

Lemma parsed_dollar0 (r : YargsResult) :
  match parsed r with
  | ParseError _ d0 => d0 = VStr (y_dollar0 (yargs_flags r))
  | ParseOk a => dollar0 a = VStr (y_dollar0 (yargs_flags r))
  end.
Proof.
  assert (match parsed r with
          | ParseError _ d0 => d0 = prop (translated r) "$0"
          | ParseOk a => dollar0 a = prop (translated r) "$0"
          end) as H by (destruct r; reflexivity).
  rewrite translated_dollar0 in H. exact H.
Qed.

Lemma verbosity_cases (r : YargsResult) :
  (y_verbose (yargs_flags r) = 0%nat /\ verbosity r = Info)
  \/ (y_verbose (yargs_flags r) = 1%nat /\ verbosity r = Verbose)
  \/ ((2 <= y_verbose (yargs_flags r))%nat /\ verbosity r = Silly).
Proof.
  unfold verbosity. destruct (y_verbose (yargs_flags r)) as [|[|v]].
  - by left.
  - right. by left.
  - right. right. split; [lia|done].
Qed.

(** When yargs reports a failure (say no COMMAND), a run makes no call
    of [glob] and spawns nothing: it logs the message of yargs (with two
    [-v], the error object), the hint with the script name, with [-v]
    the version, and calls [exit(1)]. *)
Theorem failed_parse_is_reported (msg : string) (p : list string)
  (f : YargsFlags) :
  trace (run (YargsFail msg p f))
  = [ELog Error "globstar"
       (if (2 <=? y_verbose f)%nat then MsgError (mkError "YargsError" msg None)
        else MsgText msg);
     ELog Info "globstar" (MsgHelp (VStr (y_dollar0 f)))]
    ++ (if (1 <=? y_verbose f)%nat
        then [ELog Verbose ("globstar@" +:+ version) MsgNone] else [])
    ++ [EExit 1].
Proof.
  rewrite trace_run.
  pose proof (parsed_dollar0 (YargsFail msg p f)) as Hd.
  destruct (parsed_fail msg p f) as [d0 Hp]. rewrite Hp in *. subst d0.
  unfold error_report, verbosity. cbn [yargs_flags name message].
  destruct (y_verbose f) as [|[|v]]; done.
Qed.

Lemma in_record (e : Event) level l prefix msg :
  In e (record level l prefix msg) ->
  e = ELog l prefix msg /\ shown l level = true.
Proof.
  unfold record. destruct (shown l level); [|done].
  intros [<-|[]]. done.
Qed.

Lemma in_error_report (e : Event) level dollar0 err :
  In e (error_report level dollar0 err) ->
  e = EExit (status_or_1 err)
  \/ (String.eqb (name err) "SpawnError" = false /\ is_log e = true).
Proof.
  unfold error_report. intros Hin. apply in_app_or in Hin as [Hin|[<-|[]]];
    [|by left].
  right. destruct (String.eqb (name err) "SpawnError"); [done|].
  split; [done|]. cbn [negb] in Hin.
  repeat (apply in_app_or in Hin as [Hin|Hin]);
    apply in_record in Hin as [-> _]; done.
Qed.

(** The log records of a schedule: the command lines, and the report of
    a failure that is not a SpawnError. *)
Lemma logged_schedule_records level dollar0 k cmd values fin e :
  forallb (fun e => negb (is_log e)) fin = true ->
  In e (logged_schedule level dollar0 k cmd values fin) ->
  is_log e = true ->
  (is_running e = true /\ shown Verbose level = true)
  \/ (exists k' err,
        In (EDone k' (Some err)) (logged_schedule level dollar0 k cmd values fin)
        /\ String.eqb (name err) "SpawnError" = false).
Proof.
  intros Hfin. revert k. induction values as [|value rest IH]; intros k Hin He.
  - cbn in Hin. rewrite forallb_forall in Hfin. specialize (Hfin _ Hin).
    by rewrite He in Hfin.
  - cbn [logged_schedule] in *. apply in_app_or in Hin as [Hin|Hin].
    { left. apply in_record in Hin as [-> ?]. done. }
    destruct Hin as [<-|Hin]; [done|].
    destruct (child k) as [|ev evs]; [done|].
    destruct Hin as [<-|Hin]; [done|].
    destruct (result_of ev) as [err|].
    + apply in_error_report in Hin as [->|[Hname _]]; [done|].
      right. exists k, err. split; [|done].
      apply in_or_app. right. right. by left.
    + destruct (IH _ Hin He) as [?|(k' & err & Hdone & Hname)]; [by left|].
      right. exists k', err. split; [|done].
      apply in_or_app. right. right. by right.
Qed.

Lemma expansions_no_log (r : YargsResult) (e : Event) :
  In e (expansions r) -> is_log e = false.
Proof.
  intros Hin. pose proof (expansions_globs r) as H.
  rewrite forallb_forall in H. specialize (H _ Hin). by destruct e.
Qed.

Lemma finish_no_log (r : YargsResult) :
  forallb (fun e => negb (is_log e)) (finish r) = true.
Proof. by destruct (finish_shape r) as [-> | ->]. Qed.

(** The log records of a run whose parse succeeded and whose argument
    builder did not throw. *)
Lemma run_records (r : YargsResult) (values : list (list string)) (e : Event) :
  invocations r = inr values ->
  In e (trace (run r)) ->
  is_log e = true ->
  (is_options_record e = true /\ verbosity r = Silly)
  \/ (is_running e = true /\ verbosity r <> Info)
  \/ (exists k err, In (EDone k (Some err)) (trace (run r))
        /\ String.eqb (name err) "SpawnError" = false).
Proof.
  intros Hinv Hin He. rewrite trace_run in *. rewrite Hinv in *.
  destruct (parsed r) as [err d0|a] eqn:Hp.
  { unfold invocations in Hinv. by rewrite Hp in Hinv. }
  apply in_app_or in Hin as [Hin|Hin].
  { left. apply in_record in Hin as [-> Hs]. split; [done|].
    by destruct (verbosity r). }
  apply in_app_or in Hin as [Hin|Hin].
  { apply expansions_no_log in Hin. congruence. }
  destruct (logged_schedule_records _ _ _ _ _ _ e (finish_no_log r) Hin He)
    as [[? Hs]|(k & err & Hdone & Hname)].
  - right. left. split; [done|]. by destruct (verbosity r).
  - right. right. exists k, err. split; [|done].
    apply in_or_app. right. apply in_or_app. by right.
Qed.

(** Without [-v], a run that ends well or on a child that exits with a
    status other than 0 writes no log record at all. *)
Theorem quiet_without_verbose (r : YargsResult) (values : list (list string)) :
  y_verbose (yargs_flags r) = 0%nat ->
  invocations r = inr values ->
  (forall k err, In (EDone k (Some err)) (trace (run r)) ->
     name err = "SpawnError") ->
  forall e, In e (trace (run r)) -> is_log e = false.
Proof.
  intros Hv Hinv Hspawn e Hin.
  destruct (is_log e) eqn:He; [|done]. exfalso.
  assert (verbosity r = Info) as Hlevel.
  { unfold verbosity. by rewrite Hv. }
  destruct (run_records r values e Hinv Hin He)
    as [[_ H]|[[_ H]|(k & err & Hdone & Hname)]]; try congruence.
  apply Hspawn in Hdone. rewrite Hdone in Hname. done.
Qed.


Lemma shown_error (level : LogLevel) : shown Error level = true.
Proof. by destruct level. Qed.

Lemma error_report_records level dollar0 err :
  String.eqb (name err) "SpawnError" = false ->
  In (ELog Error "globstar"
        (if decide (level = Silly) then MsgError err
         else MsgText (message err)))
     (error_report level dollar0 err)
  /\ (level <> Error ->
      In (ELog Info "globstar" (MsgHelp dollar0))
         (error_report level dollar0 err)).
Proof.
  intros Hname. unfold error_report. rewrite Hname. cbn [negb].
  unfold record. rewrite shown_error. split.
  - by left.
  - intros Hlevel. right. destruct level; try done; by left.
Qed.

Lemma logged_schedule_report level dollar0 k0 cmd values fin k err :
  forallb (fun e => negb (is_done e)) fin = true ->
  In (EDone k (Some err)) (logged_schedule level dollar0 k0 cmd values fin) ->
  forall e, In e (error_report level dollar0 err) ->
    In e (logged_schedule level dollar0 k0 cmd values fin).
Proof.
  intros Hfin. revert k0. induction values as [|value rest IH];
    intros k0 Hin e He.
  - cbn in Hin. rewrite forallb_forall in Hfin. by specialize (Hfin _ Hin).
  - cbn [logged_schedule] in *. apply in_or_app. right. right.
    apply in_app_or in Hin as [Hin|Hin].
    { by apply in_record in Hin as [? _]. }
    destruct Hin as [Hin|Hin]; [done|].
    destruct (child k0) as [|ev evs]; [done|]. right.
    destruct Hin as [Hin|Hin].
    + injection Hin as _ ->. done.
    + destruct (result_of ev) as [err'|].
      * by apply in_error_report in Hin as [?|[_ ?]].
      * by apply (IH (S k0)).
Qed.

(** Any other failure is reported at every level: when the argument
    builder throws [err], or a completion callback gets an [err] that is
    not a SpawnError (the child could not be started), the run logs
    [err.message] at level [error] (with two [-v], the error object) and
    the hint to [--help] with the script name. *)
Theorem other_failures_are_reported (c : string) (rest : list string)
  (f : YargsFlags) (err : JsError) :
  invocations (YargsOk c rest f) = inl err
  \/ (exists k, In (EDone k (Some err)) (trace (run (YargsOk c rest f)))) ->
  name err <> "SpawnError" ->
  In (ELog Error "globstar"
        (if (2 <=? y_verbose f)%nat then MsgError err
         else MsgText (message err)))
     (trace (run (YargsOk c rest f)))
  /\ In (ELog Info "globstar" (MsgHelp (VStr (y_dollar0 f))))
        (trace (run (YargsOk c rest f))).
Proof.
  intros Hfail Hname.
  assert (String.eqb (name err) "SpawnError" = false) as Hname'.
  { by apply String.eqb_neq. }
  assert ((if decide (verbosity (YargsOk c rest f) = Silly)
           then MsgError err else MsgText (message err))
          = (if (2 <=? y_verbose f)%nat then MsgError err
             else MsgText (message err))
          /\ verbosity (YargsOk c rest f) <> Error) as [Hmsg Hlevel].
  { unfold verbosity. cbn [yargs_flags].
    by destruct (y_verbose f) as [|[|v]]. }
  pose proof (parsed_dollar0 (YargsOk c rest f)) as Hd.
  destruct (parsed_ok c rest f) as (a & Hp & _). rewrite Hp in Hd.
  cbn [yargs_flags] in Hd.
  destruct (error_report_records (verbosity (YargsOk c rest f)) (dollar0 a)
              err Hname') as [H1 H2].
  specialize (H2 Hlevel). rewrite Hmsg in H1. rewrite Hd in H2.
  assert (forall e, In e (error_report (verbosity (YargsOk c rest f))
                            (dollar0 a) err) ->
                    In e (trace (run (YargsOk c rest f)))) as Hincl.
  { intros e He. rewrite trace_run, Hp in *.
    apply in_or_app. right. apply in_or_app. right.
    destruct Hfail as [-> | [k Hin]]; [done|].
    apply in_app_or in Hin as [Hin|Hin].
    { apply in_record in Hin as [Heq _]. discriminate Heq. }
    apply in_app_or in Hin as [Hin|Hin].
    { pose proof (expansions_globs (YargsOk c rest f)) as Hg.
      rewrite forallb_forall in Hg. specialize (Hg _ Hin). discriminate Hg. }
    destruct (invocations (YargsOk c rest f)) as [err'|values].
    - apply in_error_report in Hin as [Heq|[_ Heq]]; discriminate Heq.
    - apply (logged_schedule_report _ _ _ _ _ _ k err); [|done|done].
      by destruct (finish_shape (YargsOk c rest f)) as [-> | ->]. }
  rewrite <- Hd. split; apply Hincl; [exact H1|]. by rewrite Hd.
Qed.

(** ** The log of the command lines and of the options *)

Lemma error_report_quiet (P : Event -> bool) level dollar0 err :
  (forall e, P e = true ->
     is_running e = true \/ is_spawn e = true \/ is_options_record e = true) ->
  List.filter P (error_report level dollar0 err) = [].
Proof.
  intros HP. apply filter_none, forallb_forall. intros e He.
  destruct (P e) eqn:HPe; [|done]. exfalso.
  apply HP in HPe. unfold error_report in He.
  apply in_app_or in He as [He|[<-|[]]].
  - destruct (negb _); [|done].
    repeat (apply in_app_or in He as [He|He]);
      apply in_record in He as [-> _];
      destruct HPe as [?|[?|?]]; try done.
    by destruct (decide _).
  - by destruct HPe as [?|[?|?]].
Qed.

Lemma logged_schedule_lines level dollar0 k cmd values fin :
  List.filter run_or_spawn fin = [] -> spawns fin = [] ->
  List.filter run_or_spawn (logged_schedule level dollar0 k cmd values fin)
  = (if shown Verbose level
     then flat_map (fun s => [running_of s; s])
            (spawns (logged_schedule level dollar0 k cmd values fin))
     else spawns (logged_schedule level dollar0 k cmd values fin)).
Proof.
  intros Hfin Hfin'. revert k. induction values as [|value rest IH]; intros k.
  - cbn [logged_schedule]. rewrite Hfin, Hfin'. by destruct (shown _ _).
  - cbn [logged_schedule]. unfold spawns in *.
    rewrite !List.filter_app. unfold running_record, record, spawn_event.
    assert (forall t,
      List.filter run_or_spawn t
      = (if shown Verbose level
         then flat_map (fun s => [running_of s; s]) (List.filter is_spawn t)
         else List.filter is_spawn t) ->
      List.filter run_or_spawn
        (if shown Verbose level
         then [ELog Verbose "globstar"
                 (MsgRunning (command_line cmd value).1.1
                             (command_line cmd value).1.2)]
         else [])
      ++ List.filter run_or_spawn
           (ESpawn k (command_line cmd value).1.1 (command_line cmd value).1.2
                   (command_line cmd value).2 :: t)
      = (if shown Verbose level
         then flat_map (fun s => [running_of s; s])
                (List.filter is_spawn
                   (if shown Verbose level
                    then [ELog Verbose "globstar"
                            (MsgRunning (command_line cmd value).1.1
                                        (command_line cmd value).1.2)]
                    else [])
                 ++ List.filter is_spawn
                      (ESpawn k (command_line cmd value).1.1
                              (command_line cmd value).1.2
                              (command_line cmd value).2 :: t))
         else List.filter is_spawn
                (if shown Verbose level
                 then [ELog Verbose "globstar"
                         (MsgRunning (command_line cmd value).1.1
                                     (command_line cmd value).1.2)]
                 else [])
              ++ List.filter is_spawn
                   (ESpawn k (command_line cmd value).1.1
                           (command_line cmd value).1.2
                           (command_line cmd value).2 :: t))) as Hstep.
    { intros t Ht. destruct (shown Verbose level); cbn; by rewrite Ht. }
    apply Hstep.
    destruct (child k) as [|ev evs]; [by destruct (shown _ _)|].
    cbn [List.filter run_or_spawn is_running is_spawn orb].
    destruct (result_of ev) as [err|]; [|apply IH].
    rewrite !error_report_quiet; [by destruct (shown _ _)| |].
    + intros e He. right. by left.
    + intros e He. unfold run_or_spawn in He.
      apply orb_true_iff in He as [?|?]; [by left|right; by left].
Qed.

(** With [-v], the command line of every child is logged just before
    the child is spawned, as it is spawned (on win32, the line for
    [cmd /c]); without [-v], no command line is logged. *)
Theorem command_lines_are_logged (r : YargsResult) :
  List.filter run_or_spawn (trace (run r))
  = (if (1 <=? y_verbose (yargs_flags r))%nat
     then flat_map (fun s => [running_of s; s]) (spawns (trace (run r)))
     else spawns (trace (run r))).
Proof.
  assert (shown Verbose (verbosity r) = (1 <=? y_verbose (yargs_flags r))%nat)
    as <-.
  { unfold verbosity. by destruct (y_verbose (yargs_flags r)) as [|[|v]]. }
  unfold spawns. rewrite trace_run.
  destruct (parsed r) as [err d0|a].
  { rewrite !error_report_quiet; [by destruct (shown _ _)| |].
    - intros e He. right. by left.
    - intros e He. unfold run_or_spawn in He.
      apply orb_true_iff in He as [?|?]; [by left|right; by left]. }
  rewrite !List.filter_app.
  assert (forall P : Event -> bool,
    (forall e, P e = true -> is_running e = true \/ is_spawn e = true) ->
    List.filter P (record (verbosity r) Silly "globstar"
                     (MsgOpts (<["nonull" := VBool true]> (globOpts a)))) = []
    /\ List.filter P (expansions r) = []) as Hquiet.
  { intros P HP. split; apply filter_none, forallb_forall; intros e He;
      destruct (P e) eqn:HPe; try done; exfalso; apply HP in HPe.
    - apply in_record in He as [-> _]. by destruct HPe.
    - pose proof (expansions_globs r) as Hg. rewrite forallb_forall in Hg.
      specialize (Hg _ He). destruct e; try done. by destruct HPe. }
  destruct (Hquiet run_or_spawn) as [-> ->].
  { intros e He. by apply orb_true_iff in He. }
  destruct (Hquiet is_spawn) as [-> ->]; [by right|].
  cbn [app].
  destruct (invocations r) as [err|values].
  - rewrite !error_report_quiet; [by destruct (shown _ _)| |].
    + intros e He. right. by left.
    + intros e He. unfold run_or_spawn in He.
      apply orb_true_iff in He as [?|?]; [by left|right; by left].
  - apply logged_schedule_lines; by destruct (finish_shape r) as [-> | ->].
Qed.

Lemma logged_schedule_no_options level dollar0 k cmd values fin :
  List.filter is_options_record fin = [] ->
  List.filter is_options_record
    (logged_schedule level dollar0 k cmd values fin) = [].
Proof.
  intros Hfin. revert k. induction values as [|value rest IH]; intros k; [done|].
  cbn [logged_schedule]. rewrite List.filter_app.
  unfold running_record, record, spawn_event.
  destruct (shown Verbose level); cbn;
    (destruct (child k) as [|ev evs]; [done|]); cbn;
    (destruct (result_of ev); [|apply IH]);
    apply error_report_quiet; by right; right.
Qed.

(** With two [-v] a run whose parse succeeded logs the option object
    once, in the state [glob] gets it ([nonull] set); with fewer it does
    not log it. *)
Theorem options_are_logged_at_silly (r : YargsResult) (a : Argv) :
  parsed r = ParseOk a ->
  List.filter is_options_record (trace (run r))
  = (if (2 <=? y_verbose (yargs_flags r))%nat
     then [ELog Silly "globstar"
             (MsgOpts (<["nonull" := VBool true]> (globOpts a)))]
     else []).
Proof.
  intros Hp. rewrite trace_run, Hp, !List.filter_app.
  assert (List.filter is_options_record (expansions r) = []) as ->.
  { apply filter_none, forallb_forall. intros e He.
    pose proof (expansions_globs r) as Hg. rewrite forallb_forall in Hg.
    specialize (Hg _ He). by destruct e. }
  assert (List.filter is_options_record
            match invocations r with
            | inl err => error_report (verbosity r) (dollar0 a) err
            | inr values =>
                logged_schedule (verbosity r) (dollar0 a) 0 (cmd a) values
                  (finish r)
            end = []) as ->.
  { destruct (invocations r) as [err|values].
    - apply error_report_quiet. by right; right.
    - apply logged_schedule_no_options.
      by destruct (finish_shape r) as [-> | ->]. }
  rewrite !app_nil_r. unfold record, verbosity.
  by destruct (y_verbose (yargs_flags r)) as [|[|v]].
Qed.

(** With [--node], every call of [glob] in a run gets an [ignore] list
    that ends with the pattern for [node_modules], after the patterns
    the command line gave with [--ignore] (none: the pattern alone);
    without [--node] it gets the list of the command line, or no
    [ignore] option when there was none. *)
Theorem node_flag_ignores_node_modules (c : string) (rest : list string)
  (f : YargsFlags) (p : option string) (o : GlobOpts) :
  y_other f !! "ignore" = None ->
  In (EGlob p o) (trace (run (YargsOk c rest f))) ->
  o !! "ignore"
  = if y_node f
    then Some (VArr (default [] (y_ignore f) ++ ["**/node_modules/**"]))
    else VArr <$> y_ignore f.
Proof.
  intros Hother Hin. destruct (parsed_ok c rest f) as (a & Hp & _).
  rewrite (glob_calls_options _ a p o Hp Hin).
  rewrite lookup_insert_ne by discriminate.
  rewrite (globOpts_lookup _ a "ignore" Hp).
  change (nonGlobFlag "ignore") with false. cbv iota.
  exact (translated_ignore (YargsOk c rest f) Hother).
Qed.


(** * The glob package as it is called *)

(** ** The argument builders *)

Lemma world_eta (w : World) :
  mkWorld (npmlog_level w) (trace w) (spawned w) = w.
Proof. by destruct w. Qed.

Lemma log_run l prefix msg (w : World) :
  npmlog_log l prefix msg w
  = (tt, mkWorld (npmlog_level w)
                 (trace w ++ record (npmlog_level w) l prefix msg)
                 (spawned w)).
Proof.
  unfold npmlog_log, record. destruct (shown _ _); [done|].
  by rewrite app_nil_r, world_eta.
Qed.

Lemma glob_sync_fx_run (pattern : option string) (opts : GlobOpts) (w : World) :
  glob_sync_fx pattern opts w
  = (glob_fx pattern opts,
     mkWorld (npmlog_level w) (trace w ++ [EGlob pattern opts]) (spawned w)).
Proof. reflexivity. Qed.

Lemma map_globArg_run (args : list string) (opts : GlobOpts) (w : World) :
  map_globArg args opts w
  = (answers args opts,
     mkWorld (npmlog_level w)
             (trace w ++ handed_on (map Some args) opts)
             (spawned w)).
Proof.
  revert opts w. induction args as [|arg rest IH]; intros opts w.
  - cbn. by rewrite app_nil_r, world_eta.
  - cbn [map_globArg answers handed_on map].
    rewrite bind_unfold. unfold eval, exec. rewrite glob_sync_fx_run.
    cbn [fst snd].
    destruct (glob_fx (Some arg) opts) as [[err|paths] opts']; cbn [fst snd].
    + done.
    + rewrite bind_unfold. unfold eval, exec. rewrite IH.
      cbn [fst snd npmlog_level trace spawned ret]. by rewrite <- app_assoc.
Qed.

Lemma globArgs_fx_run (args : list string) (opts : GlobOpts) (w : World) :
  globArgs_fx args opts w
  = ((match (answers args (<["nonull" := VBool true]> opts)).1 with
      | inl err => inl err
      | inr lists => inr (concat lists)
      end, (answers args (<["nonull" := VBool true]> opts)).2),
     mkWorld (npmlog_level w)
             (trace w
              ++ record (npmlog_level w) Silly "globstar"
                   (MsgOpts (<["nonull" := VBool true]> opts))
              ++ handed_on (map Some args) (<["nonull" := VBool true]> opts))
             (spawned w)).
Proof.
  unfold globArgs_fx. rewrite bind_unfold. unfold eval, exec.
  rewrite log_run. cbn [fst snd]. rewrite bind_unfold. unfold eval, exec.
  rewrite map_globArg_run. cbn [fst snd npmlog_level trace spawned ret].
  rewrite <- app_assoc.
  destruct (answers args _).1 as [err|lists]; [done|].
  by rewrite fold_left_app_concat.
Qed.

Lemma globArgsEach_fx_run (args : list string) (opts : GlobOpts) (w : World) :
  globArgsEach_fx args opts w
  = (match length (glob_tokens args) with
     | 0%nat => (inr [args], <["nonull" := VBool true]> opts)
     | 1%nat =>
         (match (glob_fx (index args (findIndex (fun arg => isGlob arg true) args))
                         (<["nonull" := VBool true]> opts)).1 with
          | inl err => inl err
          | inr values =>
              inr (map (fun value =>
                          assign args
                            (findIndex (fun arg => isGlob arg true) args) value)
                       values)
          end,
          (glob_fx (index args (findIndex (fun arg => isGlob arg true) args))
                   (<["nonull" := VBool true]> opts)).2)
     | _ => (inl multiple_globs, <["nonull" := VBool true]> opts)
     end,
     mkWorld (npmlog_level w)
             (trace w
              ++ record (npmlog_level w) Silly "globstar"
                   (MsgOpts (<["nonull" := VBool true]> opts))
              ++ match length (glob_tokens args) with
                 | 1%nat =>
                     [EGlob (index args
                               (findIndex (fun arg => isGlob arg true) args))
                            (<["nonull" := VBool true]> opts)]
                 | _ => []
                 end)
             (spawned w)).
Proof.
  unfold globArgsEach_fx. rewrite bind_unfold. unfold eval, exec.
  rewrite log_run. cbn [fst snd]. rewrite globCount_length.
  destruct (length (glob_tokens args)) as [|[|n]].
  - cbn. by rewrite app_nil_r.
  - change (1 <? 0 + Z.of_nat 1) with false.
    change (0 + Z.of_nat 1 <=? 0) with false. cbv iota.
    rewrite bind_unfold. unfold eval, exec. rewrite glob_sync_fx_run.
    cbn [ret fst snd npmlog_level trace spawned].
    by rewrite <- app_assoc.
  - replace (1 <? 0 + Z.of_nat (S (S n))) with true
      by (symmetry; apply Z.ltb_lt; lia).
    cbn. by rewrite app_nil_r.
Qed.

Lemma actions_record level l prefix msg :
  actions (record level l prefix msg) = [].
Proof. unfold record. by destruct (shown _ _). Qed.

Lemma actions_handed_on (patterns : list (option string)) (opts : GlobOpts) :
  actions (handed_on patterns opts) = handed_on patterns opts.
Proof.
  revert opts. induction patterns as [|p rest IH]; intros opts; [done|].
  cbn [handed_on]. unfold actions in *. cbn [List.filter is_log negb].
  f_equal. destruct (glob_fx p opts).1; [done|]. apply IH.
Qed.

(** ** The run as a whole *)

Lemma exec_bind_run {A B} (m : M A) (f : A -> M B) (w w' : World) (a : A) :
  m w = (a, w') -> exec (bind m f) w = exec (f a) w'.
Proof. intros H. rewrite exec_bind. unfold eval, exec at 2. by rewrite H. Qed.

Lemma eval_bind_run {A B} (m : M A) (f : A -> M B) (w w' : World) (a : A) :
  m w = (a, w') -> eval (bind m f) w = eval (f a) w'.
Proof. intros H. rewrite eval_bind. unfold eval at 2, exec. by rewrite H. Qed.

Lemma exec_then {A B} (m : M A) (b : B) (w : World) :
  exec (m ;; ret b) w = exec m w.
Proof. by rewrite exec_bind. Qed.

Lemma eval_then {A B} (m : M A) (b : B) (w : World) :
  eval (m ;; ret b) w = b.
Proof. by rewrite eval_bind. Qed.

(** The actions of a run: the calls of [glob], then the processes and
    the exit; and the error that leaves [main]. *)
Lemma actions_run_fx (r : YargsResult) :
  actions (trace (run_fx r)) = expansions_fx r ++ outcome r
  /\ thrown r = match built r with Uncaught err => Some err | _ => None end.
Proof.
  unfold run_fx, thrown, main_fx. rewrite exec_bind, eval_bind.
  destruct (parseArgv_exec r initial) as (Hev & Htr & Hsp).
  rewrite Hev. unfold expansions_fx, outcome, patterns, built, finish.
  set (w0 := exec (parseArgv r) initial) in *. clearbody w0.
  cbn [trace spawned initial] in Htr, Hsp.
  destruct (parsed r) as [err dollar0|a] eqn:Hp.
  - rewrite exec_then, eval_then.
    destruct (errorHandler_emits dollar0 (Some err) w0) as [_ H].
    by rewrite H, Htr.
  - rewrite <- (parsed_cmd r a Hp).
    destruct (truthy (each a)).
    + rewrite exec_then, eval_then. unfold mainEach_fx.
      rewrite (exec_bind_run _ _ _ _ _
                 (globArgsEach_fx_run (args a) (globOpts a) w0)).
      destruct (length (glob_tokens (args a))) as [|[|n]]; cbn [fst snd].
      * match goal with |- context [exec _ ?w1] =>
          destruct (forAwait_emits (cmd a) (dollar0 a) [args a] w1) as [_ H]
        end.
        rewrite H. cbn [trace spawned].
        by rewrite Htr, Hsp, !actions_app, actions_record.
      * cbn [handed_on]. destruct (glob_fx _ _).1 as [err|values].
        -- match goal with |- context [exec _ ?w1] =>
             destruct (errorHandler_emits (dollar0 a) (Some err) w1) as [_ H]
           end.
           rewrite H. cbn [trace spawned].
           by rewrite Htr, !actions_app, actions_record.
        -- match goal with |- context [exec (forAwait _ ?vs _) ?w1] =>
             destruct (forAwait_emits (cmd a) (dollar0 a) vs w1) as [_ H]
           end.
           rewrite H. cbn [trace spawned].
           by rewrite Htr, Hsp, !actions_app, actions_record.
      * match goal with |- context [exec _ ?w1] =>
          destruct (errorHandler_emits (dollar0 a) (Some multiple_globs) w1)
            as [_ H]
        end.
        rewrite H. cbn [trace spawned].
        by rewrite Htr, !actions_app, actions_record.
    + rewrite (exec_bind_run _ _ _ _ _
                 (globArgs_fx_run (args a) (globOpts a) w0)).
      rewrite (eval_bind_run _ _ _ _ _
                 (globArgs_fx_run (args a) (globOpts a) w0)).
      cbn [fst snd].
      destruct (answers (args a) _).1 as [err|lists].
      * cbn [exec eval ret fst snd trace].
        rewrite Htr, !actions_app, actions_record, actions_handed_on.
        by rewrite app_nil_r.
      * rewrite exec_then, eval_then.
        match goal with |- context [exec (spawnCommand _ ?v _) ?w1] =>
          destruct (bulk_emits (cmd a) (dollar0 a) v w1) as [_ H]
        end.
        rewrite H. cbn [trace spawned].
        by rewrite Htr, Hsp, !actions_app, actions_record, actions_handed_on.
Qed.

Lemma handed_on_globs (patterns : list (option string)) (opts : GlobOpts) :
  forallb is_glob_call (handed_on patterns opts) = true.
Proof.
  revert opts. induction patterns as [|p rest IH]; intros opts; [done|].
  cbn [handed_on forallb is_glob_call andb].
  destruct (glob_fx p opts).1; [done|]. apply IH.
Qed.

Lemma expansions_fx_globs (r : YargsResult) :
  forallb is_glob_call (expansions_fx r) = true.
Proof.
  unfold expansions_fx. destruct (parsed r); [done|]. apply handed_on_globs.
Qed.

Lemma outcome_processes (r : YargsResult) :
  forallb is_process (outcome r) = true.
Proof.
  unfold outcome. destruct (built r) as [values|err|err]; [|done|done].
  assert (forallb is_process (finish r) = true) as Hfin
    by (destruct (finish_shape r) as [-> | ->]; done).
  generalize 0%nat. induction values as [|value values IH]; intros k; [done|].
  cbn [schedule forallb]. unfold spawn_event at 1. cbn [is_process andb].
  destruct (child k) as [|ev evs]; [done|]. cbn [forallb is_process andb].
  destruct (result_of ev); [done|]. apply IH.
Qed.

Lemma filter_forallb_false (P Q : Event -> bool) (t : list Event) :
  forallb Q t = true -> (forall e, Q e = true -> P e = false) ->
  List.filter P t = [].
Proof.
  intros Ht HQ. induction t as [|e t IH]; [done|].
  cbn [forallb] in Ht. apply andb_prop in Ht as [He Ht].
  cbn [List.filter]. rewrite (HQ e He). by apply IH.
Qed.

Lemma filter_forallb_true (P : Event -> bool) (t : list Event) :
  forallb P t = true -> List.filter P t = t.
Proof.
  intros Ht. induction t as [|e t IH]; [done|].
  cbn [forallb] in Ht. apply andb_prop in Ht as [He Ht].
  cbn [List.filter]. rewrite He. f_equal. by apply IH.
Qed.

(** The calls of [glob], the spawns and the process events of a run. *)
Lemma glob_calls_run_fx (r : YargsResult) :
  glob_calls (trace (run_fx r)) = expansions_fx r.
Proof.
  unfold glob_calls.
  rewrite <- (filter_actions is_glob_call) by (by intros []).
  rewrite (proj1 (actions_run_fx r)), List.filter_app.
  rewrite (filter_forallb_true _ _ (expansions_fx_globs r)).
  rewrite (filter_forallb_false _ _ _ (outcome_processes r)) by (by intros []).
  apply app_nil_r.
Qed.

Lemma processes_run_fx (r : YargsResult) :
  processes (trace (run_fx r)) = outcome r.
Proof.
  unfold processes.
  rewrite <- (filter_actions is_process) by (by intros []).
  rewrite (proj1 (actions_run_fx r)), List.filter_app.
  rewrite (filter_forallb_false _ _ _ (expansions_fx_globs r)) by (by intros []).
  by rewrite (filter_forallb_true _ _ (outcome_processes r)).
Qed.

Lemma spawns_run_fx (r : YargsResult) :
  spawns (trace (run_fx r)) = spawns (outcome r).
Proof.
  unfold spawns.
  rewrite <- (filter_actions is_spawn) by (by intros []).
  rewrite (proj1 (actions_run_fx r)), List.filter_app.
  by rewrite (filter_forallb_false _ _ _ (expansions_fx_globs r))
    by (by intros []).
Qed.

Lemma parsed_bulk (c : string) (rest : list string) (f : YargsFlags) :
  y_each f = false ->
  exists a, parsed (YargsOk c rest f) = ParseOk a
    /\ args a = rest /\ truthy (each a) = false.
Proof.
  intros He. destruct (parsed_ok c rest f) as (a & Hp & _ & Ha & Hea).
  exists a. by rewrite Hea.
Qed.

(** ** The option object between the calls *)

(** A call of [glob] in a chain gets the object with every key the
    calls do not write as it was at the start. *)
Lemma handed_on_frame (written : list string)
  (patterns : list (option string)) (start : GlobOpts) (p : option string)
  (o : GlobOpts) (key : string) :
  (forall p o key, key ∉ written -> (glob_fx p o).2 !! key = o !! key) ->
  In (EGlob p o) (handed_on patterns start) ->
  key ∉ written ->
  o !! key = start !! key.
Proof.
  intros Hframe Hin Hkey. revert start Hin.
  induction patterns as [|q rest IH]; intros start Hin; [done|].
  cbn [handed_on] in Hin. destruct Hin as [Hin|Hin].
  - by injection Hin as _ <-.
  - destruct (glob_fx q start).1; [done|].
    rewrite (IH _ Hin). by apply Hframe.
Qed.

Lemma in_glob_calls (e : Event) (t : list Event) :
  is_glob_call e = true -> In e t -> In e (glob_calls t).
Proof. intros He Hin. apply List.filter_In. by split. Qed.

(** C8, as amended.  The pattern for [node_modules] is appended to the
    [ignore] list once, while [parseArgv] builds the option object.
    After that the program writes to the object once more: the
    argument builder sets [nonull] to [true] before the first call of
    [glob].  The object goes to [glob] by reference: the first call of
    a run gets it with [nonull] set and otherwise as [parseArgv] built
    it, and every later call gets it as the call before left it.  So
    in every call of a run, a key that [glob] does not write (a key
    outside [written]) has the value [parseArgv] gave it, [nonull]
    apart, which is [true]. *)
Theorem globOpts_written_once (c : string) (rest : list string)
  (f : YargsFlags) (written : list string) :
  y_other f !! "ignore" = None ->
  (forall p o key, key ∉ written -> (glob_fx p o).2 !! key = o !! key) ->
  exists a, parsed (YargsOk c rest f) = ParseOk a
    /\ globOpts a !! "ignore"
       = (if y_node f
          then Some (VArr (default [] (y_ignore f) ++ ["**/node_modules/**"]))
          else VArr <$> y_ignore f)
    /\ glob_calls (trace (run_fx (YargsOk c rest f)))
       = handed_on (patterns (YargsOk c rest f))
                   (<["nonull" := VBool true]> (globOpts a))
    /\ (forall p o key,
          In (EGlob p o) (trace (run_fx (YargsOk c rest f))) ->
          key ∉ written ->
          o !! key = if decide (key = "nonull") then Some (VBool true)
                     else globOpts a !! key).
Proof.
  intros Hother Hframe. destruct (parsed_ok c rest f) as (a & Hp & _).
  exists a. split; [done|].
  assert (glob_calls (trace (run_fx (YargsOk c rest f)))
          = handed_on (patterns (YargsOk c rest f))
                      (<["nonull" := VBool true]> (globOpts a))) as Hcalls.
  { rewrite glob_calls_run_fx. unfold expansions_fx. by rewrite Hp. }
  split; [|split; [exact Hcalls|]].
  - pose proof (parsed_translated (YargsOk c rest f)) as H. rewrite Hp in H.
    destruct H as (_ & _ & _ & ->).
    rewrite map_lookup_filter, (translated_ignore (YargsOk c rest f)) by done.
    cbn [yargs_flags]. destruct (y_node f); [done|]. by destruct (y_ignore f).
  - intros p o key Hin Hkey.
    apply (in_glob_calls (EGlob p o) _ eq_refl) in Hin. rewrite Hcalls in Hin.
    rewrite (handed_on_frame written _ _ p o key Hframe Hin Hkey).
    case_decide as Hnonull.
    + subst key. apply lookup_insert_eq.
    + by apply lookup_insert_ne.
Qed.

(** ** Bulk mode: what [glob] throws *)

Lemma patterns_bulk (c : string) (rest : list string) (f : YargsFlags) :
  y_each f = false -> patterns (YargsOk c rest f) = map Some rest.
Proof.
  intros He. destruct (parsed_bulk c rest f He) as (a & Hp & Ha & Hea).
  unfold patterns. by rewrite Hp, Hea, Ha.
Qed.

Lemma built_bulk (c : string) (rest : list string) (f : YargsFlags) (a : Argv) :
  y_each f = false -> parsed (YargsOk c rest f) = ParseOk a ->
  built (YargsOk c rest f)
  = match (answers rest (<["nonull" := VBool true]> (globOpts a))).1 with
    | inl err => Uncaught err
    | inr lists => Lists [concat lists]
    end.
Proof.
  intros He Hp. destruct (parsed_bulk c rest f He) as (a' & Hp' & Ha & Hea).
  assert (a' = a) as -> by congruence.
  unfold built. by rewrite Hp, Hea, Ha.
Qed.

(** In bulk mode, when no call of [glob] throws, a run spawns exactly
    one child, whatever the tokens are (also when there is none) and
    whatever the child does: the command, with what the calls returned
    in one list.  When a call throws, the error leaves [main], as the
    call of [globArgs] is not inside a [try]: no child is spawned and
    [exit] is not called. *)
Theorem bulk_mode_spawns_once (c : string) (rest : list string)
  (f : YargsFlags) :
  y_each f = false ->
  exists a, parsed (YargsOk c rest f) = ParseOk a
    /\ match (answers rest (<["nonull" := VBool true]> (globOpts a))).1 with
       | inr lists =>
           spawns (trace (run_fx (YargsOk c rest f)))
           = [spawn_event 0 c (concat lists)]
           /\ thrown (YargsOk c rest f) = None
       | inl err =>
           processes (trace (run_fx (YargsOk c rest f))) = []
           /\ thrown (YargsOk c rest f) = Some err
       end.
Proof.
  intros He. destruct (parsed_bulk c rest f He) as (a & Hp & Ha & Hea).
  exists a. split; [done|].
  pose proof (built_bulk c rest f a He Hp) as Hb.
  rewrite spawns_run_fx, processes_run_fx, (proj2 (actions_run_fx _)).
  unfold outcome. rewrite Hb.
  destruct (answers rest _).1 as [err|lists]; [done|].
  split; [|done]. apply spawns_schedule_one.
  by destruct (finish_shape (YargsOk c rest f)) as [-> | ->].
Qed.

Lemma handed_on_length (patterns : list (option string)) (opts : GlobOpts) :
  (length (handed_on patterns opts) <= length patterns)%nat.
Proof.
  revert opts. induction patterns as [|p rest IH]; intros opts; [done|].
  cbn [handed_on length]. destruct (glob_fx p opts).1; [cbn; lia|].
  specialize (IH (glob_fx p opts).2). lia.
Qed.

Lemma handed_on_lookup (patterns : list (option string)) (opts : GlobOpts)
  (i : nat) (p : option string) (o : GlobOpts) :
  handed_on patterns opts !! i = Some (EGlob p o) -> patterns !! i = Some p.
Proof.
  revert opts i. induction patterns as [|q rest IH]; intros opts i; [done|].
  cbn [handed_on]. destruct i as [|i].
  - by intros [= <- _].
  - cbn [lookup list_lookup]. destruct (glob_fx q opts).1; [done|]. apply IH.
Qed.

Lemma handed_on_all (args : list string) (opts : GlobOpts)
  (lists : list (list string)) :
  (answers args opts).1 = inr lists ->
  length (handed_on (map Some args) opts) = length args.
Proof.
  revert opts lists. induction args as [|arg rest IH]; intros opts lists; [done|].
  cbn [answers handed_on map length].
  destruct (glob_fx (Some arg) opts).1 as [err|paths]; [done|]. cbn [fst].
  destruct (answers rest _).1 as [err|others] eqn:Hrest; [done|].
  intros _. f_equal. by apply (IH _ others).
Qed.

(** In bulk mode a run calls [glob] for the tokens in their order,
    whether a token looks like a glob or not, until a call throws: the
    first call on the option object with [nonull] set, every other on
    the object as the call before left it.  The [i]-th call is for the
    [i]-th token, there are no more calls than tokens, and when no call
    throws there is a call for every token.  The command itself is not
    expanded. *)
Theorem bulk_expands_every_token (c : string) (rest : list string)
  (f : YargsFlags) :
  y_each f = false ->
  exists a, parsed (YargsOk c rest f) = ParseOk a
    /\ glob_calls (trace (run_fx (YargsOk c rest f)))
       = handed_on (map Some rest) (<["nonull" := VBool true]> (globOpts a))
    /\ (forall i p o,
          glob_calls (trace (run_fx (YargsOk c rest f))) !! i
          = Some (EGlob p o) ->
          p = rest !! i)
    /\ (length (glob_calls (trace (run_fx (YargsOk c rest f))))
        <= length rest)%nat
    /\ (forall lists,
          (answers rest (<["nonull" := VBool true]> (globOpts a))).1
          = inr lists ->
          length (glob_calls (trace (run_fx (YargsOk c rest f))))
          = length rest).
Proof.
  intros He. destruct (parsed_bulk c rest f He) as (a & Hp & Ha & Hea).
  exists a. split; [done|].
  assert (glob_calls (trace (run_fx (YargsOk c rest f)))
          = handed_on (map Some rest)
                      (<["nonull" := VBool true]> (globOpts a))) as ->.
  { rewrite glob_calls_run_fx. unfold expansions_fx.
    by rewrite Hp, (patterns_bulk c rest f He). }
  split; [done|]. split.
  - intros i p o Hi. apply handed_on_lookup in Hi.
    rewrite list_lookup_fmap in Hi.
    destruct (rest !! i) as [token|]; cbn in Hi; [|discriminate Hi].
    by injection Hi as <-.
  - split.
    + rewrite <- (length_map Some rest). apply handed_on_length.
    + intros lists Hl. by apply (handed_on_all _ _ lists).
Qed.

(** ** Each mode: what [glob] throws *)

(** In each mode no error leaves [main]: what the one call of [glob]
    throws is caught and goes to [errorHandler] like the error for
    more than one glob, no child is spawned, and [exit] is called once,
    with [err.status || 1]. *)
Theorem each_mode_catches_glob_errors (c : string) (rest : list string)
  (f : YargsFlags) :
  y_each f = true ->
  thrown (YargsOk c rest f) = None
  /\ (forall err, built (YargsOk c rest f) = Handled err ->
        processes (trace (run_fx (YargsOk c rest f)))
        = [EExit (status_or_1 err)]).
Proof.
  intros He. destruct (parsed_ok c rest f) as (a & Hp & _ & _ & Hea).
  rewrite He in Hea. split.
  - rewrite (proj2 (actions_run_fx _)). unfold built. rewrite Hp, Hea.
    destruct (length (glob_tokens (args a))) as [|[|n]]; [done| |done].
    cbv zeta. by destruct (glob_fx _ _).1.
  - intros err Hb. rewrite processes_run_fx. unfold outcome. by rewrite Hb.
Qed.

(** ** The glob of the specification as a special case *)

Lemma globArgs_run (args : list string) (opts : GlobOpts) (w : World) :
  globArgs args opts w
  = ((concat (map (fun arg => glob arg (<["nonull" := VBool true]> opts)) args),
      <["nonull" := VBool true]> opts),
     mkWorld (npmlog_level w)
             (trace w
              ++ record (npmlog_level w) Silly "globstar"
                   (MsgOpts (<["nonull" := VBool true]> opts))
              ++ map (fun arg => EGlob (Some arg) (<["nonull" := VBool true]> opts))
                     args)
             (spawned w)).
Proof.
  destruct (globArgs_traces args opts w) as [Hl Ht].
  pose proof (globArgs_spawned args opts w) as Hs.
  pose proof (globArgs_eval args opts w) as He.
  unfold eval, exec in *. destruct (globArgs args opts w) as [v w'].
  cbn [fst snd] in *. subst v. f_equal.
  by rewrite <- (world_eta w'), Hl, Ht, Hs.
Qed.

Lemma globArgsEach_run (args : list string) (opts : GlobOpts) (w : World) :
  globArgsEach args opts w
  = ((each_result args opts, <["nonull" := VBool true]> opts),
     mkWorld (npmlog_level w)
             (trace w
              ++ record (npmlog_level w) Silly "globstar"
                   (MsgOpts (<["nonull" := VBool true]> opts))
              ++ each_globs args opts)
             (spawned w)).
Proof.
  destruct (globArgsEach_traces args opts w) as [Hl Ht].
  destruct (globArgsEach_emits args opts w) as [[He _] Hs].
  unfold eval, exec in *. destruct (globArgsEach args opts w) as [v w'].
  cbn [fst snd] in *. subst v. f_equal.
  by rewrite <- (world_eta w'), Hl, Ht, Hs.
Qed.

Lemma answers_pure (args : list string) (opts : GlobOpts) :
  (forall p o, glob_fx (Some p) o = (inr (glob p o), o)) ->
  answers args opts = (inr (map (fun arg => glob arg opts) args), opts).
Proof.
  intros Hstring. induction args as [|arg rest IH]; [done|].
  cbn [answers map]. rewrite Hstring. cbn [fst snd]. by rewrite IH.
Qed.

Lemma handed_on_pure (args : list string) (opts : GlobOpts) :
  (forall p o, glob_fx (Some p) o = (inr (glob p o), o)) ->
  handed_on (map Some args) opts = map (fun arg => EGlob (Some arg) opts) args.
Proof.
  intros Hstring. induction args as [|arg rest IH]; [done|].
  cbn [handed_on map]. rewrite Hstring. cbn [fst snd]. by rewrite IH.
Qed.

(** Let [glob_fx] do what the two functions [glob] and [glob_undefined]
    say and no more: a call on a string does not throw, and no call
    writes to the option object.  Then a run is the run with the
    argument builders of the first part, and no error leaves [main]. *)
Theorem pure_glob_is_a_special_case (r : YargsResult) :
  (forall p o, glob_fx (Some p) o = (inr (glob p o), o)) ->
  (forall o, glob_fx None o = (glob_undefined o, o)) ->
  run_fx r = run r /\ thrown r = None.
Proof.
  intros Hstring Hundefined.
  unfold run_fx, run, thrown, main_fx, main. rewrite !exec_bind, eval_bind.
  destruct (eval (parseArgv r) initial) as [err dollar0|a].
  - by rewrite exec_then, eval_then.
  - set (w0 := exec (parseArgv r) initial). clearbody w0.
    destruct (truthy (each a)).
    + rewrite exec_then, eval_then. split; [|done].
      unfold mainEach_fx, mainEach.
      rewrite (exec_bind_run _ _ _ _ _
                 (globArgsEach_fx_run (args a) (globOpts a) w0)).
      rewrite (exec_bind_run _ _ _ _ _
                 (globArgsEach_run (args a) (globOpts a) w0)).
      unfold each_result, each_globs.
      destruct (length (glob_tokens (args a))) as [|[|n]]; cbn [fst snd].
      * done.
      * destruct (index (args a) _) as [p|].
        -- by rewrite Hstring.
        -- rewrite Hundefined. cbn [fst snd].
           by destruct (glob_undefined _).
      * done.
    + rewrite (exec_bind_run _ _ _ _ _
                 (globArgs_fx_run (args a) (globOpts a) w0)).
      rewrite (eval_bind_run _ _ _ _ _
                 (globArgs_fx_run (args a) (globOpts a) w0)).
      rewrite (exec_bind_run _ _ _ _ _
                 (globArgs_run (args a) (globOpts a) w0)).
      rewrite answers_pure, handed_on_pure by done. cbn [fst snd].
      by rewrite exec_then, eval_then.
Qed.

End Globstar.

(** * Runs on the sample environment *)

(** Bulk mode: [globstar -- build 'src/**/*.js'] runs
    [build src/a.js src/b.js] once and exits with 0. *)
Example bulk_run :
  processes (trace (run sample_isGlob sample_glob sample_glob_undefined false
                        sample_child "1.0.0" "globstar.js"
                        (YargsOk "build" ["src/**/*.js"] (sample_flags false 0))))
  = [ESpawn 0 "build" ["src/a.js"; "src/b.js"] false; EDone 0 None; EExit 0].
Proof. vm_compute. reflexivity. Qed.

(** The same run with one [-v]: the option object reaches [glob] with
    [nonull] set, and the command line is logged before the spawn. *)
Example bulk_run_verbose :
  trace (run sample_isGlob sample_glob sample_glob_undefined false
             sample_child "1.0.0" "globstar.js"
             (YargsOk "build" ["src/**/*.js"] (sample_flags false 1)))
  = [EGlob (Some "src/**/*.js")
           (<["nonull" := VBool true]> ∅);
     ELog Verbose "globstar" (MsgRunning "build" ["src/a.js"; "src/b.js"]);
     ESpawn 0 "build" ["src/a.js"; "src/b.js"] false;
     EDone 0 None;
     EExit 0].
Proof. vm_compute. reflexivity. Qed.

(** Each mode: [globstar -e -- lint 'src/**/*.js'] runs [lint src/a.js],
    then [lint src/b.js]; as both end well, [exit] is not called. *)
Example each_run :
  processes (trace (run sample_isGlob sample_glob sample_glob_undefined false
                        (fun _ => [EvClose (Some 0)]) "1.0.0" "globstar.js"
                        (YargsOk "lint" ["src/**/*.js"] (sample_flags true 0))))
  = [ESpawn 0 "lint" ["src/a.js"] false; EDone 0 None;
     ESpawn 1 "lint" ["src/b.js"] false; EDone 1 None].
Proof. vm_compute. reflexivity. Qed.

(** Each mode with two globs: [globstar -e -- cp '*.txt' '*.md'] logs the
    error and the hint, and exits with 1. *)
Example each_run_two_globs :
  trace (run sample_isGlob sample_glob sample_glob_undefined false
             sample_child "1.0.0" "globstar.js"
             (YargsOk "cp" ["*.txt"; "*.md"] (sample_flags true 0)))
  = [ELog Error "globstar" (MsgText "each cannot accept multiple globs");
     ELog Info "globstar" (MsgHelp (VStr "globstar"));
     EExit 1].
Proof. vm_compute. reflexivity. Qed.

(** Each mode with the one token [abc/?.js]: the relaxed test counts it,
    the strict test does not find it, [glob] is called without a
    pattern, and the run ends on the error that call throws. *)
Example each_run_glob_not_found :
  actions (trace (run sample_isGlob sample_glob sample_glob_undefined false
                      sample_child "1.0.0" "globstar.js"
                      (YargsOk "ls" ["abc/?.js"] (sample_flags true 0))))
  = [EGlob None (<["nonull" := VBool true]> ∅);
     EExit 1].
Proof. vm_compute. reflexivity. Qed.

(** On win32 the command is handed to [cmd /c], quoted. *)
Example win32_command_line :
  command_line true "ls" ["a b"]
  = ("cmd", ["/c"; dquote +:+ "ls" +:+ dquote; "a b"], true).
Proof. reflexivity. Qed.

(** * The properties on the sample environment *)

Lemma each_rejects_multiple_globs_witness :
  y_each (sample_flags true 0) = true
  /\ (2 <= length (glob_tokens sample_isGlob ["*.txt"; "*.md"]))%nat
  /\ actions (trace (run sample_isGlob sample_glob sample_glob_undefined false
                         sample_child "1.0.0" "globstar.js"
                         (YargsOk "cp" ["*.txt"; "*.md"] (sample_flags true 0))))
     = [EExit 1].
Proof.
  split; [reflexivity|]. split; [vm_compute; apply le_n|].
  apply (each_rejects_multiple_globs sample_isGlob sample_glob
           sample_glob_undefined false sample_child "1.0.0" "globstar.js"
           "cp" ["*.txt"; "*.md"] (sample_flags true 0)).
  - reflexivity.
  - vm_compute. apply le_n.
Defined.

Lemma globArgsEach_glob_not_found_witness :
  length (glob_tokens sample_isGlob ["abc/?.js"]) = 1%nat
  /\ (forall a, In a ["abc/?.js"] -> sample_isGlob a true = false)
  /\ (eval (globArgsEach sample_isGlob sample_glob sample_glob_undefined
              ["abc/?.js"] ∅) initial).1
     = inl (mkError "Error" "must provide pattern" None).
Proof.
  assert (forall a, In a ["abc/?.js"] -> sample_isGlob a true = false) as H.
  { intros a [<-|[]]. reflexivity. }
  split; [reflexivity|]. split; [exact H|].
  exact (proj1 (globArgsEach_glob_not_found sample_isGlob sample_glob
                  sample_glob_undefined ["abc/?.js"] ∅ initial eq_refl H)).
Defined.

Lemma each_mode_sequential_witness :
  invocations sample_isGlob sample_glob sample_glob_undefined "globstar.js"
    (YargsOk "lint" ["-x"; "src/**/*.js"] (sample_flags true 0))
  = inr ([["-x"; "src/a.js"]] ++ ["-x"; "src/b.js"] :: [])
  /\ head (sample_child 0) = Some (EvClose (Some 0))
  /\ head (sample_child 1) = Some (EvClose (Some 3))
  /\ processes (trace (run sample_isGlob sample_glob sample_glob_undefined false
                           sample_child "1.0.0" "globstar.js"
                           (YargsOk "lint" ["-x"; "src/**/*.js"]
                                    (sample_flags true 0))))
     = [ESpawn 0 "lint" ["-x"; "src/a.js"] false;
        EDone 0 None;
        ESpawn 1 "lint" ["-x"; "src/b.js"] false;
        EDone 1 (Some (mkError "SpawnError" "Exit status 3" (Some 3)));
        EExit 3].
Proof.
  assert (invocations sample_isGlob sample_glob sample_glob_undefined
            "globstar.js"
            (YargsOk "lint" ["-x"; "src/**/*.js"] (sample_flags true 0))
          = inr ([["-x"; "src/a.js"]] ++ ["-x"; "src/b.js"] :: [])) as Hinv.
  { vm_compute. reflexivity. }
  split; [exact Hinv|]. split; [reflexivity|]. split; [reflexivity|].
  refine (proj1 (each_mode_sequential sample_isGlob sample_glob
                   sample_glob_undefined false sample_child "1.0.0"
                   "globstar.js" "lint" ["-x"; "src/**/*.js"]
                   (sample_flags true 0) [["-x"; "src/a.js"]]
                   ["-x"; "src/b.js"] [] 3 eq_refl Hinv _ eq_refl _)).
  - intros [|k] Hk; [reflexivity|]. cbn in Hk. lia.
  - discriminate.
Defined.

Lemma exit_code_mapping_witness :
  (* bulk mode, the one child exits with 0 *)
  process_exit_code
    (trace (run sample_isGlob sample_glob sample_glob_undefined false
                sample_child "1.0.0" "globstar.js"
                (YargsOk "build" ["src/**/*.js"] (sample_flags false 0)))) = 0
  (* each mode, the second child exits with 3 *)
  /\ process_exit_code
       (trace (run sample_isGlob sample_glob sample_glob_undefined false
                   sample_child "1.0.0" "globstar.js"
                   (YargsOk "lint" ["-x"; "src/**/*.js"] (sample_flags true 0))))
     = 3
  (* no COMMAND *)
  /\ process_exit_code
       (trace (run sample_isGlob sample_glob sample_glob_undefined false
                   sample_child "1.0.0" "globstar.js"
                   (YargsFail "COMMAND required" [] (sample_flags false 0))))
     = 1
  (* each mode, two globs *)
  /\ process_exit_code
       (trace (run sample_isGlob sample_glob sample_glob_undefined false
                   sample_child "1.0.0" "globstar.js"
                   (YargsOk "cp" ["*.txt"; "*.md"] (sample_flags true 0))))
     = 1
  (* bulk mode, the command does not exist *)
  /\ process_exit_code
       (trace (run sample_isGlob sample_glob sample_glob_undefined false
                   missing_child "1.0.0" "globstar.js"
                   (YargsOk "nosuchcommand" ["a.txt"] (sample_flags false 0))))
     = 1.
Proof.
  split; [|split; [|split; [|split]]].
  - refine (proj1 (exit_code_mapping sample_isGlob sample_glob
                     sample_glob_undefined false sample_child "1.0.0"
                     "globstar.js" _) [["src/a.js"; "src/b.js"]] _ _).
    + vm_compute. reflexivity.
    + intros [|k] Hk; [reflexivity|]. cbn in Hk. lia.
  - refine (proj1 (proj2 (exit_code_mapping sample_isGlob sample_glob
                     sample_glob_undefined false sample_child "1.0.0"
                     "globstar.js" _))
              [["-x"; "src/a.js"]] ["-x"; "src/b.js"] [] 3 _ _ eq_refl _).
    + vm_compute. reflexivity.
    + intros [|k] Hk; [reflexivity|]. cbn in Hk. lia.
    + discriminate.
  - exact (proj1 (proj2 (proj2 (exit_code_mapping sample_isGlob sample_glob
                     sample_glob_undefined false sample_child "1.0.0"
                     "globstar.js" _)))
              "COMMAND required" [] (sample_flags false 0) eq_refl).
  - refine (proj1 (proj2 (proj2 (proj2 (exit_code_mapping sample_isGlob
                     sample_glob sample_glob_undefined false sample_child
                     "1.0.0" "globstar.js" _))))
              (mkError "Error" "each cannot accept multiple globs" None)
              _ eq_refl).
    vm_compute. reflexivity.
  - refine (proj2 (proj2 (proj2 (proj2 (exit_code_mapping sample_isGlob
                     sample_glob sample_glob_undefined false missing_child
                     "1.0.0" "globstar.js" _))))
              [] ["a.txt"] [] (mkError "Error" "spawn ENOENT" None)
              _ _ eq_refl eq_refl).
    + vm_compute. reflexivity.
    + intros k Hk. cbn in Hk. lia.
Defined.

Lemma expansion_is_what_glob_returns_witness :
  sample_glob "docs/*.md" (<["nonull" := VBool true]> ∅)
  = expand sample_hasMagic sample_matches "docs/*.md"
      (<["nonull" := VBool true]> ∅)
  /\ sample_matches "docs/*.md" (<["nonull" := VBool true]> ∅) = []
  /\ (eval (globArgs sample_glob ["docs/*.md"] ∅) initial).1 = ["docs/*.md"]
  /\ sample_hasMagic "README.md" = false
  /\ (eval (globArgs sample_glob ["README.md"] ∅) initial).1 = ["README.md"].
Proof.
  pose proof (proj2 (expansion_is_what_glob_returns sample_isGlob sample_glob
                       sample_glob_undefined false sample_child "1.0.0"
                       "globstar.js" sample_hasMagic sample_matches)) as Hx.
  cbv zeta in Hx.
  assert (sample_glob "docs/*.md" (<["nonull" := VBool true]> ∅)
          = expand sample_hasMagic sample_matches "docs/*.md"
              (<["nonull" := VBool true]> ∅)) as Hdocs by reflexivity.
  assert (sample_glob "README.md" (<["nonull" := VBool true]> ∅)
          = expand sample_hasMagic sample_matches "README.md"
              (<["nonull" := VBool true]> ∅)) as Hreadme by reflexivity.
  split; [exact Hdocs|]. split; [reflexivity|]. split.
  - exact (proj2 (proj2 (proj2 (Hx "docs/*.md" ∅ initial) Hdocs)) eq_refl).
  - split; [reflexivity|].
    exact (proj1 (proj2 (proj2 (Hx "README.md" ∅ initial) Hreadme)) eq_refl).
Defined.

(** C5, as stated, fails: with a [glob] that removes the ignored paths
    from what it returns, [globstar -i notes.txt -- cat notes.txt]
    expands the token [notes.txt], which has no glob metacharacter, to
    nothing, and runs [cat] without an argument. *)
Lemma expansion_empty_when_ignored :
  sample_hasMagic "notes.txt" = false
  /\ (eval (globArgs ignoring_glob ["notes.txt"]
              {[ "ignore" := VArr ["notes.txt"] ]}) initial).1 = []
  /\ spawns (trace (run sample_isGlob ignoring_glob sample_glob_undefined false
                        sample_child "1.0.0" "globstar.js"
                        (YargsOk "cat" ["notes.txt"]
                           (mkFlags None (Some ["notes.txt"]) None 0 None
                                    "globstar" ∅))))
     = [ESpawn 0 "cat" [] false].
Proof. vm_compute. repeat split. Qed.

Lemma spawnCommand_calls_back_once_witness :
  missing_child (spawned initial)
  = EvError (mkError "Error" "spawn ENOENT" None) :: [EvClose (Some (-2))]
  /\ done_count
       (trace (exec (spawnCommand false missing_child "nosuchcommand" ["a.txt"]
                       (fun _ => ret tt)) initial))
     = 1%nat.
Proof.
  split; [reflexivity|].
  destruct (spawnCommand_calls_back_once false missing_child "nosuchcommand"
              ["a.txt"] initial
              (EvError (mkError "Error" "spawn ENOENT" None))
              [EvClose (Some (-2))] eq_refl) as (result & _ & Hcount & _).
  exact Hcount.
Defined.

Lemma globOpts_written_once_witness :
  y_other (mkFlags None (Some ["dist/**"]) (Some true) 0 None "globstar" ∅)
    !! "ignore" = None
  /\ (forall p o key,
        key ∉ ["nonegate"; "nocomment"; "allowWindowsEscape"] ->
        (sample_glob_fx p o).2 !! key = o !! key)
  /\ exists a,
       parsed "globstar.js"
         (YargsOk "echo" ["a.txt"; "b.txt"]
            (mkFlags None (Some ["dist/**"]) (Some true) 0 None "globstar" ∅))
       = ParseOk a
       /\ globOpts a !! "ignore"
          = Some (VArr ["dist/**"; "**/node_modules/**"])
       /\ (forall p o,
             In (EGlob p o)
                (trace (run_fx sample_isGlob false sample_child "1.0.0"
                          "globstar.js" sample_glob_fx
                          (YargsOk "echo" ["a.txt"; "b.txt"]
                             (mkFlags None (Some ["dist/**"]) (Some true) 0
                                      None "globstar" ∅)))) ->
             o !! "ignore" = Some (VArr ["dist/**"; "**/node_modules/**"])).
Proof.
  assert (y_other (mkFlags None (Some ["dist/**"]) (Some true) 0 None
                           "globstar" ∅) !! "ignore" = None)
    as Hother by reflexivity.
  assert (forall p o key,
            key ∉ ["nonegate"; "nocomment"; "allowWindowsEscape"] ->
            (sample_glob_fx p o).2 !! key = o !! key) as Hframe.
  { intros p o key Hkey.
    apply not_elem_of_cons in Hkey as [H1 Hkey].
    apply not_elem_of_cons in Hkey as [H2 Hkey].
    apply not_elem_of_cons in Hkey as [H3 _].
    destruct p as [[|ch p]|]; cbn [sample_glob_fx snd]; [reflexivity| |reflexivity].
    rewrite lookup_insert_ne by (intros <-; by apply H3).
    rewrite lookup_insert_ne by (intros <-; by apply H2).
    by rewrite lookup_insert_ne by (intros <-; by apply H1). }
  split; [exact Hother|]. split; [exact Hframe|].
  destruct (globOpts_written_once sample_isGlob false sample_child "1.0.0"
              "globstar.js" sample_glob_fx "echo" ["a.txt"; "b.txt"]
              (mkFlags None (Some ["dist/**"]) (Some true) 0 None "globstar" ∅)
              ["nonegate"; "nocomment"; "allowWindowsEscape"] Hother Hframe)
    as (a & Hp & Hignore & _ & Hkeys).
  exists a. split; [exact Hp|]. split; [exact Hignore|].
  intros p o Hin. etransitivity; [|exact Hignore].
  refine (Hkeys p o "ignore" Hin _).
  intros Hin'. apply elem_of_cons in Hin' as [H|Hin']; [discriminate H|].
  apply elem_of_cons in Hin' as [H|Hin']; [discriminate H|].
  apply elem_of_cons in Hin' as [H|Hin']; [discriminate H|].
  by apply elem_of_nil in Hin'.
Defined.

(** C8, as stated, fails: in the option object [parseArgv] builds for
    [globstar --no-nonull -- echo a.txt b.txt] the property [nonull]
    is [false]; the first call of [glob] gets the object with [nonull]
    set to [true], and the second gets it with the options the first
    call wrote. *)
Lemma globOpts_changed_after_construction :
  match parsed "globstar.js"
          (YargsOk "echo" ["a.txt"; "b.txt"]
             (mkFlags None None None 0 None "globstar"
                      {[ "nonull" := VBool false ]}))
  with
  | ParseOk a =>
      globOpts a = {[ "nonull" := VBool false ]}
      /\ glob_calls
           (trace (run_fx sample_isGlob false sample_child "1.0.0"
                     "globstar.js" sample_glob_fx
                     (YargsOk "echo" ["a.txt"; "b.txt"]
                        (mkFlags None None None 0 None "globstar"
                                 {[ "nonull" := VBool false ]}))))
         = [EGlob (Some "a.txt") {[ "nonull" := VBool true ]};
            EGlob (Some "b.txt")
                  (<["allowWindowsEscape" := VBool true]>
                     (<["nocomment" := VBool true]>
                        (<["nonegate" := VBool true]>
                           {[ "nonull" := VBool true ]})))]
      /\ globOpts a !! "nonull"
         <> (<["nonull" := VBool true]> (globOpts a)) !! "nonull"
  | ParseError _ _ => False
  end.
Proof.
  vm_compute. split; [reflexivity|]. split; [reflexivity|].
  intros H. discriminate H.
Qed.

Lemma spawn_error_status_is_exit_code_witness :
  (forall j e, In (EvError e) (sample_child j) -> name e <> "SpawnError")
  /\ In (EDone 1 (Some (mkError "SpawnError" "Exit status 3" (Some 3))))
        (trace (run sample_isGlob sample_glob sample_glob_undefined false
                    sample_child "1.0.0" "globstar.js"
                    (YargsOk "lint" ["-x"; "src/**/*.js"] (sample_flags true 0))))
  /\ exists s,
       status (mkError "SpawnError" "Exit status 3" (Some 3)) = Some s
       /\ s <> 0
       /\ process_exit_code
            (trace (run sample_isGlob sample_glob sample_glob_undefined false
                        sample_child "1.0.0" "globstar.js"
                        (YargsOk "lint" ["-x"; "src/**/*.js"]
                                 (sample_flags true 0))))
          = s.
Proof.
  assert (forall j e, In (EvError e) (sample_child j) -> name e <> "SpawnError")
    as Hnode.
  { intros [|[|j]] e [H|[]]; discriminate. }
  assert (In (EDone 1 (Some (mkError "SpawnError" "Exit status 3" (Some 3))))
            (trace (run sample_isGlob sample_glob sample_glob_undefined false
                        sample_child "1.0.0" "globstar.js"
                        (YargsOk "lint" ["-x"; "src/**/*.js"]
                                 (sample_flags true 0))))) as Hin.
  { vm_compute. repeat first [left; reflexivity | right]. }
  split; [exact Hnode|]. split; [exact Hin|].
  destruct (spawn_error_status_is_exit_code sample_isGlob sample_glob
              sample_glob_undefined false sample_child "1.0.0" "globstar.js"
              _ 1%nat _ Hnode Hin eq_refl) as (s & Hs & Hne & _ & Hcode).
  exists s. split; [exact Hs|]. split; [exact Hne|]. exact Hcode.
Defined.

(** * The further properties on the sample environment *)

Lemma globOpts_drops_own_flags_witness :
  exists a,
    parsed "globstar.js" (YargsOk "echo" ["a.txt"] (sample_flags false 1))
    = ParseOk a
    /\ String.length "_" = 1%nat
    /\ globOpts a !! "_" = None
    /\ globOpts a !! "verbose" = None.
Proof.
  destruct (parsed_ok "globstar.js" "echo" ["a.txt"] (sample_flags false 1))
    as (a & Hp & _).
  exists a. split; [exact Hp|]. split; [reflexivity|]. split.
  - apply (globOpts_drops_own_flags "globstar.js" _ a "_" Hp).
    do 4 right. reflexivity.
  - apply (globOpts_drops_own_flags "globstar.js" _ a "verbose" Hp).
    right. left. reflexivity.
Defined.

Lemma globOpts_passes_options_on_witness :
  (exists a,
     parsed "globstar.js"
       (YargsOk "echo" ["a.txt"]
          (mkFlags (Some true) None None 0 None "globstar"
                   {[ "dot" := VBool true ]}))
     = ParseOk a
     /\ nonGlobFlag "dot" = false
     /\ globOpts a !! "nodir" = Some (VBool true)
     /\ globOpts a !! "dot" = Some (VBool true))
  /\ (exists a,
        parsed "globstar.js" (YargsOk "echo" ["a.txt"] (sample_flags false 0))
        = ParseOk a
        /\ globOpts a !! "nodir" = None).
Proof.
  split.
  - destruct (parsed_ok "globstar.js" "echo" ["a.txt"]
                (mkFlags (Some true) None None 0 None "globstar"
                         {[ "dot" := VBool true ]})) as (a & Hp & _).
    destruct (globOpts_passes_options_on "globstar.js" _ _ _ a Hp)
      as [Hnodir Hk].
    exists a. split; [exact Hp|]. split; [reflexivity|].
    split; [exact Hnodir|].
    etransitivity.
    + apply (Hk "dot"); [reflexivity|discriminate|discriminate].
    + reflexivity.
  - destruct (parsed_ok "globstar.js" "echo" ["a.txt"] (sample_flags false 0))
      as (a & Hp & _).
    exists a. split; [exact Hp|].
    exact (proj1 (globOpts_passes_options_on "globstar.js" _ _ _ a Hp)).
Defined.

Lemma spawns_use_built_lists_witness :
  In (ESpawn 1 "lint" ["-x"; "src/b.js"] false)
     (trace (run sample_isGlob sample_glob sample_glob_undefined false
                 sample_child "1.0.0" "globstar.js"
                 (YargsOk "lint" ["-x"; "src/**/*.js"] (sample_flags true 0))))
  /\ exists values value,
       invocations sample_isGlob sample_glob sample_glob_undefined "globstar.js"
         (YargsOk "lint" ["-x"; "src/**/*.js"] (sample_flags true 0))
       = inr values
       /\ In value values /\ ["-x"; "src/b.js"] = value.
Proof.
  assert (In (ESpawn 1 "lint" ["-x"; "src/b.js"] false)
            (trace (run sample_isGlob sample_glob sample_glob_undefined false
                        sample_child "1.0.0" "globstar.js"
                        (YargsOk "lint" ["-x"; "src/**/*.js"]
                                 (sample_flags true 0))))) as Hin.
  { vm_compute. repeat first [left; reflexivity | right]. }
  split; [exact Hin|].
  destruct (spawns_use_built_lists sample_isGlob sample_glob
              sample_glob_undefined false sample_child "1.0.0" "globstar.js"
              _ _ _ _ _ Hin) as (values & value & Hinv & Hv & _ & Hline).
  cbv iota in Hline. destruct Hline as [_ Ha].
  exists values, value. split; [exact Hinv|]. split; [exact Hv|exact Ha].
Defined.

Lemma bulk_mode_spawns_once_witness :
  y_each (sample_flags false 0) = false
  /\ spawns (trace (run_fx sample_isGlob false sample_child "1.0.0"
                       "globstar.js" sample_glob_fx
                       (YargsOk "build" ["src/**/*.js"] (sample_flags false 0))))
     = [ESpawn 0 "build" ["src/a.js"; "src/b.js"] false]
  /\ processes (trace (run_fx sample_isGlob false sample_child "1.0.0"
                          "globstar.js" sample_glob_fx
                          (YargsOk "echo" [EmptyString] (sample_flags false 0))))
     = []
  /\ thrown sample_isGlob false sample_child "1.0.0" "globstar.js"
       sample_glob_fx (YargsOk "echo" [EmptyString] (sample_flags false 0))
     = Some (mkError "Error" "must provide pattern" None).
Proof.
  split; [reflexivity|]. split.
  - destruct (bulk_mode_spawns_once sample_isGlob false sample_child "1.0.0"
                "globstar.js" sample_glob_fx "build" ["src/**/*.js"]
                (sample_flags false 0) eq_refl) as (a & Hp & H).
    vm_compute in Hp. injection Hp as <-.
    etransitivity; [exact (proj1 H)|]. vm_compute. reflexivity.
  - destruct (bulk_mode_spawns_once sample_isGlob false sample_child "1.0.0"
                "globstar.js" sample_glob_fx "echo" [EmptyString]
                (sample_flags false 0) eq_refl) as (a & Hp & H).
    vm_compute in Hp. injection Hp as <-.
    split; [exact (proj1 H)|exact (proj2 H)].
Defined.

Lemma each_without_glob_runs_once_witness :
  y_each (sample_flags true 0) = true
  /\ glob_tokens sample_isGlob ["a.txt"; "b.txt"] = []
  /\ spawns (trace (run sample_isGlob sample_glob sample_glob_undefined false
                        sample_child "1.0.0" "globstar.js"
                        (YargsOk "echo" ["a.txt"; "b.txt"] (sample_flags true 0))))
     = [ESpawn 0 "echo" ["a.txt"; "b.txt"] false].
Proof.
  split; [reflexivity|]. split; [reflexivity|].
  exact (proj2 (each_without_glob_runs_once sample_isGlob sample_glob
                  sample_glob_undefined false sample_child "1.0.0"
                  "globstar.js" "echo" ["a.txt"; "b.txt"] (sample_flags true 0)
                  eq_refl eq_refl)).
Defined.

Lemma failure_never_exits_zero_witness :
  In (EDone 0 (Some (mkError "Error" "spawn ENOENT" None)))
     (trace (run sample_isGlob sample_glob sample_glob_undefined false
                 missing_child "1.0.0" "globstar.js"
                 (YargsOk "nosuchcommand" ["a.txt"] (sample_flags false 0))))
  /\ process_exit_code
       (trace (run sample_isGlob sample_glob sample_glob_undefined false
                   missing_child "1.0.0" "globstar.js"
                   (YargsOk "nosuchcommand" ["a.txt"] (sample_flags false 0))))
     <> 0.
Proof.
  assert (In (EDone 0 (Some (mkError "Error" "spawn ENOENT" None)))
            (trace (run sample_isGlob sample_glob sample_glob_undefined false
                        missing_child "1.0.0" "globstar.js"
                        (YargsOk "nosuchcommand" ["a.txt"]
                                 (sample_flags false 0))))) as Hin.
  { vm_compute. repeat first [left; reflexivity | right]. }
  split; [exact Hin|].
  exact (proj2 (failure_never_exits_zero sample_isGlob sample_glob
                  sample_glob_undefined false missing_child "1.0.0"
                  "globstar.js"
                  (YargsOk "nosuchcommand" ["a.txt"] (sample_flags false 0))
                  (mkError "Error" "spawn ENOENT" None)
                  (or_intror (ex_intro _ 0%nat Hin)))).
Defined.

Lemma one_child_at_a_time_witness :
  invocations sample_isGlob sample_glob sample_glob_undefined "globstar.js"
    (YargsOk "lint" ["-x"; "src/**/*.js"] (sample_flags true 0))
  = inr [["-x"; "src/a.js"]; ["-x"; "src/b.js"]]
  /\ exists n tail,
       processes (trace (run sample_isGlob sample_glob sample_glob_undefined
                             false sample_child "1.0.0" "globstar.js"
                             (YargsOk "lint" ["-x"; "src/**/*.js"]
                                      (sample_flags true 0))))
       = completed false 0
           (command (YargsOk "lint" ["-x"; "src/**/*.js"] (sample_flags true 0)))
           (take n [["-x"; "src/a.js"]; ["-x"; "src/b.js"]])
         ++ tail.
Proof.
  assert (invocations sample_isGlob sample_glob sample_glob_undefined
            "globstar.js"
            (YargsOk "lint" ["-x"; "src/**/*.js"] (sample_flags true 0))
          = inr [["-x"; "src/a.js"]; ["-x"; "src/b.js"]]) as Hinv.
  { vm_compute. reflexivity. }
  split; [exact Hinv|].
  destruct (one_child_at_a_time sample_isGlob sample_glob
              sample_glob_undefined false sample_child "1.0.0" "globstar.js"
              _ _ Hinv) as (n & tail & Heq & _).
  exists n, tail. exact Heq.
Defined.

Lemma signal_ended_child_counts_as_success_witness :
  invocations sample_isGlob sample_glob sample_glob_undefined "globstar.js"
    (YargsOk "build" ["src/**/*.js"] (sample_flags false 0))
  = inr [["src/a.js"; "src/b.js"]]
  /\ process_exit_code
       (trace (run sample_isGlob sample_glob sample_glob_undefined false
                   (fun _ => [EvClose None]) "1.0.0" "globstar.js"
                   (YargsOk "build" ["src/**/*.js"] (sample_flags false 0))))
     = 0.
Proof.
  assert (invocations sample_isGlob sample_glob sample_glob_undefined
            "globstar.js"
            (YargsOk "build" ["src/**/*.js"] (sample_flags false 0))
          = inr [["src/a.js"; "src/b.js"]]) as Hinv.
  { vm_compute. reflexivity. }
  split; [exact Hinv|].
  refine (proj2 (signal_ended_child_counts_as_success sample_isGlob sample_glob
                   sample_glob_undefined false (fun _ => [EvClose None])
                   "1.0.0" "globstar.js" _ _ Hinv _)).
  intros k _. left. reflexivity.
Defined.

Lemma bulk_expands_every_token_witness :
  y_each (sample_flags false 0) = false
  /\ glob_calls
       (trace (run_fx sample_isGlob false sample_child "1.0.0" "globstar.js"
                 sample_glob_fx
                 (YargsOk "ls" ["-l"; EmptyString; "src/**/*.js"]
                          (sample_flags false 0))))
     = [EGlob (Some "-l") {[ "nonull" := VBool true ]};
        EGlob (Some EmptyString)
              (<["allowWindowsEscape" := VBool true]>
                 (<["nocomment" := VBool true]>
                    (<["nonegate" := VBool true]>
                       {[ "nonull" := VBool true ]})))].
Proof.
  split; [reflexivity|].
  destruct (bulk_expands_every_token sample_isGlob false sample_child "1.0.0"
              "globstar.js" sample_glob_fx "ls"
              ["-l"; EmptyString; "src/**/*.js"] (sample_flags false 0)
              eq_refl) as (a & Hp & Hcalls & _).
  vm_compute in Hp. injection Hp as <-.
  etransitivity; [exact Hcalls|]. vm_compute. reflexivity.
Defined.

Lemma each_expands_at_most_one_token_witness :
  y_each (sample_flags true 0) = true
  /\ (length (glob_calls
                (trace (run sample_isGlob sample_glob sample_glob_undefined
                            false sample_child "1.0.0" "globstar.js"
                            (YargsOk "lint" ["-x"; "src/**/*.js"]
                                     (sample_flags true 0))))) <= 1)%nat.
Proof.
  split; [reflexivity|].
  exact (proj1 (each_expands_at_most_one_token sample_isGlob sample_glob
                  sample_glob_undefined false sample_child "1.0.0"
                  "globstar.js" "lint" ["-x"; "src/**/*.js"]
                  (sample_flags true 0) eq_refl)).
Defined.

Lemma each_lists_differ_at_the_glob_only_witness :
  (forall a, In a ["-x"; "src/**/*.js"] ->
     sample_isGlob a true = sample_isGlob a false)
  /\ length (glob_tokens sample_isGlob ["-x"; "src/**/*.js"]) = 1%nat
  /\ exists i p lists,
       ["-x"; "src/**/*.js"] !! i = Some p
       /\ sample_isGlob p false = true
       /\ (eval (globArgsEach sample_isGlob sample_glob sample_glob_undefined
                   ["-x"; "src/**/*.js"] ∅) initial).1 = inr lists
       /\ length lists = length (sample_glob p (<["nonull" := VBool true]> ∅)).
Proof.
  assert (forall a, In a ["-x"; "src/**/*.js"] ->
            sample_isGlob a true = sample_isGlob a false) as Hagree.
  { intros a [<-|[<-|[]]]; reflexivity. }
  split; [exact Hagree|]. split; [reflexivity|].
  destruct (each_lists_differ_at_the_glob_only sample_isGlob sample_glob
              sample_glob_undefined ["-x"; "src/**/*.js"] ∅ initial Hagree
              eq_refl) as (i & p & lists & Hp & Hglob & _ & Hres & Hlen & _).
  exists i, p, lists. split; [exact Hp|]. split; [exact Hglob|].
  split; [exact Hres|exact Hlen].
Defined.


Lemma quiet_without_verbose_witness :
  y_verbose (yargs_flags (YargsOk "lint" ["-x"; "src/**/*.js"] (sample_flags true 0)))
  = 0%nat
  /\ In (EDone 1 (Some (mkError "SpawnError" "Exit status 3" (Some 3))))
        (trace (run sample_isGlob sample_glob sample_glob_undefined false
                    sample_child "1.0.0" "globstar.js"
                    (YargsOk "lint" ["-x"; "src/**/*.js"] (sample_flags true 0))))
  /\ forall e,
       In e (trace (run sample_isGlob sample_glob sample_glob_undefined false
                        sample_child "1.0.0" "globstar.js"
                        (YargsOk "lint" ["-x"; "src/**/*.js"]
                                 (sample_flags true 0)))) ->
       is_log e = false.
Proof.
  split; [reflexivity|]. split.
  { vm_compute. repeat first [left; reflexivity | right]. }
  apply (quiet_without_verbose sample_isGlob sample_glob sample_glob_undefined
           false sample_child "1.0.0" "globstar.js"
           (YargsOk "lint" ["-x"; "src/**/*.js"] (sample_flags true 0))
           [["-x"; "src/a.js"]; ["-x"; "src/b.js"]]).
  - reflexivity.
  - vm_compute. reflexivity.
  - intros k err Hin. vm_compute in Hin.
    repeat (destruct Hin as [Hin|Hin];
            [try discriminate Hin; injection Hin as _ <-; reflexivity|]).
    destruct Hin.
Defined.


Lemma other_failures_are_reported_witness :
  invocations sample_isGlob sample_glob sample_glob_undefined "globstar.js"
    (YargsOk "lint" ["src/*.js"; "test/*.js"] (sample_flags true 0))
  = inl multiple_globs
  /\ name multiple_globs <> "SpawnError"
  /\ In (ELog Error "globstar" (MsgText (message multiple_globs)))
        (trace (run sample_isGlob sample_glob sample_glob_undefined false
                    sample_child "1.0.0" "globstar.js"
                    (YargsOk "lint" ["src/*.js"; "test/*.js"]
                             (sample_flags true 0)))).
Proof.
  assert (invocations sample_isGlob sample_glob sample_glob_undefined
            "globstar.js"
            (YargsOk "lint" ["src/*.js"; "test/*.js"] (sample_flags true 0))
          = inl multiple_globs) as Hinv.
  { vm_compute. reflexivity. }
  assert (name multiple_globs <> "SpawnError") as Hname by discriminate.
  split; [exact Hinv|]. split; [exact Hname|].
  exact (proj1 (other_failures_are_reported sample_isGlob sample_glob
                  sample_glob_undefined false sample_child "1.0.0"
                  "globstar.js" "lint" ["src/*.js"; "test/*.js"]
                  (sample_flags true 0) multiple_globs (or_introl Hinv) Hname)).
Defined.

Lemma options_are_logged_at_silly_witness :
  exists a,
    parsed "globstar.js" (YargsOk "ls" ["src/**/*.js"] (sample_flags false 2))
    = ParseOk a
    /\ List.filter is_options_record
         (trace (run sample_isGlob sample_glob sample_glob_undefined false
                     sample_child "1.0.0" "globstar.js"
                     (YargsOk "ls" ["src/**/*.js"] (sample_flags false 2))))
       = [ELog Silly "globstar"
            (MsgOpts (<["nonull" := VBool true]> (globOpts a)))].
Proof.
  destruct (parsed_ok "globstar.js" "ls" ["src/**/*.js"] (sample_flags false 2))
    as (a & Hp & _).
  exists a. split; [exact Hp|].
  exact (options_are_logged_at_silly sample_isGlob sample_glob
           sample_glob_undefined false sample_child "1.0.0" "globstar.js"
           (YargsOk "ls" ["src/**/*.js"] (sample_flags false 2)) a Hp).
Defined.


Lemma node_flag_ignores_node_modules_witness :
  exists o,
    In (EGlob (Some "src/**/*.js") o)
       (trace (run sample_isGlob sample_glob sample_glob_undefined false
                   sample_child "1.0.0" "globstar.js"
                   (YargsOk "ls" ["src/**/*.js"]
                      (mkFlags None (Some ["dist/**"]) (Some true) 0 None
                               "globstar" ∅))))
    /\ o !! "ignore" = Some (VArr ["dist/**"; "**/node_modules/**"]).
Proof.
  assert (In (EGlob (Some "src/**/*.js")
                (<["nonull" := VBool true]>
                   {[ "ignore" := VArr ["dist/**"; "**/node_modules/**"] ]}))
            (trace (run sample_isGlob sample_glob sample_glob_undefined false
                        sample_child "1.0.0" "globstar.js"
                        (YargsOk "ls" ["src/**/*.js"]
                           (mkFlags None (Some ["dist/**"]) (Some true) 0 None
                                    "globstar" ∅))))) as Hin.
  { vm_compute. repeat first [left; reflexivity | right]. }
  eexists. split; [exact Hin|].
  exact (node_flag_ignores_node_modules sample_isGlob sample_glob
           sample_glob_undefined false sample_child "1.0.0" "globstar.js"
           "ls" ["src/**/*.js"]
           (mkFlags None (Some ["dist/**"]) (Some true) 0 None "globstar" ∅)
           _ _ eq_refl Hin).
Defined.

Lemma each_mode_catches_glob_errors_witness :
  y_each (sample_flags true 0) = true
  /\ built sample_isGlob "globstar.js" sample_glob_fx
       (YargsOk "ls" ["abc/?.js"] (sample_flags true 0))
     = Handled (mkError "Error" "must provide pattern" None)
  /\ thrown sample_isGlob false sample_child "1.0.0" "globstar.js"
       sample_glob_fx (YargsOk "ls" ["abc/?.js"] (sample_flags true 0))
     = None
  /\ processes (trace (run_fx sample_isGlob false sample_child "1.0.0"
                          "globstar.js" sample_glob_fx
                          (YargsOk "ls" ["abc/?.js"] (sample_flags true 0))))
     = [EExit 1].
Proof.
  assert (built sample_isGlob "globstar.js" sample_glob_fx
            (YargsOk "ls" ["abc/?.js"] (sample_flags true 0))
          = Handled (mkError "Error" "must provide pattern" None)) as Hbuilt.
  { vm_compute. reflexivity. }
  destruct (each_mode_catches_glob_errors sample_isGlob false sample_child
              "1.0.0" "globstar.js" sample_glob_fx "ls" ["abc/?.js"]
              (sample_flags true 0) eq_refl) as [Hthrown Hexit].
  split; [reflexivity|]. split; [exact Hbuilt|]. split; [exact Hthrown|].
  exact (Hexit _ Hbuilt).
Defined.

Lemma pure_glob_is_a_special_case_witness :
  (forall p o,
     (fun pattern opts =>
        match pattern with
        | Some p => (inr (sample_glob p opts), opts)
        | None => (sample_glob_undefined opts, opts)
        end) (Some p) o
     = (inr (sample_glob p o), o))
  /\ run_fx sample_isGlob false sample_child "1.0.0" "globstar.js"
       (fun pattern opts =>
          match pattern with
          | Some p => (inr (sample_glob p opts), opts)
          | None => (sample_glob_undefined opts, opts)
          end)
       (YargsOk "lint" ["-x"; "src/**/*.js"] (sample_flags true 1))
     = run sample_isGlob sample_glob sample_glob_undefined false sample_child
           "1.0.0" "globstar.js"
           (YargsOk "lint" ["-x"; "src/**/*.js"] (sample_flags true 1)).
Proof.
  split; [reflexivity|].
  refine (proj1 (pure_glob_is_a_special_case sample_isGlob sample_glob
                   sample_glob_undefined false sample_child "1.0.0"
                   "globstar.js" _ _ _ _)).
  - intros p o. reflexivity.
  - intros o. reflexivity.
Defined.
